(** * P2P-WebRTC: host election, presence reconciliation and the peer
      connection manager, embedded from the TypeScript sources.

    Layout
    - [Store]        : the durable tables ([rooms], [room_members]) and the
                       query-builder calls the sources issue against them.
    - [HostElection] : hostElection.ts ([getCurrentHost], [electHost],
                       [transferHost], [listenForMemberLeaves]) and
                       joinRoom.ts ([leaveRoom]), as programs over the store.
    - [Sched]        : interleavings of two such programs, one store call at
                       a time.
    - [Webrtc]       : webrtc.ts, the peer connection manager.
    - [Presence]     : presence.ts.
    - [Session]      : joinRoom.ts [disconnectFromRoom]. *)

From stdpp Require Import gmap strings list.


(** JavaScript truthiness of a string value: the empty string is falsy. *)
Definition truthy (s : string) : bool := bool_decide (s ≠ "").

(** [x || null] for a nullable string column. *)
Definition or_null (o : option string) : option string :=
  match o with
  | Some s => if truthy s then Some s else None
  | None => None
  end.

(* ================================================================== *)
(** ** The durable store *)

Module Store.

(** A row of [rooms]; the primary key [id] is the key of the map. *)
Record room_row := { room_name : string; owner : option string }.

(** [room_members] rows are [(room_id, user_id)] pairs. *)
Record db := {
  rooms : gmap string room_row;
  room_members : gset (string * string)
}.

(** Column filters chained after [.eq('id', roomId)]. *)
Inductive guard :=
| IsNull (col : string)               (* .is(col, null) *)
| Eq (col : string) (v : string).     (* .eq(col, v)    *)

(** The calls the sources make. Every call on [rooms] carries
    [.eq('id', id)]; every call on [room_members] carries the room. *)
Inductive request :=
| SelectRoom (id : string)
    (* rooms.select(..).eq('id', id).maybeSingle() *)
| SelectMember (room user : string)
    (* room_members.select('user_id').eq('room_id', room)
         .eq('user_id', user).maybeSingle() *)
| SelectMembers (room : string)
    (* room_members.select('user_id').eq('room_id', room) *)
| SelectFirstMember (room : string)
    (* room_members.select('user_id').eq('room_id', room)
         .order('user_id', { ascending: true }).limit(1) *)
| UpdateRoom (col : string) (v : option string) (id : string)
             (cond : option guard)
    (* rooms.update({ col: v }).eq('id', id)[.cond][.select(col).maybeSingle()] *)
| InsertRoom (id name own : string)
    (* rooms.insert({ id, room_name: name, owner: own }) *)
| DeleteMember (room user : string).
    (* room_members.delete().match({ room_id: room, user_id: user }) *)

(** [{ data, error }]: [row] is the row of a [rooms] call, [users] the
    [user_id]s of a [room_members] call. *)
Record reply := {
  error : bool;
  row : option room_row;
  users : list string
}.

Definition ok_row (r : option room_row) : reply :=
  {| error := false; row := r; users := [] |}.
Definition ok_users (us : list string) : reply :=
  {| error := false; row := None; users := us |}.
Definition failure : reply :=
  {| error := true; row := None; users := [] |}.

Definition set_owner (v : option string) (r : room_row) : room_row :=
  {| room_name := room_name r; owner := v |}.

(** The column a filter names, and whether a row passes the filter. *)
Definition guard_col (c : guard) : string :=
  match c with IsNull col => col | Eq col _ => col end.

Definition passes (c : option guard) (r : room_row) : bool :=
  match c with
  | None => true
  | Some (IsNull _) => bool_decide (owner r = None)
  | Some (Eq _ v) => bool_decide (owner r = Some v)
  end.

Definition known_cols (col : string) (c : option guard) : bool :=
  String.eqb col "owner" &&
  match c with
  | None => true
  | Some f => String.eqb (guard_col f) "owner"
  end.

(** The [user_id]s of a room's membership rows. *)
Definition members_of (room : string) (d : db) : list string :=
  (elements (filter (λ p, p.1 = room) (room_members d))).*2.

(** [.order('user_id', { ascending: true }).limit(1)]: the least id in
    byte-wise string order, when there is one. *)
Definition least (us : list string) : option string :=
  foldr (λ u acc,
           match acc with
           | None => Some u
           | Some m => if String.leb u m then Some u else Some m
           end) None us.

(** Modelled from the spec: the store is an external service and the
    schema of its tables is not in the sources. One call against it gives
    a reply and the store afterwards. [rooms] has the columns [id],
    [room_name] and [owner] (section 6); an update or filter that names
    another column is rejected with an error and writes nothing.
    [rooms.id] and [room_members (room_id, user_id)] are keys, updates are
    atomic compare-and-swap on the filtered row (section 1). *)
Definition exec (q : request) (d : db) : reply * db :=
  match q with
  | SelectRoom id => (ok_row (rooms d !! id), d)
  | SelectMember room user =>
      (ok_users (if bool_decide ((room, user) ∈ room_members d)
                 then [user] else []), d)
  | SelectMembers room => (ok_users (members_of room d), d)
  | SelectFirstMember room =>
      (ok_users (option_list (least (members_of room d))), d)
  | UpdateRoom col v id cond =>
      if known_cols col cond then
        match rooms d !! id with
        | Some r =>
            if passes cond r
            then (ok_row (Some (set_owner v r)),
                  {| rooms := <[id := set_owner v r]> (rooms d);
                     room_members := room_members d |})
            else (ok_row None, d)
        | None => (ok_row None, d)
        end
      else (failure, d)
  | InsertRoom id name own =>
      match rooms d !! id with
      | Some _ => (failure, d)
      | None =>
          (ok_row None,
           {| rooms := <[id := {| room_name := name; owner := Some own |}]> (rooms d);
              room_members := room_members d |})
      end
  | DeleteMember room user =>
      (ok_users [],
       {| rooms := rooms d;
          room_members := room_members d ∖ {[ (room, user) ]} |})
  end.

(** The [owner] recorded for a room, if the room exists. *)
Definition owner_of (id : string) (d : db) : option string :=
  rooms d !! id ≫= owner.

End Store.

(* ================================================================== *)
(** ** Programs over the store *)

(** An [async] function of the sources: it returns, or it awaits one
    store call and continues with the reply. *)
Inductive prog (A : Type) : Type :=
| Ret (a : A)
| Call (q : Store.request) (k : Store.reply → prog A).
Arguments Ret {A} a.
Arguments Call {A} q k.

Fixpoint bind {A B} (m : prog A) (f : A → prog B) : prog B :=
  match m with
  | Ret a => f a
  | Call q k => Call q (λ r, bind (k r) f)
  end.

Definition call (q : Store.request) : prog Store.reply := Call q Ret.

#[global] Instance prog_ret : MRet prog := @Ret.
#[global] Instance prog_bind : MBind prog := λ A B f m, bind m f.

(** Running a program alone against the store, to completion. *)
Fixpoint run {A} (m : prog A) (d : Store.db) : A * Store.db :=
  match m with
  | Ret a => (a, d)
  | Call q k => let '(r, d') := Store.exec q d in run (k r) d'
  end.

(** The calls a program issues when run alone. *)
Fixpoint calls {A} (m : prog A) (d : Store.db) : list Store.request :=
  match m with
  | Ret _ => []
  | Call q k => let '(r, d') := Store.exec q d in q :: calls (k r) d'
  end.

(** [P] holds of every call the program can issue, whatever the replies. *)
Inductive every_call {A} (P : Store.request → Prop) : prog A → Prop :=
| every_ret a : every_call P (Ret a)
| every_step q k :
    P q → (∀ r, every_call P (k r)) → every_call P (Call q k).

(* ================================================================== *)
(** ** hostElection.ts and joinRoom.ts *)

Module HostElection.
Import Store.

Definition getCurrentHost (roomId : string) : prog (option string) :=
  r ← call (SelectRoom roomId);
  if error r then Ret None
  else Ret (or_null (row r ≫= owner)).

(** [`Room ${roomId.substring(0, 8)}`] *)
Definition default_room_name (roomId : string) : string :=
  "Room " +:+ String.substring 0 8 roomId.

(** [updated && updated.owner === userId] *)
Definition claimed (r : reply) (userId : string) : bool :=
  match row r with
  | Some u => bool_decide (owner u = Some userId)
  | None => false
  end.

Definition electHost (roomId userId : string) : prog bool :=
  current ← getCurrentHost roomId;
  match current with
  | Some current =>
      if bool_decide (current = userId) then Ret true
      else
        m ← call (SelectMember roomId current);
        let hostStillPresent := bool_decide (users m ≠ []) in
        if negb hostStillPresent then
          u ← call (UpdateRoom "owner" (Some userId) roomId
              (Some (Eq "owner" current)));
          if error u then Ret false
          else if claimed u userId then Ret true
          else Ret false
        else Ret false
  | None =>
      u ← call (UpdateRoom "owner" (Some userId) roomId (Some (IsNull "owner")));
      let recheck :=
        (final ← getCurrentHost roomId;
         Ret (bool_decide (final = Some userId))) in
      if error u then
        c ← call (InsertRoom roomId (default_room_name roomId) userId);
        if error c then recheck else Ret true
      else if claimed u userId then Ret true
      else
        roomRow ← call (SelectRoom roomId);
        match row roomRow with
        | None =>
            c ← call (InsertRoom roomId (default_room_name roomId) userId);
            if error c then recheck else Ret true
        | Some _ => recheck
        end
  end.

Definition transferHost (roomId fromUserId toUserId : string) : prog bool :=
  currentHost ← getCurrentHost roomId;
  if negb (bool_decide (currentHost = Some fromUserId)) then Ret false
  else
    m ← call (SelectMember roomId toUserId);
    if error m then Ret false
    else if bool_decide (users m = []) then Ret false
    else
      u ← call (UpdateRoom "owner" (Some toUserId) roomId
          (Some (Eq "owner" fromUserId)));
      if error u then Ret false
      else if claimed u toUserId then Ret true
      else Ret false.

(** [rows && rows.length ? rows[0].user_id : null], then [!candidate]. *)
Definition first_candidate (r : reply) : option string :=
  or_null (head (users r)).

(** The handler [listenForMemberLeaves] registers for DELETE events on
    [room_members]; [leftUser] is [payload.old.user_id]. Its writes name
    the column [host_id]. *)
Definition listenForMemberLeaves (roomId : string) (leftUser : option string)
  : prog unit :=
  currentHost ← getCurrentHost roomId;
  match currentHost with
  | None => Ret tt
  | Some currentHost =>
      if bool_decide (Some currentHost = leftUser) then
        rows ← call (SelectFirstMember roomId);
        if error rows then Ret tt
        else
          match first_candidate rows with
          | None =>
              call (UpdateRoom "host_id" None roomId None);;
              Ret tt
          | Some candidate =>
              call (UpdateRoom "host_id" (Some candidate) roomId
                  (Some (Eq "host_id" currentHost)));;
              Ret tt
          end
      else Ret tt
  end.

(** joinRoom.ts [leaveRoom]; [userId] is the result of [ensureAuth]. *)
Definition leaveRoom (roomId userId : string) : prog unit :=
  del ← call (DeleteMember roomId userId);
  if error del then Ret tt
  else
    roomData ← call (SelectRoom roomId);
    if error roomData then Ret tt
    else
      match row roomData with
      | None => Ret tt
      | Some roomData =>
          let currentHost := owner roomData in
          if negb (bool_decide (currentHost = Some userId)) then Ret tt
          else
            rows ← call (SelectFirstMember roomId);
            if error rows then Ret tt
            else
              match first_candidate rows with
              | None =>
                  call (UpdateRoom "owner" None roomId None);;
                  Ret tt
              | Some candidate =>
                  call (UpdateRoom "owner" (Some candidate) roomId
                      (Some (Eq "owner" userId)));;
                  Ret tt
              end
      end.

End HostElection.

(* ================================================================== *)
(** ** Two callers against one store *)

(** Two participants run one program each against the same store. Each
    store call is one atomic round trip; between two calls of one
    participant the other may run any number of its own. A schedule names,
    call by call, whose round trip the store serves next. *)
Module Sched.
Import Store.

Inductive pid := First | Second.

(** A write the store applied: who issued it, the call, and the owner the
    room had when the write was applied. *)
Record write := { writer : pid; issued : request; before : option string }.

Record sys (A B : Type) := {
  first : prog A;
  second : prog B;
  store : db;
  applied : list write
}.
Arguments first {A B} s.
Arguments second {A B} s.
Arguments store {A B} s.
Arguments applied {A B} s.

(** Did the store apply the write (a row matched, or the insert went in)? *)
Definition applies (q : request) (d : db) : bool :=
  match q with
  | UpdateRoom col v id cond =>
      known_cols col cond &&
      match rooms d !! id with Some r => passes cond r | None => false end
  | InsertRoom id _ _ => bool_decide (rooms d !! id = None)
  | _ => false
  end.

Definition target (q : request) : string :=
  match q with
  | UpdateRoom _ _ id _ | InsertRoom id _ _ | SelectRoom id => id
  | SelectMember room _ | SelectMembers room | SelectFirstMember room
  | DeleteMember room _ => room
  end.

Definition record (w : pid) (q : request) (d : db) : list write :=
  if applies q d
  then [ {| writer := w; issued := q; before := owner_of (target q) d |} ]
  else [].

Definition start {A B} (p : prog A) (q : prog B) (d : db) : sys A B :=
  {| first := p; second := q; store := d; applied := [] |}.

(** Serve the next call of [w]; [None] when [w] has already returned. *)
Definition serve {A B} (w : pid) (s : sys A B) : option (sys A B) :=
  match w with
  | First =>
      match first s with
      | Ret _ => None
      | Call q k =>
          let '(r, d') := exec q (store s) in
          Some {| first := k r; second := second s; store := d';
                  applied := applied s ++ record First q (store s) |}
      end
  | Second =>
      match second s with
      | Ret _ => None
      | Call q k =>
          let '(r, d') := exec q (store s) in
          Some {| first := first s; second := k r; store := d';
                  applied := applied s ++ record Second q (store s) |}
      end
  end.

Fixpoint interleave {A B} (sch : list pid) (s : sys A B) : option (sys A B) :=
  match sch with
  | [] => Some s
  | w :: sch' =>
      match serve w s with
      | Some s' => interleave sch' s'
      | None => None
      end
  end.

Definition returned {A} (p : prog A) : Prop :=
  match p with Ret _ => True | Call _ _ => False end.

Definition finished {A B} (s : sys A B) : Prop :=
  returned (first s) ∧ returned (second s).

End Sched.

(* ================================================================== *)
(** ** webrtc.ts: the peer connection manager *)

(** A JavaScript [Map<string, V>]: entries in insertion order; [set] on a
    present key replaces the value in place. *)
Module JsMap.
Section ops.
Context {V : Type}.

Fixpoint get (k : string) (m : list (string * V)) : option V :=
  match m with
  | [] => None
  | (k', v) :: m' => if decide (k = k') then Some v else get k m'
  end.

Fixpoint set (k : string) (v : V) (m : list (string * V)) : list (string * V) :=
  match m with
  | [] => [(k, v)]
  | (k', v') :: m' =>
      if decide (k = k') then (k, v) :: m' else (k', v') :: set k v m'
  end.

Fixpoint delete (k : string) (m : list (string * V)) : list (string * V) :=
  match m with
  | [] => []
  | (k', v') :: m' =>
      if decide (k = k') then delete k m' else (k', v') :: delete k m'
  end.
End ops.
End JsMap.

Module Webrtc.

Inductive ConnectionState :=
| idle | offering | answering | connecting | connected | failed | closed.

#[global] Instance ConnectionState_eq_dec : EqDecision ConnectionState.
Proof. solve_decision. Defined.

(** [RTCDataChannel.readyState] *)
Inductive readyState := rs_connecting | rs_open | rs_closing | rs_closed.

#[global] Instance readyState_eq_dec : EqDecision readyState.
Proof. solve_decision. Defined.

(** The ICE payload [{ candidate, sdpMLineIndex, sdpMid }]. *)
Record candidate := {
  cand_line : string;
  sdpMLineIndex : nat;
  sdpMid : string
}.

Record PeerConnection := {
  pc : option nat;            (* handle of the engine session, or null *)
  dc : option readyState;     (* the data channel (its readyState), or null *)
  state : ConnectionState;
  retryCount : nat;
  lastError : option string
}.

Inductive SignalType := offer | answer | ice | host_elected.

#[global] Instance SignalType_eq_dec : EqDecision SignalType.
Proof. solve_decision. Defined.

Inductive payload := Sdp (sdp : string) | Ice (c : candidate).

Record SignalMessage := {
  msg_from : string;
  msg_to : string;
  msg_type : SignalType;
  msg_data : payload
}.

(** An [RTCPeerConnection] of the transport engine, as far as the manager
    drives it. *)
Record RTCPeerConnection := {
  remoteDescription : option string;
  localDescription : option string;
  iceCandidates : list candidate;   (* accepted by addIceCandidate, in order *)
  pc_closed : bool
}.

(** The module-level variables of webrtc.ts, the sessions the engine has
    created (a handle is an index), the signals handed to the bus, and the
    invalid transitions [updatePeerState] has warned about. *)
Record manager := {
  myUserId : option string;
  isHost : bool;
  currentHostId : option string;
  autoConnectEnabled : bool;
  peerConnections : list (string * PeerConnection);
  pendingCandidates : gmap string (list candidate);
  sessions : list RTCPeerConnection;
  outbox : list SignalMessage;
  warnings : list (string * ConnectionState * ConnectionState)
}.

Definition with_peerConnections (f : list (string * PeerConnection) → list (string * PeerConnection))
    (m : manager) : manager :=
  {| myUserId := myUserId m; isHost := isHost m; currentHostId := currentHostId m;
     autoConnectEnabled := autoConnectEnabled m;
     peerConnections := f (peerConnections m);
     pendingCandidates := pendingCandidates m; sessions := sessions m;
     outbox := outbox m; warnings := warnings m |}.

Definition with_pendingCandidates (f : gmap string (list candidate) → gmap string (list candidate))
    (m : manager) : manager :=
  {| myUserId := myUserId m; isHost := isHost m; currentHostId := currentHostId m;
     autoConnectEnabled := autoConnectEnabled m;
     peerConnections := peerConnections m;
     pendingCandidates := f (pendingCandidates m); sessions := sessions m;
     outbox := outbox m; warnings := warnings m |}.

Definition with_sessions (f : list RTCPeerConnection → list RTCPeerConnection)
    (m : manager) : manager :=
  {| myUserId := myUserId m; isHost := isHost m; currentHostId := currentHostId m;
     autoConnectEnabled := autoConnectEnabled m;
     peerConnections := peerConnections m;
     pendingCandidates := pendingCandidates m; sessions := f (sessions m);
     outbox := outbox m; warnings := warnings m |}.

Definition with_outbox (f : list SignalMessage → list SignalMessage)
    (m : manager) : manager :=
  {| myUserId := myUserId m; isHost := isHost m; currentHostId := currentHostId m;
     autoConnectEnabled := autoConnectEnabled m;
     peerConnections := peerConnections m;
     pendingCandidates := pendingCandidates m; sessions := sessions m;
     outbox := f (outbox m); warnings := warnings m |}.

Definition with_warnings
    (f : list (string * ConnectionState * ConnectionState) →
         list (string * ConnectionState * ConnectionState))
    (m : manager) : manager :=
  {| myUserId := myUserId m; isHost := isHost m; currentHostId := currentHostId m;
     autoConnectEnabled := autoConnectEnabled m;
     peerConnections := peerConnections m;
     pendingCandidates := pendingCandidates m; sessions := sessions m;
     outbox := outbox m; warnings := f (warnings m) |}.

(** What the transport engine and the bus answer during one handler:
    [Some msg] means the call throws an error with that message. *)
Record engine := {
  fresh_signalingState_closed : bool;
  createOffer : option string;
  createAnswer : option string;
  setLocalDescription : option string;
  setRemoteDescription : option string;
  addIceCandidate : candidate → option string;
  bus_send : option string;
  waitForConnection : option string;
  dc_send : string → option string;
  local_sdp : string
}.

(** Handlers mutate the manager and may throw: [inl msg] is a thrown
    error; the mutations made before the throw stay. *)
Definition M (A : Type) : Type := manager → (string + A) * manager.

#[global] Instance M_ret : MRet M := λ A a m, (inr a, m).
#[global] Instance M_bind : MBind M := λ A B f c m,
  match c m with
  | (inr a, m') => f a m'
  | (inl e, m') => (inl e, m')
  end.

Definition throw {A} (msg : string) : M A := λ m, (inl msg, m).
Definition try_catch {A} (c : M A) (h : string → M A) : M A := λ m,
  match c m with
  | (inl e, m') => h e m'
  | r => r
  end.
Definition gets {A} (f : manager → A) : M A := λ m, (inr (f m), m).
Definition modify (f : manager → manager) : M unit := λ m, (inr tt, f m).
(** An engine or bus call that only succeeds or throws. *)
Definition attempt (o : option string) : M unit :=
  match o with Some msg => throw msg | None => mret tt end.

(** The table inside [updatePeerState]. *)
Definition validTransitions (s : ConnectionState) : list ConnectionState :=
  match s with
  | idle => [offering; answering; closed]
  | offering => [connecting; failed; closed]
  | answering => [connecting; failed; closed]
  | connecting => [connected; failed; closed]
  | connected => [failed; closed]
  | failed => [connecting; closed]
  | closed => []
  end.

(** [conn?.state || 'idle'] *)
Definition state_or_idle (c : option PeerConnection) : ConnectionState :=
  match c with Some conn => state conn | None => idle end.

Definition updatePeerState (peerId : string) (newState : ConnectionState)
    (error : option string) (m : manager) : manager :=
  let conn := JsMap.get peerId (peerConnections m) in
  let oldState := state_or_idle conn in
  let m :=
    if bool_decide (newState ∈ validTransitions oldState) then m
    else with_warnings (λ w, w ++ [(peerId, oldState, newState)]) m in
  match conn with
  | Some conn =>
      with_peerConnections
        (JsMap.set peerId
           {| pc := pc conn; dc := dc conn; state := newState;
              retryCount := if decide (newState = connected) then 0 else retryCount conn;
              lastError := match or_null error with
                           | Some e => Some e
                           | None => lastError conn
                           end |}) m
  | None =>
      if decide (newState = closed) then m
      else
        with_peerConnections
          (JsMap.set peerId
             {| pc := None; dc := None; state := newState;
                retryCount := 0; lastError := or_null error |}) m
  end.

Definition getPeerState (peerId : string) (m : manager) : option ConnectionState :=
  state <$> JsMap.get peerId (peerConnections m).

Definition getConnectedPeers (m : manager) : list string :=
  (filter (λ kv, state kv.2 = connected) (peerConnections m)).*1.

Definition new_session : RTCPeerConnection :=
  {| remoteDescription := None; localDescription := None;
     iceCandidates := []; pc_closed := false |}.

(** [createPeerConnection]: a new engine session with its callbacks; the
    last statement is [pendingCandidates.set(peerId, [])]. The handle of
    the new session is returned. *)
Definition createPeerConnection (peerId : string) (isInitiator : bool) : M nat := λ m,
  let h := length (sessions m) in
  (inr h,
   with_pendingCandidates (<[peerId := []]>)
     (with_sessions (λ ss, ss ++ [new_session]) m)).

(** signaling.ts [sendSignal], as the manager uses it: a signal to oneself
    is dropped with a warning, any other is handed to the bus. Both modules
    hold the id [ensureAuth] returned. *)
Definition sendSignal (e : engine) (to_ : string) (ty : SignalType) (d : payload) : M unit := λ m,
  match or_null (myUserId m) with
  | None => (inl "not authenticated", m)
  | Some me =>
      if decide (to_ = me) then (inr tt, m)
      else
        match bus_send e with
        | Some msg => (inl msg, m)
        | None =>
            (inr tt,
             with_outbox (λ o, o ++ [ {| msg_from := me; msg_to := to_;
                                         msg_type := ty; msg_data := d |} ]) m)
        end
  end.

(** [pc.addIceCandidate(c)] on a session handle; a null [pc] throws. *)
Definition add_candidate (e : engine) (h : option nat) (c : candidate) : M unit :=
  match h with
  | None => throw "TypeError"
  | Some h =>
      attempt (addIceCandidate e c);;
      modify (with_sessions
                (alter (λ s, {| remoteDescription := remoteDescription s;
                                localDescription := localDescription s;
                                iceCandidates := iceCandidates s ++ [c];
                                pc_closed := pc_closed s |}) h))
  end.

(** [for (const cand of pend) { try { await pc.addIceCandidate(..) } catch {..} }] *)
Fixpoint flush (e : engine) (h : option nat) (pend : list candidate) : M unit :=
  match pend with
  | [] => mret tt
  | c :: rest =>
      try_catch (add_candidate e h c) (λ _, mret tt);;
      flush e h rest
  end.

Definition pending_of (peerId : string) (m : manager) : list candidate :=
  default [] (pendingCandidates m !! peerId).

Definition set_remote (h : option nat) (sdp : string) : M unit :=
  match h with
  | None => throw "TypeError"
  | Some h =>
      modify (with_sessions
                (alter (λ s, {| remoteDescription := Some sdp;
                                localDescription := localDescription s;
                                iceCandidates := iceCandidates s;
                                pc_closed := pc_closed s |}) h))
  end.

Definition set_local (h : nat) (sdp : string) : M unit :=
  modify (with_sessions
            (alter (λ s, {| remoteDescription := remoteDescription s;
                            localDescription := Some sdp;
                            iceCandidates := iceCandidates s;
                            pc_closed := pc_closed s |}) h)).

Definition sdp_of (d : payload) : string :=
  match d with Sdp s => s | Ice c => cand_line c end.

(** [existing && existing.state === 'connected' && existing.dc &&
     existing.dc.readyState === 'open'] *)
Definition established (c : option PeerConnection) : bool :=
  match c with
  | Some conn => bool_decide (state conn = connected) &&
                 bool_decide (dc conn = Some rs_open)
  | None => false
  end.

Definition in_state (s : ConnectionState) (c : option PeerConnection) : bool :=
  match c with
  | Some conn => bool_decide (state conn = s)
  | None => false
  end.

Definition initialized (m : manager) : bool :=
  match myUserId m with Some u => truthy u | None => false end.

Definition connectToPeer (e : engine) (peerId : string) (waitForEstablished : bool)
  : M unit :=
  ready ← gets initialized;
  if negb ready then throw "not initialized" else
  host ← gets isHost;
  if negb host then throw "Permission denied: only host can connect to peers" else
  existing ← gets (λ m, JsMap.get peerId (peerConnections m));
  if established existing then mret tt
  else if in_state connecting existing then
    (if waitForEstablished then attempt (waitForConnection e) else mret tt)
  else
    modify (updatePeerState peerId offering None);;
    h ← createPeerConnection peerId true;
    if fresh_signalingState_closed e then
      let err := "PC created with signalingState='closed' for " +:+ peerId in
      modify (updatePeerState peerId failed (Some err));;
      throw err
    else
      modify (with_peerConnections
                (JsMap.set peerId
                   {| pc := Some h; dc := Some rs_connecting; state := offering;
                      retryCount := 0; lastError := None |}));;
      try_catch
        (attempt (createOffer e);;
         attempt (setLocalDescription e);;
         set_local h (local_sdp e);;
         modify (updatePeerState peerId connecting None);;
         sendSignal e peerId offer (Sdp (local_sdp e));;
         if waitForEstablished then attempt (waitForConnection e) else mret tt)
        (λ msg,
           modify (updatePeerState peerId failed
                     (Some ("Failed to create offer: " +:+ msg)));;
           throw msg).

Definition cand_of (d : payload) : candidate :=
  match d with
  | Ice c => c
  | Sdp s => {| cand_line := s; sdpMLineIndex := 0; sdpMid := "" |}
  end.

Definition handleOffer (e : engine) (from_ : string) (offer_ : payload) : M unit :=
  existing ← gets (λ m, JsMap.get from_ (peerConnections m));
  if in_state connected existing || in_state connecting existing then mret tt
  else
    modify (updatePeerState from_ answering None);;
    h ← createPeerConnection from_ false;
    modify (with_peerConnections
              (JsMap.set from_
                 {| pc := Some h; dc := None; state := answering;
                    retryCount := 0; lastError := None |}));;
    try_catch
      (attempt (setRemoteDescription e);;
       set_remote (Some h) (sdp_of offer_);;
       attempt (createAnswer e);;
       attempt (setLocalDescription e);;
       set_local h (local_sdp e);;
       modify (updatePeerState from_ connecting None);;
       sendSignal e from_ answer (Sdp (local_sdp e));;
       pend ← gets (pending_of from_);
       flush e (Some h) pend;;
       modify (with_pendingCandidates (<[from_ := []]>)))
      (λ msg,
         modify (updatePeerState from_ failed
                   (Some ("Failed to handle offer: " +:+ msg)));;
         throw msg).

Definition handleAnswer (e : engine) (from_ : string) (answer_ : payload) : M unit :=
  conn ← gets (λ m, JsMap.get from_ (peerConnections m));
  match conn with
  | None => mret tt
  | Some conn =>
      try_catch
        (attempt (match pc conn with None => Some "TypeError" | Some _ => None end);;
         attempt (setRemoteDescription e);;
         set_remote (pc conn) (sdp_of answer_);;
         modify (updatePeerState from_ connecting None);;
         pend ← gets (pending_of from_);
         flush e (pc conn) pend;;
         modify (with_pendingCandidates (<[from_ := []]>)))
        (λ msg,
           modify (updatePeerState from_ failed
                     (Some ("Failed to handle answer: " +:+ msg)));;
           throw msg)
  end.

Definition handleRemoteIce (e : engine) (from_ : string) (cand : candidate) : M unit :=
  conn ← gets (λ m, JsMap.get from_ (peerConnections m));
  match conn with
  | None =>
      arr ← gets (pending_of from_);
      modify (with_pendingCandidates (<[from_ := arr ++ [cand]]>))
  | Some conn =>
      try_catch (add_candidate e (pc conn) cand) (λ _, mret tt)
  end.

(** The listener [initWebRTC] registers with [onSignal]. *)
Definition onSignal (e : engine) (msg : SignalMessage) : M unit :=
  me ← gets (λ m, or_null (myUserId m));
  match me with
  | None => mret tt
  | Some me =>
      if negb (bool_decide (msg_to msg = me)) then mret tt
      else if bool_decide (msg_from msg = me) then mret tt
      else
        host ← gets isHost;
        current ← gets currentHostId;
        if bool_decide (msg_type msg = offer) && negb host &&
           negb (bool_decide (Some (msg_from msg) = current))
        then mret tt
        else
          try_catch
            match msg_type msg with
            | offer => handleOffer e (msg_from msg) (msg_data msg)
            | answer => handleAnswer e (msg_from msg) (msg_data msg)
            | ice => handleRemoteIce e (msg_from msg) (cand_of (msg_data msg))
            | host_elected => mret tt
            end
            (λ _, mret tt)
  end.

(** [conn.dc && conn.dc.readyState === 'open' && conn.state === 'connected'] *)
Definition deliverable (conn : PeerConnection) : bool :=
  bool_decide (dc conn = Some rs_open) && bool_decide (state conn = connected).

(** What [broadcast] logs before it returns: the count [sent], the
    collected [errors], and (for the record) the peers whose channel
    [send] was called. *)
Record report := {
  sent : nat;
  errors : list string;
  attempted : list string
}.

Fixpoint broadcast_loop (e : engine) (entries : list (string * PeerConnection))
    (r : report) : report :=
  match entries with
  | [] => r
  | (peerId, conn) :: rest =>
      broadcast_loop e rest
        (if deliverable conn then
           match dc_send e peerId with
           | None => {| sent := S (sent r); errors := errors r;
                        attempted := attempted r ++ [peerId] |}
           | Some err => {| sent := sent r;
                            errors := errors r ++ [peerId +:+ ": " +:+ err];
                            attempted := attempted r ++ [peerId] |}
           end
         else r)
  end.

Definition broadcast (e : engine) (m : manager) : report :=
  broadcast_loop e (peerConnections m) {| sent := 0; errors := []; attempted := [] |}.

Definition close_session (h : option nat) : manager → manager :=
  match h with
  | Some h =>
      with_sessions
        (alter (λ s, {| remoteDescription := remoteDescription s;
                        localDescription := localDescription s;
                        iceCandidates := iceCandidates s;
                        pc_closed := true |}) h)
  | None => id
  end.

Definition closePeer (peerId : string) (m : manager) : manager :=
  let m :=
    match JsMap.get peerId (peerConnections m) with
    | Some conn => updatePeerState peerId closed None (close_session (pc conn) m)
    | None => m
    end in
  with_pendingCandidates (delete peerId)
    (with_peerConnections (JsMap.delete peerId) m).

(** [cleanup]: close every peer, then drop the room-members channel. *)
Definition cleanup (m : manager) : manager :=
  foldl (λ m peerId, closePeer peerId m) m (peerConnections m).*1.

(** [pc.iceConnectionState] *)
Inductive iceState :=
| ice_new | ice_checking | ice_connected | ice_completed
| ice_failed | ice_disconnected | ice_closed.

Definition iceState_name (s : iceState) : string :=
  match s with
  | ice_new => "new" | ice_checking => "checking" | ice_connected => "connected"
  | ice_completed => "completed" | ice_failed => "failed"
  | ice_disconnected => "disconnected" | ice_closed => "closed"
  end.

(** [pc.oniceconnectionstatechange]; the result tells whether the one
    second retry timer was armed. *)
Definition oniceconnectionstatechange (peerId : string) (st : iceState)
    (m : manager) : bool * manager :=
  match JsMap.get peerId (peerConnections m) with
  | None => (false, m)
  | Some conn =>
      match st with
      | ice_failed | ice_disconnected =>
          if bool_decide (retryCount conn < 1) then
            (isHost m,
             with_peerConnections
               (JsMap.set peerId
                  {| pc := pc conn; dc := dc conn; state := state conn;
                     retryCount := S (retryCount conn);
                     lastError := lastError conn |}) m)
          else
            (false,
             updatePeerState peerId failed
               (Some ("ICE connection " +:+ iceState_name st)) m)
      | ice_connected | ice_completed =>
          (false, updatePeerState peerId connected None m)
      | _ => (false, m)
      end
  end.

(** The body of the retry timer. *)
Definition retry (e : engine) (peerId : string) : M unit :=
  conn ← gets (λ m, JsMap.get peerId (peerConnections m));
  match conn with
  | Some _ => try_catch (connectToPeer e peerId false) (λ _, mret tt)
  | None => mret tt
  end.

(** Data channel callbacks installed by [setupDataChannel]; the engine
    has moved the channel the entry holds to the new [readyState]. *)
Definition set_dc (peerId : string) (rs : readyState) (m : manager) : manager :=
  match JsMap.get peerId (peerConnections m) with
  | Some conn =>
      with_peerConnections
        (JsMap.set peerId
           {| pc := pc conn; dc := (λ _, rs) <$> dc conn; state := state conn;
              retryCount := retryCount conn; lastError := lastError conn |}) m
  | None => m
  end.

Definition dc_onclose (peerId : string) (m : manager) : manager :=
  updatePeerState peerId closed None (set_dc peerId rs_closed m).
Definition dc_onerror (peerId : string) (m : manager) : manager :=
  updatePeerState peerId failed (Some "DataChannel error") m.


(** The manager right after [initWebRTC]. *)
Definition init (me : string) (host : bool) (current : option string)
    (autoConnect : bool) : manager :=
  {| myUserId := Some me; isHost := host; currentHostId := current;
     autoConnectEnabled := autoConnect; peerConnections := [];
     pendingCandidates := ∅; sessions := []; outbox := []; warnings := [] |}.

(** The state a peer is in: [conn?.state || 'idle']. *)
Definition peer_state (peerId : string) (m : manager) : ConnectionState :=
  state_or_idle (JsMap.get peerId (peerConnections m)).

(** The offers handed to the bus for a peer. *)
Definition offers_to (peerId : string) (m : manager) : list SignalMessage :=
  filter (λ s, msg_to s = peerId ∧ msg_type s = offer) (outbox m).

(** The candidates the engine accepted on the session an entry holds. *)
Definition applied_candidates (peerId : string) (m : manager) : list candidate :=
  match JsMap.get peerId (peerConnections m) ≫= pc with
  | Some h => default [] (iceCandidates <$> sessions m !! h)
  | None => []
  end.

End Webrtc.

(* ================================================================== *)
(** ** presence.ts *)

Module Presence.
Import Store.

(** What a participant tracks on the presence channel. *)
Record meta := { user_id : string; role : string }.

(** [channel.presenceState()]: presence key to its array of metas. *)
Definition presenceState : Type := list (string * list meta).

(** The module-level variables [channel], [tracked], [currentRoomId];
    [channel] holds the room of the topic it was opened for. *)
Record vars := {
  channel : option string;
  tracked : bool;
  currentRoomId : option string
}.

(** The set built by the loop over [Object.keys(state)]: the [user_id]
    of the first meta of every key that has one. *)
Definition presentUserIds (st : presenceState) : gset string :=
  foldr (λ entry acc,
           match entry.2 with
           | m :: _ => if truthy (user_id m) then {[ user_id m ]} ∪ acc else acc
           | [] => acc
           end) ∅ st.

Fixpoint delete_stale (roomId : string) (toRemove : list string) : prog unit :=
  match toRemove with
  | [] => Ret tt
  | uid :: rest => call (DeleteMember roomId uid);; delete_stale roomId rest
  end.

(** The reconciliation at the end of [joinPresence], after the two second
    settling delay; [st] is the presence view read then. *)
Definition reconcile (st : presenceState) (roomId userId : string) : prog unit :=
  let present := presentUserIds st in
  if bool_decide (size present = 0) && bool_decide (length st = 0) then Ret tt
  else
    members ← call (SelectMembers roomId);
    if negb (error members) then
      let toRemove :=
        filter (λ u, (u ∉ present) ∧ (u ≠ userId)) (users members) in
      if bool_decide (0 < length toRemove) && bool_decide (0 < size present)
      then delete_stale roomId toRemove
      else Ret tt
    else Ret tt.

(** The rows the reconciliation asks the store to delete. *)
Definition deletions (st : presenceState) (roomId userId : string) (d : db)
  : list (string * string) :=
  omap (λ q, match q with
             | DeleteMember r u => Some (r, u)
             | _ => None
             end) (calls (reconcile st roomId userId) d).

End Presence.

(* ================================================================== *)
(** ** joinRoom.ts: leaving a room *)

Module Session.
Import Store.

(** What a teardown does, in the order it does it. *)
Inductive event :=
| PresenceUntracked
| PresenceUnsubscribed
| StoreCall (q : request)
| BusPrivateUnsubscribed
| BusRoomUnsubscribed
| PeerClosed (peerId : string)
| RoomMembersUnsubscribed.

#[global] Instance guard_eq_dec : EqDecision guard.
Proof. solve_decision. Defined.
#[global] Instance request_eq_dec : EqDecision request.
Proof. solve_decision. Defined.
#[global] Instance event_eq_dec : EqDecision event.
Proof. solve_decision. Defined.

(** The process: the store it talks to, the module-level variables of
    presence.ts, signaling.ts and webrtc.ts, and the trace so far. *)
Record world := {
  database : db;
  presence : Presence.vars;
  bus_room : bool;               (* signaling.ts [channel] is set *)
  bus_private : bool;            (* signaling.ts [privateChannel] is set *)
  webrtc : Webrtc.manager;
  roomMembersChannel : bool;
  trace : list event
}.

(** joinRoom.ts [leaveRoom], run against the store; every call is traced. *)
Definition leaveRoom (roomId userId : string) (w : world) : world :=
  let p := HostElection.leaveRoom roomId userId in
  {| database := (run p (database w)).2;
     presence := presence w; bus_room := bus_room w; bus_private := bus_private w;
     webrtc := webrtc w; roomMembersChannel := roomMembersChannel w;
     trace := trace w ++ (StoreCall <$> calls p (database w)) |}.

Definition log (evs : list event) (w : world) : world :=
  {| database := database w; presence := presence w; bus_room := bus_room w;
     bus_private := bus_private w; webrtc := webrtc w;
     roomMembersChannel := roomMembersChannel w; trace := trace w ++ evs |}.

Definition set_presence (v : Presence.vars) (w : world) : world :=
  {| database := database w; presence := v; bus_room := bus_room w;
     bus_private := bus_private w; webrtc := webrtc w;
     roomMembersChannel := roomMembersChannel w; trace := trace w |}.

(** presence.ts [leavePresence]; [userId] is what [ensureAuth] returns
    inside [leaveRoom]. *)
Definition leavePresence (userId : string) (w : world) : world :=
  match Presence.channel (presence w) with
  | None => w
  | Some topic =>
      let w := if Presence.tracked (presence w)
               then log [PresenceUntracked] w else w in
      let w := match or_null (Presence.currentRoomId (presence w)) with
               | Some r => leaveRoom r userId w
               | None => w
               end in
      set_presence
        {| Presence.channel := None; Presence.tracked := false;
           Presence.currentRoomId :=
             match or_null (Presence.currentRoomId (presence w)) with
             | Some _ => None
             | None => Presence.currentRoomId (presence w)
             end |}
        (log [PresenceUnsubscribed] w)
  end.

(** signaling.ts [closeSignaling] *)
Definition closeSignaling (w : world) : world :=
  let evs := (if bus_private w then [BusPrivateUnsubscribed] else []) ++
             (if bus_room w then [BusRoomUnsubscribed] else []) in
  {| database := database w; presence := presence w; bus_room := false;
     bus_private := false; webrtc := webrtc w;
     roomMembersChannel := roomMembersChannel w; trace := trace w ++ evs |}.

(** webrtc.ts [cleanup] *)
Definition cleanup (w : world) : world :=
  let peers := (Webrtc.peerConnections (webrtc w)).*1 in
  {| database := database w; presence := presence w; bus_room := bus_room w;
     bus_private := bus_private w; webrtc := Webrtc.cleanup (webrtc w);
     roomMembersChannel := false;
     trace := trace w ++ (PeerClosed <$> peers) ++
              (if roomMembersChannel w then [RoomMembersUnsubscribed] else []) |}.

Definition disconnectFromRoom (roomId userId : string) (w : world) : world :=
  leaveRoom roomId userId (cleanup (closeSignaling (leavePresence userId w))).

End Session.

(* ================================================================== *)
(** * Statements *)

(** The terms the properties below are stated with, and the concrete
    rooms, managers and engines they are tried on. *)

Section single_host.
Import Store HostElection Sched.

(** Exactly one write was applied: the null-claim of [u], issued by [w],
    on a room that had no owner; [u] is the recorded owner. *)
Definition sole_winner (roomId : string) (w : pid) (u : string)
    (s : sys bool bool) : Prop :=
  owner_of roomId (store s) = Some u ∧
  applied s =
    [ {| writer := w;
         issued := UpdateRoom "owner" (Some u) roomId (Some (IsNull "owner"));
         before := None |} ].

(** One caller got [true] and is the owner, the other got [false] and
    none of its writes was applied. *)
Definition single_host (roomId a b : string) (s : sys bool bool) : Prop :=
  (first s = Ret true ∧ second s = Ret false ∧ sole_winner roomId First a s) ∨
  (first s = Ret false ∧ second s = Ret true ∧ sole_winner roomId Second b s).

(** Both calls of [electHost] started on store [d]; however the store
    serves their round trips, the outcome is [single_host]. *)
Definition electHost_exclusive (d : db) (roomId a b : string) : Prop :=
  ∀ sch s,
    interleave sch (start (electHost roomId a) (electHost roomId b) d) = Some s →
    finished s → single_host roomId a b s.

(** A room without owner and without membership rows. *)
Definition lobby : db :=
  {| rooms := {[ "r" := {| room_name := "R"; owner := None |} ]};
     room_members := ∅ |}.

(** The same room with both candidates joined. *)
Definition lobby_joined : db :=
  {| rooms := {[ "r" := {| room_name := "R"; owner := None |} ]};
     room_members := {[ ("r", "a"); ("r", "b") ]} |}.

End single_host.

Section member_leaves_terms.
Import Store HostElection.

(** The host "h" has left room "r"; "m" and "z" remain. *)
Definition host_gone : db :=
  {| rooms := {[ "r" := {| room_name := "R"; owner := Some "h" |} ]};
     room_members := {[ ("r", "z"); ("r", "m") ]} |}.

End member_leaves_terms.

Section owner_writes_terms.
Import Store HostElection.

(** An update of [owner] that carries a filter on [owner]: it is applied
    only to a row whose owner is still the expected one. Calls that do
    not update a row of [rooms] pass. *)
Definition keyed_on_prior (q : request) : Prop :=
  match q with
  | UpdateRoom col _ _ cond =>
      col = "owner" → ∃ g, cond = Some g ∧ guard_col g = "owner"
  | _ => True
  end.

Definition owner_writes_conditional {A} (p : prog A) : Prop :=
  every_call keyed_on_prior p.

(** [P] holds of every call the program can issue, given the calls
    issued before it and the replies they got, the latest first. *)
Inductive every_call_after {A} (P : list (request * reply) → request → Prop)
  : list (request * reply) → prog A → Prop :=
| after_ret h a : every_call_after P h (Ret a)
| after_step h q k :
    P h q → (∀ r, every_call_after P ((q, r) :: h) (k r)) →
    every_call_after P h (Call q k).

(** The reply to the latest read of the room's row, and to the latest
    query for the first remaining member. *)
Fixpoint last_read (roomId : string) (h : list (request * reply)) : option reply :=
  match h with
  | [] => None
  | (SelectRoom id, r) :: h' =>
      if decide (id = roomId) then Some r else last_read roomId h'
  | _ :: h' => last_read roomId h'
  end.

Fixpoint last_candidate (roomId : string) (h : list (request * reply))
  : option reply :=
  match h with
  | [] => None
  | (SelectFirstMember id, r) :: h' =>
      if decide (id = roomId) then Some r else last_candidate roomId h'
  | _ :: h' => last_candidate roomId h'
  end.

(** The filter is on the owner the read [r] showed: [owner is null] after
    a read that showed no host (or failed), [owner = v] after a read that
    showed [v]. *)
Definition expects (r : reply) (g : guard) : Prop :=
  match g with
  | IsNull col =>
      col = "owner" ∧ (if error r then None else or_null (row r ≫= owner)) = None
  | Eq col v => col = "owner" ∧ error r = false ∧ row r ≫= owner = Some v
  end.

(** An update is one of [owner], on the room, with a filter on the owner
    last read for that room. Calls that update no row of [rooms] pass. *)
Definition keyed_on_read (roomId : string) (h : list (request * reply))
    (q : request) : Prop :=
  match q with
  | UpdateRoom col _ id cond =>
      col = "owner" ∧ id = roomId ∧
      ∃ g r, cond = Some g ∧ last_read roomId h = Some r ∧ expects r g
  | _ => True
  end.

(** The clearing write of [leaveRoom]: no filter besides the room id,
    issued after the read showed the leaver as owner and the member query
    gave no candidate. *)
Definition clears_when_alone (roomId userId : string)
    (h : list (request * reply)) (q : request) : Prop :=
  q = UpdateRoom "owner" None roomId None ∧
  (∃ r, last_read roomId h = Some r ∧ row r ≫= owner = Some userId) ∧
  (∃ c, last_candidate roomId h = Some c ∧ first_candidate c = None).

(** The writes of the member-leave listener: on [host_id], the promoting
    one filtered on [host_id] being the owner read, the clearing one
    without filter. *)
Definition names_host_id (roomId : string) (h : list (request * reply))
    (q : request) : Prop :=
  match q with
  | UpdateRoom col v id cond =>
      col = "host_id" ∧ id = roomId ∧
      ((v = None ∧ cond = None) ∨
       ∃ c r, cond = Some (Eq "host_id" c) ∧ last_read roomId h = Some r ∧
              row r ≫= owner = Some c)
  | _ => True
  end.

(** The last member, who is the host, leaves. *)
Definition last_member : db :=
  {| rooms := {[ "r" := {| room_name := "R"; owner := Some "u" |} ]};
     room_members := {[ ("r", "u") ]} |}.

End owner_writes_terms.

Section fixtures.
Import Webrtc.

(** An engine and a bus that never fail. *)
Definition engine_ok : engine :=
  {| fresh_signalingState_closed := false; createOffer := None;
     createAnswer := None; setLocalDescription := None;
     setRemoteDescription := None; addIceCandidate := λ _, None;
     bus_send := None; waitForConnection := None; dc_send := λ _, None;
     local_sdp := "v=0" |}.

(** The same, with the bus refusing the send. *)
Definition bus_down : engine :=
  {| fresh_signalingState_closed := false; createOffer := None;
     createAnswer := None; setLocalDescription := None;
     setRemoteDescription := None; addIceCandidate := λ _, None;
     bus_send := Some "send failed"; waitForConnection := None;
     dc_send := λ _, None; local_sdp := "v=0" |}.

Definition host_me : manager := init "me" true (Some "me") false.

(** A participant that is not host and has recorded "h" as host. *)
Definition client_me : manager := init "me" false (Some "h") false.

Definition host_candidate : candidate :=
  {| cand_line := "candidate:1 1 udp 2122260223 10.0.0.2 50000 typ host";
     sdpMLineIndex := 0; sdpMid := "0" |}.

(** An entry in state [connected] whose channel has the given
    [readyState]. *)
Definition linked (rs : readyState) : PeerConnection :=
  {| pc := Some 0; dc := Some rs; state := connected;
     retryCount := 0; lastError := None |}.

End fixtures.

Section state_machine_terms.
Import Webrtc.



End state_machine_terms.

Section candidate_buffer_terms.
Import Webrtc.

(** Candidates [cs] arrive one by one. *)
Definition receive_all (e : engine) (from_ : string) (cs : list candidate)
    (m : manager) : manager :=
  foldl (λ m c, (handleRemoteIce e from_ c m).2) m cs.

(** Nothing was applied on the session the entry of [p] holds, and
    nothing is queued for [p]. *)
Definition untouched (p : string) (m : manager) : Prop :=
  applied_candidates p m = [] ∧ pending_of p m = [].

Definition keeps (p : string) {A} (c : M A) : Prop :=
  ∀ m, untouched p m → untouched p (c m).2.

End candidate_buffer_terms.

Section idempotent_dial_terms.
Import Webrtc.

(** The offer [connectToPeer] hands to the bus. *)
Definition offer_for (e : engine) (me peerId : string) : SignalMessage :=
  {| msg_from := me; msg_to := peerId; msg_type := offer;
     msg_data := Sdp (local_sdp e) |}.

(** An engine whose calls on the dialling path all succeed. *)
Definition dial_succeeds (e : engine) : Prop :=
  fresh_signalingState_closed e = false ∧ createOffer e = None ∧
  setLocalDescription e = None ∧ bus_send e = None.

End idempotent_dial_terms.

Section broadcast_report_terms.
Import Webrtc.

(** Three connected peers; the channel of "c" is closed. *)
Definition three_peers : manager :=
  with_peerConnections
    (λ _, [ ("a", linked rs_open); ("b", linked rs_open); ("c", linked rs_closed) ])
    host_me.

Definition failure_text (e : engine) (peerId : string) : option string :=
  (λ err, peerId +:+ ": " +:+ err) <$> dc_send e peerId.

End broadcast_report_terms.

Section reconciliation_terms.
Import Store Presence.

(** Two stale rows, and a presence view that has not synced yet. *)
Definition stale_rows : db :=
  {| rooms := {[ "r" := {| room_name := "R"; owner := Some "h" |} ]};
     room_members := {[ ("r", "h"); ("r", "gone"); ("r", "me") ]} |}.

End reconciliation_terms.

Section teardown_terms.
Import Store Session.

(** [x] occurs in the trace before [y]. *)
Definition precedes (x y : event) (t : list event) : Prop :=
  ∃ i j, t !! i = Some x ∧ t !! j = Some y ∧ i < j.

(** The order C9 words: the caller's membership row is not deleted
    before a subscription of the signal bus is closed. *)
Definition row_outlives_bus (roomId userId : string) (t : list event) : Prop :=
  ¬ precedes (StoreCall (DeleteMember roomId userId)) BusPrivateUnsubscribed t ∧
  ¬ precedes (StoreCall (DeleteMember roomId userId)) BusRoomUnsubscribed t.

(** A client "me" of room "r", hosted by "h", with presence joined, the
    bus attached and a link to "h". *)
Definition joined : world :=
  {| database :=
       {| rooms := {[ "r" := {| room_name := "R"; owner := Some "h" |} ]};
          room_members := {[ ("r", "h"); ("r", "me") ]} |};
     presence := {| Presence.channel := Some "r"; Presence.tracked := true;
                    Presence.currentRoomId := Some "r" |};
     bus_room := true; bus_private := true;
     webrtc := Webrtc.with_peerConnections (λ _, [ ("h", linked Webrtc.rs_open) ])
                 client_me;
     roomMembersChannel := true;
     trace := [] |}.

(** What the three later steps of [disconnectFromRoom] add to the trace. *)
Definition bus_part (w : world) : list event :=
  (if bus_private w then [BusPrivateUnsubscribed] else []) ++
  (if bus_room w then [BusRoomUnsubscribed] else []).

Definition peers_part (w : world) : list event :=
  (PeerClosed <$> (Webrtc.peerConnections (webrtc w)).*1) ++
  (if roomMembersChannel w then [RoomMembersUnsubscribed] else []).

(** What [leavePresence] adds to the trace: nothing without a channel;
    otherwise the untrack when tracked, the calls of
    [leaveRoom(currentRoomId)] when a current room is set, and the
    unsubscribe. *)
Definition presence_part (userId : string) (w : world) : list event :=
  match Presence.channel (presence w) with
  | None => []
  | Some _ =>
      (if Presence.tracked (presence w) then [PresenceUntracked] else []) ++
      match or_null (Presence.currentRoomId (presence w)) with
      | Some r =>
          StoreCall <$> calls (HostElection.leaveRoom r userId) (database w)
      | None => []
      end ++
      [PresenceUnsubscribed]
  end.

(** [leavePresence] deletes the membership row of [roomId]: a presence
    channel is attached and its current room is [roomId]. *)
Definition presence_leaves (roomId : string) (w : world) : Prop :=
  is_Some (Presence.channel (presence w)) ∧
  or_null (Presence.currentRoomId (presence w)) = Some roomId.

(** A subscription of the signal bus is open. *)
Definition bus_open (w : world) : Prop :=
  bus_private w = true ∨ bus_room w = true.

End teardown_terms.

(* ================================================================== *)
(** * Further code: definitions *)

(** ** hostElection.ts [amIHost], [computeHostFromPresence]; joinRoom.ts
    [joinRoom] *)

Module Election.
Import Store HostElection.

(** [computeHostFromPresence]: [view] is what [channel.presenceState()]
    gives after the subscription, [None] when subscribing fails or times
    out (the function then returns null). The ids seen are sorted and the
    first one is the leader. *)
Definition computeHostFromPresence (view : option Presence.presenceState)
  : option string :=
  match view with
  | None => None
  | Some st => least (elements (Presence.presentUserIds st))
  end.

(** [amIHost]; [userId] is the result of [ensureAuth], [view] the presence
    view the fallback would read. *)
Definition amIHost (roomId userId : string)
    (view : option Presence.presenceState) : prog bool :=
  currentHost ← getCurrentHost roomId;
  match currentHost with
  | None =>
      elected ← electHost roomId userId;
      if (elected : bool) then Ret true
      else Ret (bool_decide (computeHostFromPresence view = Some userId))
  | Some currentHost =>
      if negb (bool_decide (currentHost = userId)) then
        m ← call (SelectMember roomId currentHost);
        let hostStillPresent := bool_decide (users m ≠ []) in
        if negb hostStillPresent then
          elected ← electHost roomId userId;
          if (elected : bool) then Ret true
          else Ret (bool_decide (computeHostFromPresence view = Some userId))
        else Ret (bool_decide (currentHost = userId))
      else Ret (bool_decide (currentHost = userId))
  end.

(** Modelled from the spec: [room_members.insert({ room_id, user_id })] on
    the store, whose schema is not in the sources; [(room_id, user_id)] is
    a key, so inserting a row that exists is an error. *)
Definition insert_member (room user : string) (d : db) : reply * db :=
  if bool_decide ((room, user) ∈ room_members d) then (failure, d)
  else (ok_users [],
        {| rooms := rooms d;
           room_members := {[ (room, user) ]} ∪ room_members d |}).

(** joinRoom.ts [joinRoom], run alone against the store: [inl] is the
    thrown create error. [roomName || roomId] names a room it creates. *)
Definition joinRoom (roomId userId : string) (roomName : option string) (d : db)
  : (string + unit) * db :=
  let '(roomExists, d) := exec (SelectRoom roomId) d in
  let '(created, d) :=
    match row roomExists with
    | None => exec (InsertRoom roomId (default roomId (or_null roomName)) userId) d
    | Some _ => (ok_row None, d)
    end in
  if error created then (inl "create room failed", d)
  else
    let '(ins, d) := insert_member roomId userId d in
    if error ins then (inr tt, d)
    else
      let '(_, d) := exec (UpdateRoom "owner" (Some userId) roomId
                             (Some (IsNull "owner"))) d in
      (inr tt, d).

End Election.

(** ** Terms of the further properties *)

Section further_terms.
Import Store HostElection Sched.

(** Exactly one write was applied: the stale-host claim of [u], issued by
    [w], on a room whose owner was [h]; [u] is the recorded owner. *)
Definition reclaimed (roomId : string) (w : pid) (h u : string)
    (s : sys bool bool) : Prop :=
  owner_of roomId (store s) = Some u ∧
  applied s =
    [ {| writer := w;
         issued := UpdateRoom "owner" (Some u) roomId (Some (Eq "owner" h));
         before := Some h |} ].

Definition one_reclaims (roomId h a b : string) (s : sys bool bool) : Prop :=
  (first s = Ret true ∧ second s = Ret false ∧ reclaimed roomId First h a s) ∨
  (first s = Ret false ∧ second s = Ret true ∧ reclaimed roomId Second h b s).

End further_terms.

(** ** webrtc.ts: sending, the membership feed and host changes *)

Module Manager.
Import Webrtc.

Definition readyState_name (rs : readyState) : string :=
  match rs with
  | rs_connecting => "connecting" | rs_open => "open"
  | rs_closing => "closing" | rs_closed => "closed"
  end.

Definition ConnectionState_name (s : ConnectionState) : string :=
  match s with
  | idle => "idle" | offering => "offering" | answering => "answering"
  | connecting => "connecting" | connected => "connected"
  | failed => "failed" | closed => "closed"
  end.

(** [sendToPeer]: four guards, each with its own error text, then
    [conn.dc.send], whose error is rethrown. *)
Definition sendToPeer (e : engine) (peerId : string) : M unit := λ m,
  match JsMap.get peerId (peerConnections m) with
  | None => (inl ("No connection for peer " +:+ peerId), m)
  | Some conn =>
      match dc conn with
      | None => (inl ("No datachannel for peer " +:+ peerId), m)
      | Some rs =>
          if negb (bool_decide (rs = rs_open)) then
            (inl ("DataChannel not open for " +:+ peerId +:+ " (state: " +:+
                  readyState_name rs +:+ ")"), m)
          else if negb (bool_decide (state conn = connected)) then
            (inl ("Peer not in connected state (state: " +:+
                  ConnectionState_name (state conn) +:+ ")"), m)
          else
            match dc_send e peerId with
            | Some err => (inl err, m)
            | None => (inr tt, m)
            end
      end
  end.

(** [for (const member of members || []) await connectToPeer(member.user_id)]:
    a dial that throws ends the loop. *)
Fixpoint dial_all (e : engine) (members : list string) : M unit :=
  match members with
  | [] => mret tt
  | p :: rest => connectToPeer e p false;; dial_all e rest
  end.

(** [connectToExistingPeers]; [roomIdGlobal] is the module variable of
    that name, [d] the store the member query
    [.eq('room_id', roomIdGlobal).neq('user_id', myUserId)] is served
    from. *)
Definition connectToExistingPeers (e : engine) (roomIdGlobal : option string)
    (d : Store.db) : M unit :=
  host ← gets isHost;
  match or_null roomIdGlobal with
  | None => mret tt
  | Some room =>
      if negb host then mret tt
      else
        me ← gets myUserId;
        dial_all e (filter (λ u, Some u ≠ me) (Store.members_of room d))
  end.

Definition with_role (host : bool) (current : option string) (m : manager)
  : manager :=
  {| myUserId := myUserId m; isHost := host; currentHostId := current;
     autoConnectEnabled := autoConnectEnabled m;
     peerConnections := peerConnections m;
     pendingCandidates := pendingCandidates m; sessions := sessions m;
     outbox := outbox m; warnings := warnings m |}.

(** The callback [initWebRTC] passes to [listenForHostChanges]. *)
Definition onHostChange (e : engine) (roomIdGlobal : option string)
    (d : Store.db) (newHostId : option string) : M unit :=
  wasHost ← gets isHost;
  me ← gets myUserId;
  modify (with_role (bool_decide (newHostId = me)) newHostId);;
  host ← gets isHost;
  if negb wasHost && host then connectToExistingPeers e roomIdGlobal d
  else mret tt.

(** The INSERT and DELETE handlers of [setupRoomMembersSubscription];
    a failing dial is logged. *)
Definition onMemberInsert (e : engine) (newUserId : string) : M unit :=
  me ← gets myUserId;
  host ← gets isHost;
  auto ← gets autoConnectEnabled;
  if negb (bool_decide (Some newUserId = me)) && host && auto
  then try_catch (connectToPeer e newUserId false) (λ _, mret tt)
  else mret tt.

Definition onMemberDelete (leftUserId : string) : M unit :=
  me ← gets myUserId;
  if negb (bool_decide (Some leftUserId = me))
  then modify (closePeer leftUserId)
  else mret tt.

End Manager.

(** ** Terms of the further properties of webrtc.ts *)

Section further_webrtc_terms.
Import Webrtc.

(** The first call on the dialling path that fails, if any. *)
Definition dial_failure (e : engine) (sends waits : bool) : option string :=
  match createOffer e with
  | Some msg => Some msg
  | None =>
      match setLocalDescription e with
      | Some msg => Some msg
      | None =>
          match (if sends then bus_send e else None) with
          | Some msg => Some msg
          | None => if waits then waitForConnection e else None
          end
      end
  end.

(** The first call on the answering path that fails, if any. *)
Definition answer_failure (e : engine) (sends : bool) : option string :=
  match setRemoteDescription e with
  | Some msg => Some msg
  | None =>
      match createAnswer e with
      | Some msg => Some msg
      | None =>
          match setLocalDescription e with
          | Some msg => Some msg
          | None => if sends then bus_send e else None
          end
      end
  end.

(** The answer [handleOffer] hands to the bus. *)
Definition answer_for (e : engine) (me peerId : string) : SignalMessage :=
  {| msg_from := me; msg_to := peerId; msg_type := answer;
     msg_data := Sdp (local_sdp e) |}.

(** The candidates the engine accepts. *)
Definition accepted (e : engine) (cs : list candidate) : list candidate :=
  filter (λ c, addIceCandidate e c = None) cs.

Definition more_candidates (cs : list candidate) (s : RTCPeerConnection)
  : RTCPeerConnection :=
  {| remoteDescription := remoteDescription s;
     localDescription := localDescription s;
     iceCandidates := iceCandidates s ++ cs;
     pc_closed := pc_closed s |}.

(** The entry a successful dial leaves. *)
Definition dialled (h : nat) : PeerConnection :=
  {| pc := Some h; dc := Some rs_connecting; state := connecting;
     retryCount := 0; lastError := None |}.

(** The ICE states the retry logic reacts to. *)
Definition ice_down (st : iceState) : Prop := st = ice_failed ∨ st = ice_disconnected.

(** What a handler may do to the role and the bus: nothing but hand
    answers for [to_] to the bus. *)
Definition only_answers (to_ : string) (m m' : manager) : Prop :=
  isHost m' = isHost m ∧ myUserId m' = myUserId m ∧
  currentHostId m' = currentHostId m ∧
  ∃ l, outbox m' = outbox m ++ l ∧
       Forall (λ s, msg_type s = answer ∧ msg_to s = to_) l.

(** Every run of [c] takes a manager to one related to it by [R]. *)
Definition steps (R : manager → manager → Prop) {A} (c : M A) : Prop :=
  ∀ m, R m (c m).2.

(** The offers handed to the bus so far. *)
Definition offers_sent (m : manager) : list SignalMessage :=
  filter (λ s, msg_type s = offer) (outbox m).

End further_webrtc_terms.

(** ** signaling.ts *)

Module Signaling.
Import Webrtc.

(** The module-level variables of signaling.ts; a channel object is
    known by its topic, a listener by its identity. [opened] lists the
    topics [supabase.channel] was called with, [sent] the payloads handed
    to [send] with the topic of the channel used. *)
Record bus := {
  channel : option string;
  privateChannel : option string;
  privateChannels : list (string * string);
  myUserId : option string;
  roomTopic : option string;
  listeners : list nat;
  opened : list string;
  sent : list (string * SignalMessage)
}.

Definition getUserChannelName (userId : string) : string := "user:" +:+ userId.

Definition send_on (topic : string) (msg : SignalMessage) (b : bus) : bus :=
  {| channel := channel b; privateChannel := privateChannel b;
     privateChannels := privateChannels b; myUserId := myUserId b;
     roomTopic := roomTopic b; listeners := listeners b; opened := opened b;
     sent := sent b ++ [(topic, msg)] |}.

(** [privateChannels.set(to, userChannel)] after [supabase.channel(..)] *)
Definition open_for (to_ : string) (b : bus) : bus :=
  {| channel := channel b; privateChannel := privateChannel b;
     privateChannels := JsMap.set to_ (getUserChannelName to_) (privateChannels b);
     myUserId := myUserId b; roomTopic := roomTopic b; listeners := listeners b;
     opened := opened b ++ [getUserChannelName to_];
     sent := sent b |}.

(** [sendSignal]; [send_error] is what the channel's [send] throws, if it
    does. An ICE payload is sent with its three fields copied. *)
Definition sendSignal (send_error : option string) (to_ : string)
    (ty : SignalType) (d : payload) (b : bus) : (string + unit) * bus :=
  match or_null (myUserId b) with
  | None => (inl "not authenticated", b)
  | Some me =>
      if decide (to_ = me) then (inr tt, b)
      else
        let msg := {| msg_from := me; msg_to := to_; msg_type := ty; msg_data := d |} in
        if decide (ty = host_elected) then
          match channel b with
          | None => (inl "room channel not initialized", b)
          | Some topic =>
              match send_error with
              | Some err => (inl err, b)
              | None => (inr tt, send_on topic msg b)
              end
          end
        else
          let b1 :=
            match JsMap.get to_ (privateChannels b) with
            | Some _ => b
            | None => open_for to_ b
            end in
          let topic := default (getUserChannelName to_)
                         (JsMap.get to_ (privateChannels b)) in
          match send_error with
          | Some err => (inl err, b1)
          | None => (inr tt, send_on topic msg b1)
          end
  end.

(** [onSignal] registers a listener; the function it returns removes the
    first registration of that listener. *)
Definition onSignal (cb : nat) (b : bus) : bus :=
  {| channel := channel b; privateChannel := privateChannel b;
     privateChannels := privateChannels b; myUserId := myUserId b;
     roomTopic := roomTopic b; listeners := listeners b ++ [cb];
     opened := opened b; sent := sent b |}.

Fixpoint remove_first (cb : nat) (l : list nat) : list nat :=
  match l with
  | [] => []
  | x :: l' => if decide (x = cb) then l' else x :: remove_first cb l'
  end.

Definition unsubscribe (cb : nat) (b : bus) : bus :=
  {| channel := channel b; privateChannel := privateChannel b;
     privateChannels := privateChannels b; myUserId := myUserId b;
     roomTopic := roomTopic b; listeners := remove_first cb (listeners b);
     opened := opened b; sent := sent b |}.

(** [dispatchSignal]: the listeners called, in order; what a listener
    throws is logged. Every [SignalType] is in the list the type test
    checks. *)
Definition dispatchSignal (msg : SignalMessage) (b : bus) : list nat :=
  match or_null (myUserId b) with
  | None => []
  | Some me => if decide (msg_to msg = me) then listeners b else []
  end.

Definition closeSignaling (b : bus) : bus :=
  {| channel := None; privateChannel := None;
     privateChannels := privateChannels b; myUserId := None;
     roomTopic := None; listeners := [];
     opened := opened b; sent := sent b |}.

End Signaling.

(* ================================================================== *)
(** * Properties *)

(* ------------------------------------------------------------------ *)
(** ** Host election under two concurrent callers *)


Ltac simp_sched H Hrow Ha Hb :=
  repeat first
    [ rewrite Hrow in H
    | rewrite lookup_insert_eq in H
    | rewrite (bool_decide_eq_true_2 _ Ha) in H
    | rewrite (bool_decide_eq_true_2 _ Hb) in H
    | progress (cbn in H)
    | progress (unfold truthy, Sched.record, Sched.applies, Store.owner_of in H)
    | discriminate H
    | match type of H with
      | context [@bool_decide (?x ≠ "") ?dec] =>
          destruct (@bool_decide_reflect (x ≠ "") dec)
      end
    | match type of H with
      | context [@bool_decide ?P ?dec] =>
          destruct (@bool_decide_reflect P dec); try congruence
      end ].

Ltac sched_leaf H :=
  cbn [Sched.interleave] in H; injection H; clear H; intros H; subst;
  split; [ simpl; lia | ];
  intros [F1 F2]; cbn in F1, F2; try contradiction;
  unfold single_host, sole_winner, Store.owner_of; cbn;
  rewrite ?lookup_insert_eq; cbn;
  first [ left; repeat split; congruence | right; repeat split; congruence ].

Ltac explore n sch H Hrow Ha Hb :=
  simp_sched H Hrow Ha Hb;
  lazymatch n with
  | O => idtac
  | S ?m =>
      destruct sch as [|[] sch];
      [ sched_leaf H
      | cbn [Sched.interleave Sched.serve Sched.first Sched.second
             Sched.store Sched.applied] in H;
        explore m sch H Hrow Ha Hb
      | cbn [Sched.interleave Sched.serve Sched.first Sched.second
             Sched.store Sched.applied] in H;
        explore m sch H Hrow Ha Hb ]
  end.

Section single_host_proofs.
Import Store HostElection Sched.

Lemma serve_unfinished {A B} (s : sys A B) :
  ¬ finished s → ∃ w s', serve w s = Some s'.
Proof.
  unfold finished, serve. destruct s as [p q d l]; simpl.
  destruct p as [a|qa ka].
  - destruct q as [b|qb kb]; [ intros H; destruct H; split; exact I | ].
    intros _. exists Second. destruct (exec qb d) as [r d']. eauto.
  - intros _. exists First. destruct (exec qa d) as [r d']. eauto.
Qed.

Lemma electHost_schedules (d : db) roomId a b row :
  a ≠ b → rooms d !! roomId = Some row → owner row = None →
  (roomId, a) ∈ room_members d → (roomId, b) ∈ room_members d →
  ∀ sch s,
    interleave sch (start (electHost roomId a) (electHost roomId b) d) = Some s →
    length sch ≤ 8 ∧ (finished s → single_host roomId a b s).
Proof.
  intros Hab Hrow Hown Ha Hb sch s H.
  destruct row as [nm o]; simpl in Hown; subst o.
  unfold start, electHost, getCurrentHost in H.
  explore 9 sch H Hrow Ha Hb.
Qed.

(** C1, as worded, fails: with no membership rows, the store serves the
    first caller's read and null-claim, then the second caller's read,
    membership check and stale-host claim. Both calls return [true], two
    writes are applied, and the second replaces the owner the first set. *)
Lemma electHost_unjoined_race : ¬ electHost_exclusive lobby "r" "a" "b".
Proof.
  intros H.
  remember (interleave [First; First; Second; Second; Second]
              (start (electHost "r" "a") (electHost "r" "b") lobby)) as r eqn:Er.
  assert (E : (λ s, (first s, second s, owner_of "r" (store s), length (applied s))) <$> r
              = Some (Ret true, Ret true, Some "b", 2)).
  { rewrite Er. vm_compute. reflexivity. }
  destruct r as [s|]; [ | discriminate E ].
  injection E as E1 E2 _ _.
  destruct (H _ s (eq_sym Er)) as [(_ & F & _)|(F & _)].
  - unfold finished. rewrite E1, E2. split; exact I.
  - congruence.
  - congruence.
Qed.

(** C1, amended: in a room without owner where both candidates have a
    membership row, every interleaving of the two [electHost] calls ends
    within eight round trips, can always be continued until both have
    returned, and then exactly one conditional write was applied: its
    writer is the recorded owner and got [true], the other got [false]. *)
Theorem electHost_single_host (d : db) roomId a b row :
  a ≠ b → rooms d !! roomId = Some row → owner row = None →
  (roomId, a) ∈ room_members d → (roomId, b) ∈ room_members d →
  ∀ sch s,
    interleave sch (start (electHost roomId a) (electHost roomId b) d) = Some s →
    length sch ≤ 8 ∧
    (finished s → single_host roomId a b s) ∧
    (¬ finished s → ∃ w s', serve w s = Some s').
Proof.
  intros Hab Hrow Hown Ha Hb sch s H.
  destruct (electHost_schedules d roomId a b row Hab Hrow Hown Ha Hb sch s H)
    as [Hlen Hfin].
  repeat split; [ exact Hlen | exact Hfin | apply serve_unfinished ].
Qed.

Lemma electHost_single_host_witness :
  ∃ s, interleave [First; Second; Second; First; First; First]
         (start (electHost "r" "a") (electHost "r" "b") lobby_joined) = Some s ∧
       finished s ∧ single_host "r" "a" "b" s.
Proof.
  eexists. split; [ vm_compute; reflexivity | ].
  split; [ split; exact I | ].
  refine (proj1 (proj2 (electHost_single_host lobby_joined "r" "a" "b"
             {| room_name := "R"; owner := None |} _ _ _ _ _
             [First; Second; Second; First; First; First] _ _)) _).
  - discriminate.
  - reflexivity.
  - reflexivity.
  - apply (bool_decide_unpack _). vm_compute. exact I.
  - apply (bool_decide_unpack _). vm_compute. exact I.
  - vm_compute; reflexivity.
  - split; exact I.
Defined.

End single_host_proofs.

(* ------------------------------------------------------------------ *)
(** ** Host departure: the member-leave listener *)

Section member_leaves.
Import Store HostElection.

(** The listener picks the least remaining member, "m", and sends its
    compare-and-swap to the column [host_id]; the store rejects it and
    the recorded owner is still the departed host. *)
Example listenForMemberLeaves_host_gone :
  calls (listenForMemberLeaves "r" (Some "h")) host_gone =
    [ SelectRoom "r"; SelectFirstMember "r";
      UpdateRoom "host_id" (Some "m") "r" (Some (Eq "host_id" "h")) ] ∧
  owner_of "r" (run (listenForMemberLeaves "r" (Some "h")) host_gone).2 = Some "h".
Proof. vm_compute. split; reflexivity. Qed.

(** C2 (defect in the code): whatever the store holds and whoever left,
    the handler of [listenForMemberLeaves] leaves the store as it found
    it: its two writes name the column [host_id], so the [owner] of the
    room is neither moved to the candidate nor cleared. *)
Theorem listenForMemberLeaves_keeps_owner (d : db) (roomId : string)
    (leftUser : option string) :
  (run (listenForMemberLeaves roomId leftUser) d).2 = d.
Proof.
  unfold listenForMemberLeaves, getCurrentHost. cbn.
  destruct (or_null (rooms d !! roomId ≫= owner)) as [h|]; cbn; [ | reflexivity ].
  case_bool_decide; cbn; [ | reflexivity ].
  destruct (first_candidate _) as [c|]; cbn; reflexivity.
Qed.

End member_leaves.

(* ------------------------------------------------------------------ *)
(** ** Writes to [owner] *)

Section owner_writes.
Import Store HostElection.

Lemma every_call_calls {A} (P : request → Prop) (p : prog A) :
  every_call P p → ∀ d, Forall P (calls p d).
Proof.
  induction 1 as [a|q k Hq Hk IH]; intros d; cbn.
  - constructor.
  - destruct (exec q d) as [r d'] eqn:E. constructor; [ exact Hq | apply IH ].
Qed.

(** C3, as worded, fails: when the leaving host was the last member,
    [leaveRoom] clears [owner] with an update filtered on the room id
    alone. *)
Lemma leaveRoom_clears_unconditionally :
  ¬ owner_writes_conditional (leaveRoom "r" "u").
Proof.
  intros H. apply every_call_calls with (d := last_member) in H.
  assert (E : calls (leaveRoom "r" "u") last_member =
              [ DeleteMember "r" "u"; SelectRoom "r"; SelectFirstMember "r";
                UpdateRoom "owner" None "r" None ]) by (vm_compute; reflexivity).
  rewrite E in H.
  apply Forall_cons_1 in H as [_ H]. apply Forall_cons_1 in H as [_ H].
  apply Forall_cons_1 in H as [_ H]. apply Forall_cons_1 in H as [H _].
  destruct (H eq_refl) as (g & Hg & _). discriminate Hg.
Qed.

(** What the missing filter costs: while the last member "u" is leaving,
    "c" claims the stale host by compare-and-swap and gets [true]; the
    clearing write of "u" is then applied although the owner is "c" by
    now, and the room ends without owner. *)
Example leaveRoom_clears_later_claim :
  (λ s, (Sched.second s, owner_of "r" (Sched.store s),
         Sched.before <$> last (Sched.applied s)))
    <$> Sched.interleave
          [Sched.First; Sched.First; Sched.First;
           Sched.Second; Sched.Second; Sched.Second; Sched.First]
          (Sched.start (leaveRoom "r" "u") (electHost "r" "c") last_member)
  = Some (Ret true, None, Some (Some "c")).
Proof. vm_compute. reflexivity. Qed.

Lemma or_null_Some o s : or_null o = Some s → o = Some s.
Proof.
  destruct o as [x|]; cbn; [ | discriminate ].
  destruct (truthy x); [ congruence | discriminate ].
Qed.

Ltac read_back :=
  cbn [last_read last_candidate];
  repeat (destruct (decide _) as [_|?]; [ | congruence ]).

Ltac decided :=
  repeat match goal with
         | H : negb (bool_decide _) = false |- _ =>
             apply negb_false_iff, bool_decide_eq_true in H
         | H : bool_decide _ = true |- _ => apply bool_decide_eq_true in H
         end.

Ltac from_reads :=
  decided; cbn; repeat split;
  first [ reflexivity | assumption | apply or_null_Some; assumption
        | repeat match goal with H : ?x = _ |- context [?x] => rewrite H end;
          first [ reflexivity | assumption ] ].

Ltac keyed_obligation :=
  first
    [ exact I
    | split; [ reflexivity | split; [ reflexivity | ] ];
      eexists _, _; split; [ reflexivity | ]; split; [ read_back; reflexivity | ];
      from_reads ].

Ltac walk solve_call :=
  repeat first
    [ apply after_ret
    | apply after_step; [ solve_call | intros ? ]
    | progress cbn
    | case_match ].

Lemma electHost_keyed roomId userId h :
  every_call_after (keyed_on_read roomId) h (electHost roomId userId).
Proof.
  unfold electHost, getCurrentHost. cbn. walk keyed_obligation.
Qed.

Lemma joinRoom_keeps_owner roomId userId roomName d h :
  owner_of roomId d = Some h →
  owner_of roomId (Election.joinRoom roomId userId roomName d).2 = Some h.
Proof.
  unfold Election.joinRoom, Election.insert_member, owner_of. cbn.
  destruct (rooms d !! roomId) as [[nm o]|] eqn:Hr; cbn; [ | discriminate ].
  intros Ho. subst o.
  destruct (bool_decide ((roomId, userId) ∈ room_members d)); cbn;
    rewrite Hr; cbn; [ reflexivity | ].
  rewrite Hr. reflexivity.
Qed.

(** C3, amended: every update that [electHost], [transferHost] and
    [amIHost] can issue, and the promoting update of [leaveRoom], is an
    update of [owner] on the room that carries a filter on the owner the
    operation last read for that room: [owner is null] after a read that
    showed no host, [owner = h] after a read that showed [h]. The only
    other write of [leaveRoom] is the clearing one, without filter on
    [owner], issued after the read showed the leaver as owner and no
    member remained. The writes of the member-leave listener name
    [host_id], never [owner]. An update with a filter changes the store
    only when the row's owner passes the filter, and [joinRoom], whose
    claim is filtered on a null owner, never replaces a recorded owner. *)
Theorem owner_writes_keyed (roomId userId fromUserId toUserId : string)
    (view : option Presence.presenceState) (leftUser : option string)
    (roomName : option string) :
  every_call_after (keyed_on_read roomId) [] (electHost roomId userId) ∧
  every_call_after (keyed_on_read roomId) []
    (transferHost roomId fromUserId toUserId) ∧
  every_call_after (keyed_on_read roomId) [] (Election.amIHost roomId userId view) ∧
  every_call_after
    (λ h q, keyed_on_read roomId h q ∨ clears_when_alone roomId userId h q) []
    (leaveRoom roomId userId) ∧
  every_call_after (names_host_id roomId) []
    (listenForMemberLeaves roomId leftUser) ∧
  (∀ v id g d,
     (exec (UpdateRoom "owner" v id (Some g)) d).2 ≠ d →
     ∃ r, rooms d !! id = Some r ∧
          match g with
          | IsNull _ => owner r = None
          | Eq _ h => owner r = Some h
          end) ∧
  (∀ d h, owner_of roomId d = Some h →
          owner_of roomId (Election.joinRoom roomId userId roomName d).2 = Some h).
Proof.
  split; [ apply electHost_keyed | ].
  split.
  { unfold transferHost, getCurrentHost. cbn. walk keyed_obligation. }
  split.
  { unfold Election.amIHost, electHost, getCurrentHost. cbn.
    walk keyed_obligation. }
  split.
  { unfold leaveRoom. cbn.
    walk ltac:(first
      [ left; keyed_obligation
      | right; split; [ reflexivity | ]; split;
        eexists; (split; [ read_back; reflexivity | from_reads ]) ]). }
  split.
  { unfold listenForMemberLeaves, getCurrentHost. cbn.
    walk ltac:(first
      [ exact I
      | split; [ reflexivity | split; [ reflexivity | ] ];
        first [ left; split; reflexivity
              | right; eexists _, _; split; [ reflexivity | ];
                split; [ read_back; reflexivity | from_reads ] ] ]). }
  split; [ | intros d h; apply joinRoom_keeps_owner ].
  intros v id g d Hd.
  destruct (rooms d !! id) as [r|] eqn:Hr.
  - exists r. split; [ reflexivity | ].
    destruct g as [c|c h]; cbn in Hd; rewrite Hr in Hd; cbn in Hd.
    + destruct (String.eqb c "owner"); [ | contradiction Hd; reflexivity ].
      case_bool_decide; [ assumption | contradiction Hd; reflexivity ].
    + destruct (String.eqb c "owner"); [ | contradiction Hd; reflexivity ].
      case_bool_decide; [ assumption | contradiction Hd; reflexivity ].
  - exfalso. apply Hd. cbn. rewrite Hr. destruct g; cbn;
      destruct (String.eqb _ "owner"); reflexivity.
Qed.

End owner_writes.

(* ------------------------------------------------------------------ *)
(** ** The peer connection manager *)

Section jsmap_facts.
Context {V : Type}.
Implicit Types (m : list (string * V)) (k : string) (v : V).

Lemma get_set_eq k v m : JsMap.get k (JsMap.set k v m) = Some v.
Proof.
  induction m as [|[k' v'] m IH]; cbn.
  - destruct (decide (k = k)); congruence.
  - destruct (decide (k = k')) as [->|Hne]; cbn.
    + destruct (decide (k' = k')); congruence.
    + destruct (decide (k = k')); [ congruence | exact IH ].
Qed.

Lemma get_set_ne k k' v m : k ≠ k' → JsMap.get k' (JsMap.set k v m) = JsMap.get k' m.
Proof.
  intros Hne. induction m as [|[k0 v0] m IH]; cbn.
  - destruct (decide (k' = k)); congruence.
  - destruct (decide (k = k0)) as [->|Hk]; cbn.
    + destruct (decide (k' = k0)); congruence.
    + destruct (decide (k' = k0)); [ reflexivity | exact IH ].
Qed.

Lemma get_delete_eq k m : JsMap.get k (JsMap.delete k m) = None.
Proof.
  induction m as [|[k' v'] m IH]; cbn; [ reflexivity | ].
  destruct (decide (k = k')) as [->|Hne]; cbn; [ exact IH | ].
  destruct (decide (k = k')); [ congruence | exact IH ].
Qed.

End jsmap_facts.


Section state_machine.
Import Webrtc.


Lemma updatePeerState_state peerId newState error m :
  is_Some (JsMap.get peerId (peerConnections m)) ∨ newState ≠ closed →
  peer_state peerId (updatePeerState peerId newState error m) = newState.
Proof.
  unfold updatePeerState, peer_state.
  destruct (JsMap.get peerId (peerConnections m)) as [conn|] eqn:Hget; cbn.
  - intros _. case_bool_decide; cbn; rewrite get_set_eq; reflexivity.
  - intros [[c Hc]|Hne]; [ discriminate Hc | ].
    destruct (decide (newState = closed)); [ contradiction | ].
    case_bool_decide; cbn; rewrite get_set_eq; reflexivity.
Qed.


End state_machine.

Section candidate_buffer.
Import Webrtc.

Lemma receive_all_queues e from_ cs m :
  JsMap.get from_ (peerConnections m) = None →
  JsMap.get from_ (peerConnections (receive_all e from_ cs m)) = None ∧
  pending_of from_ (receive_all e from_ cs m) = pending_of from_ m ++ cs.
Proof.
  unfold receive_all. revert m. induction cs as [|c cs IH]; intros m Hm; cbn.
  - rewrite app_nil_r. auto.
  - assert (E : (handleRemoteIce e from_ c m).2 =
                with_pendingCandidates (<[from_ := pending_of from_ m ++ [c]]>) m).
    { unfold handleRemoteIce, mbind, M_bind, gets. rewrite Hm. reflexivity. }
    rewrite E. destruct (IH (with_pendingCandidates
                               (<[from_ := pending_of from_ m ++ [c]]>) m)) as [H1 H2];
      [ exact Hm | ].
    split; [ exact H1 | ]. rewrite H2. unfold pending_of at 1. cbn.
    rewrite lookup_insert_eq. cbn. rewrite <- app_assoc. reflexivity.
Qed.

Lemma keeps_bind p {A B} (c : M A) (k : A → M B) :
  keeps p c → (∀ a, keeps p (k a)) → keeps p (c ≫= k).
Proof.
  intros Hc Hk m Hm. unfold mbind, M_bind.
  specialize (Hc m Hm). destruct (c m) as [[msg|a] m']; cbn in *.
  - exact Hc.
  - apply Hk, Hc.
Qed.

Lemma keeps_try_catch p {A} (c : M A) (h : string → M A) :
  keeps p c → (∀ msg, keeps p (h msg)) → keeps p (try_catch c h).
Proof.
  intros Hc Hh m Hm. unfold try_catch.
  specialize (Hc m Hm). destruct (c m) as [[msg|a] m']; cbn in *.
  - apply Hh, Hc.
  - exact Hc.
Qed.

Lemma keeps_ret p {A} (a : A) : keeps p (mret a).
Proof. intros m Hm. exact Hm. Qed.

Lemma keeps_throw p {A} msg : keeps p (@throw A msg).
Proof. intros m Hm. exact Hm. Qed.

Lemma keeps_attempt p o : keeps p (attempt o).
Proof. destruct o; [ apply keeps_throw | apply keeps_ret ]. Qed.

Lemma keeps_modify p (f : manager → manager) :
  (∀ m, untouched p m → untouched p (f m)) → keeps p (modify f).
Proof. intros Hf m Hm. apply Hf, Hm. Qed.

Lemma updatePeerState_pc q p st err m :
  JsMap.get q (peerConnections (updatePeerState p st err m)) ≫= pc =
  JsMap.get q (peerConnections m) ≫= pc.
Proof.
  unfold updatePeerState.
  destruct (JsMap.get p (peerConnections m)) as [conn|] eqn:Hget.
  - case_bool_decide; cbn;
      (destruct (decide (p = q)) as [->|Hne];
       [ rewrite get_set_eq, Hget; reflexivity
       | rewrite get_set_ne by exact Hne; reflexivity ]).
  - destruct (decide (st = closed)); case_bool_decide; cbn; try reflexivity;
      (destruct (decide (p = q)) as [->|Hne];
       [ rewrite get_set_eq, Hget; reflexivity
       | rewrite get_set_ne by exact Hne; reflexivity ]).
Qed.

Lemma updatePeerState_untouched q p st err m :
  untouched q m → untouched q (updatePeerState p st err m).
Proof.
  unfold untouched, applied_candidates, pending_of.
  rewrite updatePeerState_pc.
  assert (sessions (updatePeerState p st err m) = sessions m) as ->.
  { unfold updatePeerState. repeat case_match; reflexivity. }
  assert (pendingCandidates (updatePeerState p st err m) = pendingCandidates m) as ->.
  { unfold updatePeerState. repeat case_match; reflexivity. }
  auto.
Qed.

Lemma alter_session_untouched q (f : RTCPeerConnection → RTCPeerConnection) h m :
  (∀ s, iceCandidates (f s) = iceCandidates s) →
  untouched q m → untouched q (with_sessions (alter f h) m).
Proof.
  intros Hf. unfold untouched, applied_candidates, pending_of. cbn.
  destruct (JsMap.get q (peerConnections m) ≫= pc) as [h'|]; [ | auto ].
  intros [H1 H2]. split; [ | exact H2 ].
  destruct (decide (h = h')) as [->|Hne].
  - rewrite list_lookup_alter_eq.
    destruct (sessions m !! h') as [s0|]; cbn in *; [ | reflexivity ].
    rewrite Hf. exact H1.
  - rewrite list_lookup_alter_ne by exact Hne. exact H1.
Qed.

Lemma flush_nil_after e h p :
  keeps p (pend ← gets (pending_of p);
           flush e h pend;;
           modify (with_pendingCandidates (<[p := []]>))).
Proof.
  intros m [H1 H2]. unfold mbind, M_bind, gets.
  rewrite H2. cbn. split.
  - exact H1.
  - unfold pending_of. cbn. rewrite lookup_insert_eq. reflexivity.
Qed.

Lemma sendSignal_untouched e p to_ ty d : keeps p (sendSignal e to_ ty d).
Proof.
  intros m Hm. unfold sendSignal.
  destruct (or_null (myUserId m)); [ | exact Hm ].
  destruct (decide _); [ exact Hm | ].
  destruct (bus_send e); exact Hm.
Qed.

(** [handleOffer] for a peer without entry: the queue it flushes is the
    one [createPeerConnection] has just emptied. *)
Lemma handleOffer_flushes_nothing e from_ offer_ m :
  JsMap.get from_ (peerConnections m) = None →
  untouched from_ (handleOffer e from_ offer_ m).2.
Proof.
  intros Hm. unfold handleOffer.
  unfold mbind at 1, M_bind at 1, gets at 1. rewrite Hm. cbn [in_state orb].
  unfold mbind at 1, M_bind at 1, modify at 1.
  unfold mbind at 1, M_bind at 1, createPeerConnection at 1.
  unfold mbind at 1, M_bind at 1, modify at 1.
  set (m0 := updatePeerState from_ answering None m).
  set (h := length (sessions m0)).
  match goal with
  | |- untouched _ (try_catch ?c ?k ?m1).2 =>
      assert (Hq : untouched from_ m1); [ | revert Hq; generalize m1 ]
  end.
  - unfold untouched, applied_candidates, pending_of. cbn.
    rewrite get_set_eq, lookup_insert_eq. cbn.
    subst h. rewrite lookup_app_r by reflexivity.
    rewrite Nat.sub_diag. cbn. auto.
  - apply keeps_try_catch.
    + repeat first
        [ apply flush_nil_after
        | apply keeps_bind; [ | intros ? ]
        | apply keeps_attempt
        | apply sendSignal_untouched
        | apply keeps_modify; intros m' Hm';
          first [ apply updatePeerState_untouched; exact Hm'
                | apply alter_session_untouched; [ reflexivity | exact Hm' ] ] ].
    + intros msg. apply keeps_bind; [ | intros ?; apply keeps_throw ].
      apply keeps_modify. intros m' Hm'.
      apply updatePeerState_untouched; exact Hm'.
Qed.

(** C5 (defect in the code): candidates that arrive for a peer without
    entry are queued in receipt order, but [handleOffer] then creates the
    session through [createPeerConnection], which resets the queue of
    that peer before the flush reads it: none of the queued candidates
    reaches the session, and the queue is empty afterwards. *)
Theorem buffered_candidates_dropped (e : engine) (from_ : string)
    (offer_ : payload) (cs : list candidate) (m : manager) :
  JsMap.get from_ (peerConnections m) = None →
  let m1 := receive_all e from_ cs m in
  let m2 := (handleOffer e from_ offer_ m1).2 in
  pending_of from_ m1 = pending_of from_ m ++ cs ∧
  applied_candidates from_ m2 = [] ∧
  pending_of from_ m2 = [].
Proof.
  intros Hm. cbv zeta.
  destruct (receive_all_queues e from_ cs m Hm) as [H1 H2].
  split; [ exact H2 | ].
  apply handleOffer_flushes_nothing, H1.
Qed.

Lemma buffered_candidates_dropped_witness :
  let m1 := receive_all engine_ok "h" [host_candidate] client_me in
  let m2 := (handleOffer engine_ok "h" (Sdp "v=0") m1).2 in
  pending_of "h" m1 = [host_candidate] ∧
  applied_candidates "h" m2 = [] ∧
  pending_of "h" m2 = [].
Proof.
  apply (buffered_candidates_dropped engine_ok "h" (Sdp "v=0")
           [host_candidate] client_me).
  reflexivity.
Defined.

End candidate_buffer.

Section idempotent_dial.
Import Webrtc.

(** C6, as worded, fails: the host dials "p"; the engine reports ICE
    connected while the data channel is still opening, so "p" is in
    [connected]; a second [connectToPeer] dials again and a second offer
    goes out. *)
Lemma redial_while_channel_opening :
  let m1 := (connectToPeer engine_ok "p" false host_me).2 in
  let m2 := (oniceconnectionstatechange "p" ice_connected m1).2 in
  let m3 := (connectToPeer engine_ok "p" false m2).2 in
  peer_state "p" m2 = connected ∧
  length (offers_to "p" m1) = 1 ∧
  length (offers_to "p" m3) = 2.
Proof. vm_compute. repeat split; reflexivity. Qed.

Lemma updatePeerState_vars p st err m :
  myUserId (updatePeerState p st err m) = myUserId m ∧
  isHost (updatePeerState p st err m) = isHost m ∧
  outbox (updatePeerState p st err m) = outbox m.
Proof. unfold updatePeerState. repeat case_match; auto. Qed.

Lemma connectToPeer_noop e peerId w m conn :
  initialized m = true → isHost m = true →
  JsMap.get peerId (peerConnections m) = Some conn →
  state conn = connecting ∨ (state conn = connected ∧ dc conn = Some rs_open) →
  (connectToPeer e peerId w m).2 = m.
Proof.
  intros Hi Hh Hget Hst. unfold connectToPeer, mbind, M_bind, gets.
  cbn. rewrite Hi. cbn. rewrite Hh. cbn. rewrite Hget. cbn.
  destruct Hst as [Hc|[Hc Hd]]; rewrite Hc; cbn.
  - destruct w; [ destruct (waitForConnection e) | ]; reflexivity.
  - rewrite Hd. reflexivity.
Qed.

Lemma connectToPeer_dials e peerId m me :
  myUserId m = Some me → truthy me = true → me ≠ peerId → isHost m = true →
  JsMap.get peerId (peerConnections m) = None →
  dial_succeeds e →
  ∃ mc, (connectToPeer e peerId false m).2 =
          with_outbox (λ o, o ++ [offer_for e me peerId]) mc ∧
        outbox mc = outbox m ∧ myUserId mc = Some me ∧ isHost mc = true ∧
        peer_state peerId mc = connecting.
Proof.
  intros Hme Ht Hne Hh Hget (F1 & F2 & F3 & F4).
  unfold connectToPeer, mbind, M_bind, gets, initialized.
  cbn. rewrite Hme, Ht. cbn. rewrite Hh. cbn. rewrite Hget. cbn.
  unfold modify, createPeerConnection. rewrite F1. cbn.
  unfold try_catch, mbind, M_bind. rewrite F2, F3. cbn.
  match goal with
  | |- context [sendSignal _ _ _ _ ?mc] =>
      exists mc;
      assert (Hv : myUserId mc = Some me ∧ isHost mc = true ∧ outbox mc = outbox m)
  end.
  { destruct (updatePeerState_vars peerId connecting None
                (with_sessions
                   (alter (λ s, {| remoteDescription := remoteDescription s;
                                   localDescription := Some (local_sdp e);
                                   iceCandidates := iceCandidates s;
                                   pc_closed := pc_closed s |})
                      (length (sessions (updatePeerState peerId offering None m))))
                   (with_peerConnections
                      (JsMap.set peerId
                         {| pc := Some (length (sessions (updatePeerState peerId offering None m)));
                            dc := Some rs_connecting; state := offering;
                            retryCount := 0; lastError := None |})
                      (with_pendingCandidates (<[peerId := []]>)
                         (with_sessions (λ ss, ss ++ [new_session])
                            (updatePeerState peerId offering None m))))))
      as (V1 & V2 & V3).
    rewrite V1, V2, V3. cbn.
    destruct (updatePeerState_vars peerId offering None m) as (W1 & W2 & W3).
    rewrite W1, W2, W3. auto. }
  destruct Hv as (V1 & V2 & V3).
  unfold sendSignal. rewrite V1. cbn. rewrite Ht.
  destruct (decide (peerId = me)) as [->|_]; [ contradiction | ].
  rewrite F4. cbn.
  repeat split; try assumption.
  apply updatePeerState_state. left. cbn. rewrite get_set_eq. eauto.
Qed.

(** C6, amended: for an initialised host, [connectToPeer] changes nothing
    and sends nothing when the peer's entry is in [connecting], or in
    [connected] with its data channel open. Hence, for a peer without
    entry and an engine that does not fail, a first call sends one offer
    and leaves the peer in [connecting], and a second call made then
    sends none: exactly one offer has gone out. *)
Theorem connectToPeer_idempotent (e e' : engine) (peerId me : string)
    (w : bool) (m : manager) :
  myUserId m = Some me → truthy me = true → isHost m = true →
  (∀ conn, JsMap.get peerId (peerConnections m) = Some conn →
           state conn = connecting ∨
           (state conn = connected ∧ dc conn = Some rs_open) →
           (connectToPeer e peerId w m).2 = m) ∧
  (JsMap.get peerId (peerConnections m) = None → me ≠ peerId →
   dial_succeeds e →
   let m1 := (connectToPeer e peerId false m).2 in
   let m2 := (connectToPeer e' peerId w m1).2 in
   peer_state peerId m1 = connecting ∧ m2 = m1 ∧
   offers_to peerId m2 = offers_to peerId m ++ [offer_for e me peerId]).
Proof.
  intros Hme Ht Hh. split.
  - intros conn Hget Hst. apply (connectToPeer_noop e peerId w m conn); try assumption.
    unfold initialized. rewrite Hme. exact Ht.
  - intros Hget Hne He. cbv zeta.
    destruct (connectToPeer_dials e peerId m me Hme Ht Hne Hh Hget He)
      as (mc & E & Ho & Hu & Hhost & Hs).
    rewrite E.
    assert (Hs1 : peer_state peerId (with_outbox (λ o, o ++ [offer_for e me peerId]) mc)
                  = connecting) by exact Hs.
    split; [ exact Hs1 | ].
    assert (E2 : (connectToPeer e' peerId w
                    (with_outbox (λ o, o ++ [offer_for e me peerId]) mc)).2
                 = with_outbox (λ o, o ++ [offer_for e me peerId]) mc).
    { unfold peer_state in Hs1. cbn in Hs1.
      destruct (JsMap.get peerId (peerConnections mc)) as [conn|] eqn:Hc;
        [ | discriminate Hs1 ].
      apply (connectToPeer_noop e' peerId w _ conn).
      - unfold initialized. cbn. rewrite Hu. exact Ht.
      - exact Hhost.
      - exact Hc.
      - left. exact Hs1. }
    rewrite E2. split; [ reflexivity | ].
    unfold offers_to. cbn. rewrite Ho, filter_app. f_equal.
    rewrite filter_cons_True by (split; reflexivity). reflexivity.
Qed.

Lemma connectToPeer_idempotent_witness :
  let m1 := (connectToPeer engine_ok "p" false host_me).2 in
  let m2 := (connectToPeer bus_down "p" true m1).2 in
  peer_state "p" m1 = connecting ∧ m2 = m1 ∧
  offers_to "p" m2 = offers_to "p" host_me ++ [offer_for engine_ok "me" "p"].
Proof.
  refine (proj2 (connectToPeer_idempotent engine_ok bus_down "p" "me" true
                   host_me _ _ _) _ _ _).
  - reflexivity.
  - reflexivity.
  - reflexivity.
  - reflexivity.
  - discriminate.
  - repeat split.
Defined.

End idempotent_dial.

Section broadcast_report.
Import Webrtc.

(** C7, as worded, fails on its scenario: the peer whose channel is
    closed is skipped, so two deliveries are counted and no error is
    recorded, not one. *)
Lemma broadcast_skips_closed_channel :
  ¬ (sent (broadcast engine_ok three_peers) = 2 ∧
     length (errors (broadcast engine_ok three_peers)) = 1).
Proof. intros [_ H]. vm_compute in H. discriminate H. Qed.

Lemma broadcast_loop_spec e entries r :
  let r' := broadcast_loop e entries r in
  let tried := (filter (λ kv, deliverable kv.2 = true) entries).*1 in
  attempted r' = attempted r ++ tried ∧
  sent r' = sent r + length (filter (λ p, dc_send e p = None) tried) ∧
  errors r' = errors r ++ omap (failure_text e) tried.
Proof.
  cbv zeta. revert r. induction entries as [|[p conn] entries IH]; intros r; cbn.
  - rewrite !app_nil_r, Nat.add_0_r. auto.
  - destruct (deliverable conn) eqn:Hd; cbn.
    + destruct (decide (true = true)) as [_|Hn]; [ | congruence ]. cbn.
      destruct (dc_send e p) as [err|] eqn:Hs; cbn;
        destruct (IH
          (match dc_send e p with
           | Some err => {| sent := sent r; errors := errors r ++ [p +:+ ": " +:+ err];
                            attempted := attempted r ++ [p] |}
           | None => {| sent := S (sent r); errors := errors r;
                        attempted := attempted r ++ [p] |}
           end)) as (H1 & H2 & H3);
        rewrite Hs in H1, H2, H3; rewrite H1, H2, H3; cbn;
        rewrite ?Hs; case_decide; try congruence; cbn;
        rewrite <- ?app_assoc; repeat split; try reflexivity; cbn;
        unfold failure_text; rewrite ?Hs; cbn;
        first [ reflexivity | rewrite Nat.add_succ_r; reflexivity ].
    + destruct (decide (false = true)) as [Hn|_]; [ congruence | ]. apply IH.
Qed.

(** C7, amended: [broadcast] calls [send] on exactly the peers that are
    [connected] with an open channel, in map order; it counts the calls
    that return and records one error text per call that throws, never
    stopping early; a peer whose channel is not open is not tried and
    yields no error. With three connected peers, one of them with a
    closed channel, and no failing send, it reports two deliveries and no
    error. *)
Theorem broadcast_partial (e : engine) (m : manager) :
  let r := broadcast e m in
  let tried := (filter (λ kv, deliverable kv.2 = true) (peerConnections m)).*1 in
  attempted r = tried ∧
  sent r = length (filter (λ p, dc_send e p = None) tried) ∧
  errors r = omap (failure_text e) tried ∧
  sent r + length (errors r) = length tried ∧
  (∀ p1 p2 p3 c1 c2 c3,
     peerConnections m = [ (p1, c1); (p2, c2); (p3, c3) ] →
     state c1 = connected → state c2 = connected → state c3 = connected →
     dc c1 = Some rs_open → dc c2 = Some rs_open → dc c3 = Some rs_closed →
     dc_send e p1 = None → dc_send e p2 = None →
     sent r = 2 ∧ errors r = [] ∧ attempted r = [p1; p2]).
Proof.
  cbv zeta. unfold broadcast.
  destruct (broadcast_loop_spec e (peerConnections m)
              {| sent := 0; errors := []; attempted := [] |}) as (H1 & H2 & H3).
  cbn in H1, H2, H3. rewrite H1, H2, H3.
  split; [ reflexivity | split; [ reflexivity | split; [ reflexivity | split ] ] ].
  - generalize ((filter (λ kv, deliverable kv.2 = true) (peerConnections m)).*1).
    intros l. induction l as [|p l IH]; cbn; [ reflexivity | ].
    unfold failure_text at 1.
    destruct (dc_send e p) eqn:Hs; cbn; case_decide; try congruence; cbn;
      rewrite ?Nat.add_succ_r; cbn in IH; try (f_equal; exact IH); idtac.

  - intros p1 p2 p3 c1 c2 c3 Hm S1 S2 S3 D1 D2 D3 T1 T2.
    assert (E1 : deliverable c1 = true) by (unfold deliverable; rewrite S1, D1; reflexivity).
    assert (E2 : deliverable c2 = true) by (unfold deliverable; rewrite S2, D2; reflexivity).
    assert (E3 : deliverable c3 = false) by (unfold deliverable; rewrite S3, D3; reflexivity).
    rewrite Hm. cbn. rewrite E1, E2, E3.
    destruct (decide (true = true)) as [_|Hn]; [ | congruence ].
    destruct (decide (false = true)) as [Hn|_]; [ congruence | ].
    cbn. unfold failure_text. rewrite T1, T2. cbn.
    destruct (decide (None = None)) as [_|Hn]; [ | congruence ].
    cbn. repeat split; reflexivity.
Qed.

Lemma broadcast_partial_witness :
  sent (broadcast engine_ok three_peers) = 2 ∧
  errors (broadcast engine_ok three_peers) = [] ∧
  attempted (broadcast engine_ok three_peers) = ["a"; "b"].
Proof.
  refine (proj2 (proj2 (proj2 (proj2 (broadcast_partial engine_ok three_peers))))
            "a" "b" "c" (linked rs_open) (linked rs_open) (linked rs_closed)
            _ _ _ _ _ _ _ _ _); reflexivity.
Defined.

End broadcast_report.

Section signal_gate.
Import Webrtc.

(** C10: a participant that is not host drops every offer whose sender is
    not the host it has recorded: the listener returns and the manager
    is unchanged (no entry, no session, no signal, no state change). An
    offer from the recorded host, addressed to this participant, is
    passed to [handleOffer]. *)
Theorem onSignal_gates_offers (e : engine) (msg : SignalMessage) (m : manager) :
  msg_type msg = offer → isHost m = false →
  (Some (msg_from msg) ≠ currentHostId m → onSignal e msg m = (inr tt, m)) ∧
  (∀ me, or_null (myUserId m) = Some me → msg_to msg = me → msg_from msg ≠ me →
         Some (msg_from msg) = currentHostId m →
         onSignal e msg m =
           try_catch (handleOffer e (msg_from msg) (msg_data msg))
                     (λ _, mret tt) m).
Proof.
  intros Hty Hh. split.
  - intros Hne. unfold onSignal, mbind, M_bind, gets. cbn.
    destruct (or_null (myUserId m)) as [me|]; [ | reflexivity ].
    repeat (case_bool_decide; cbn; try reflexivity; try congruence).
    all: rewrite Hh in *; cbn in *; try reflexivity; congruence.
  - intros me Hme Hto Hfrom Hcur. unfold onSignal, mbind, M_bind, gets. cbn.
    rewrite Hme. rewrite Hto.
    rewrite bool_decide_eq_true_2 by reflexivity. cbn.
    rewrite (bool_decide_eq_false_2 _ Hfrom). cbn.
    rewrite Hty, Hh, Hcur. cbn.
    rewrite (bool_decide_eq_true_2 (currentHostId m = currentHostId m)) by reflexivity.
    cbn. reflexivity.
Qed.

Lemma onSignal_gates_offers_witness :
  onSignal engine_ok
    {| msg_from := "x"; msg_to := "me"; msg_type := offer; msg_data := Sdp "v=0" |}
    client_me = (inr tt, client_me) ∧
  peer_state "h" (onSignal engine_ok
    {| msg_from := "h"; msg_to := "me"; msg_type := offer; msg_data := Sdp "v=0" |}
    client_me).2 = connecting.
Proof.
  split.
  - apply (onSignal_gates_offers engine_ok
             {| msg_from := "x"; msg_to := "me"; msg_type := offer;
                msg_data := Sdp "v=0" |} client_me); [ reflexivity .. | discriminate ].
  - rewrite (proj2 (onSignal_gates_offers engine_ok
             {| msg_from := "h"; msg_to := "me"; msg_type := offer;
                msg_data := Sdp "v=0" |} client_me eq_refl eq_refl)
             "me" eq_refl eq_refl ltac:(discriminate) eq_refl).
    reflexivity.
Defined.

End signal_gate.

(* ------------------------------------------------------------------ *)
(** ** Presence reconciliation *)

Section reconciliation.
Import Store Presence.

Lemma elem_of_members_of room u d :
  u ∈ members_of room d ↔ (room, u) ∈ room_members d.
Proof.
  unfold members_of. rewrite list_elem_of_fmap. split.
  - intros ([r u'] & -> & H). apply elem_of_elements, elem_of_filter in H.
    cbn in H. destruct H as [-> H]. exact H.
  - intros H. exists (room, u). split; [ reflexivity | ].
    apply elem_of_elements, elem_of_filter. split; [ reflexivity | exact H ].
Qed.

Lemma delete_stale_calls roomId l d :
  calls (delete_stale roomId l) d = DeleteMember roomId <$> l.
Proof.
  revert d. induction l as [|u l IH]; intros d; cbn; [ reflexivity | ].
  f_equal. apply IH.
Qed.

Lemma delete_stale_run roomId l d :
  rooms (run (delete_stale roomId l) d).2 = rooms d ∧
  ∀ r u, (r, u) ∈ room_members (run (delete_stale roomId l) d).2 ↔
         (r, u) ∈ room_members d ∧ ¬ (r = roomId ∧ u ∈ l).
Proof.
  revert d. induction l as [|u0 l IH]; intros d; cbn.
  - split; [ reflexivity | ]. intros r u. split.
    + intros H. split; [ exact H | ]. intros [_ H']. inversion H'.
    + intros [H _]. exact H.
  - destruct (IH {| rooms := rooms d;
                    room_members := room_members d ∖ {[ (roomId, u0) ]} |})
      as [H1 H2].
    split; [ exact H1 | ]. intros r u. rewrite H2. cbn.
    rewrite elem_of_difference, elem_of_singleton. split.
    + intros [[Hin Hne] Hl]. split; [ exact Hin | ].
      intros [-> Hu]. apply elem_of_cons in Hu as [->|Hu]; [ congruence | ].
      apply Hl. auto.
    + intros [Hin Hl]. split; [ split; [ exact Hin | ] | ].
      * intros E. injection E as -> ->. apply Hl. split; [ reflexivity | left ].
      * intros [-> Hu]. apply Hl. split; [ reflexivity | right; exact Hu ].
Qed.

Lemma presentUserIds_nil : presentUserIds [] = ∅.
Proof. reflexivity. Qed.

(** C8: the reconciliation of [joinPresence] only deletes membership rows
    of the joined room whose participant is neither in the presence view
    nor the caller; the table afterwards is the table before minus those
    rows; and with an empty presence view (in particular with no
    presence key at all) it deletes nothing, whatever rows the table
    lists. *)
Theorem reconcile_safe (st : presenceState) (roomId userId : string) (d : db) :
  let d' := (run (reconcile st roomId userId) d).2 in
  let dels := deletions st roomId userId d in
  rooms d' = rooms d ∧
  (∀ r u, (r, u) ∈ dels →
          r = roomId ∧ ((roomId, u) ∈ room_members d) ∧
          (u ∉ presentUserIds st) ∧ u ≠ userId) ∧
  (∀ r u, (r, u) ∈ room_members d' ↔ ((r, u) ∈ room_members d) ∧ ((r, u) ∉ dels)) ∧
  (presentUserIds st = ∅ → dels = [] ∧ d' = d) ∧
  (st = [] → dels = [] ∧ d' = d).
Proof.
  cbv zeta.
  assert (Hempty : presentUserIds st = ∅ →
            deletions st roomId userId d = [] ∧
            (run (reconcile st roomId userId) d).2 = d).
  { intros He. unfold deletions, reconcile. rewrite He, size_empty.
    rewrite (bool_decide_eq_true_2 (0 = 0)) by reflexivity. cbn.
    destruct (bool_decide (length st = 0)); cbn; [ auto | ].
    rewrite (bool_decide_eq_false_2 (0 < 0)) by lia.
    rewrite andb_false_r. cbn. auto. }
  unfold deletions, reconcile.
  set (present := presentUserIds st) in *.
  destruct (bool_decide (size present = 0) && bool_decide (length st = 0)) eqn:Hskip.
  { cbn. split; [ reflexivity | ].
    split; [ intros r u Hin; inversion Hin | ].
    split; [ intros r u; split;
             [ intros Hin; split; [ exact Hin | intros Hin'; inversion Hin' ]
             | intros [Hin _]; exact Hin ] | ].
    split; intros _; split; reflexivity. }
  cbn.
  set (toRemove := filter (λ u, (u ∉ present) ∧ (u ≠ userId)) (members_of roomId d)).
  assert (HtoRemove : ∀ u, u ∈ toRemove →
            ((roomId, u) ∈ room_members d) ∧ (u ∉ present) ∧ u ≠ userId).
  { intros u Hu. apply list_elem_of_filter in Hu as [[H1 H2] H3].
    apply elem_of_members_of in H3. auto. }
  destruct (bool_decide (0 < length toRemove) && bool_decide (0 < size present)) eqn:Hgo.
  - cbn. rewrite delete_stale_calls.
    destruct (delete_stale_run roomId toRemove d) as [R1 R2].
    assert (Hd : ∀ r u, (r, u) ∈ omap (λ q, match q with
                                             | DeleteMember r u => Some (r, u)
                                             | _ => None
                                             end) (DeleteMember roomId <$> toRemove)
                        ↔ r = roomId ∧ u ∈ toRemove).
    { intros r u. rewrite list_elem_of_omap. split.
      - intros (q & Hq & Hm). apply list_elem_of_fmap in Hq as (u' & -> & Hu').
        injection Hm as <- <-. auto.
      - intros [-> Hu]. exists (DeleteMember roomId u). split; [ | reflexivity ].
        apply list_elem_of_fmap. eauto. }
    split; [ exact R1 | ]. split; [ | split; [ | split ] ].
    + intros r u H. apply Hd in H as [-> H]. split; [ reflexivity | ].
      apply HtoRemove, H.
    + intros r u. rewrite R2, Hd. tauto.
    + intros He. apply andb_true_iff in Hgo as [_ Hgo].
      apply bool_decide_eq_true_1 in Hgo. rewrite He, size_empty in Hgo. lia.
    + intros Hst. apply andb_true_iff in Hgo as [_ Hgo].
      apply bool_decide_eq_true_1 in Hgo. subst present.
      rewrite Hst, presentUserIds_nil, size_empty in Hgo. lia.
  - cbn. split; [ reflexivity | ].
    split; [ intros r u Hin; inversion Hin | ].
    split; [ intros r u; split;
             [ intros Hin; split; [ exact Hin | intros Hin'; inversion Hin' ]
             | intros [Hin _]; exact Hin ] | ].
    split; intros _; split; reflexivity.
Qed.

Lemma reconcile_safe_witness :
  deletions [] "r" "me" stale_rows = [] ∧
  (run (reconcile [] "r" "me") stale_rows).2 = stale_rows.
Proof.
  apply (reconcile_safe [] "r" "me" stale_rows). reflexivity.
Defined.

(** Once the view lists "h" and "me", the row of "gone" is the one
    deleted. *)
Example reconcile_deletes_absent :
  deletions [ ("k1", [ {| user_id := "h"; role := "host" |} ]);
              ("k2", [ {| user_id := "me"; role := "client" |} ]) ]
            "r" "me" stale_rows = [ ("r", "gone") ].
Proof. vm_compute. reflexivity. Qed.

End reconciliation.

(* ------------------------------------------------------------------ *)
(** ** Teardown order *)

Section teardown.
Import Store Session.

Example disconnectFromRoom_joined_trace :
  trace (disconnectFromRoom "r" "me" joined) =
    [ PresenceUntracked;
      StoreCall (DeleteMember "r" "me"); StoreCall (SelectRoom "r");
      PresenceUnsubscribed;
      BusPrivateUnsubscribed; BusRoomUnsubscribed;
      PeerClosed "h"; RoomMembersUnsubscribed;
      StoreCall (DeleteMember "r" "me"); StoreCall (SelectRoom "r") ].
Proof. vm_compute. reflexivity. Qed.

(** C9, as worded, fails: with presence joined, [leavePresence] itself
    calls [leaveRoom], so the membership row is deleted before the bus
    subscriptions are closed. *)
Lemma membership_deleted_before_bus_closes :
  ¬ row_outlives_bus "r" "me" (trace (disconnectFromRoom "r" "me" joined)).
Proof.
  rewrite disconnectFromRoom_joined_trace. intros [H _]. apply H.
  exists 1, 4. repeat split. lia.
Qed.

Lemma leaveRoom_deletes_first roomId userId d :
  ∃ rest, calls (HostElection.leaveRoom roomId userId) d =
            DeleteMember roomId userId :: rest.
Proof.
  unfold HostElection.leaveRoom. cbn. eexists. reflexivity.
Qed.

Lemma leaveRoom_removes_row roomId userId d :
  room_members (run (HostElection.leaveRoom roomId userId) d).2 =
  room_members d ∖ {[ (roomId, userId) ]}.
Proof.
  unfold HostElection.leaveRoom. cbn.
  destruct (rooms d !! roomId) as [r|]; cbn; [ | reflexivity ].
  case_bool_decide; cbn; [ | reflexivity ].
  destruct (HostElection.first_candidate _); cbn;
    repeat case_match; simplify_eq; reflexivity.
Qed.

Lemma precedes_elem x y t : precedes x y t → x ∈ t ∧ y ∈ t.
Proof.
  intros (i & j & Hi & Hj & _). split; eapply list_elem_of_lookup_2; eassumption.
Qed.

Lemma precedes_app x y l1 l2 :
  precedes x y (l1 ++ l2) ↔
  precedes x y l1 ∨ (x ∈ l1 ∧ y ∈ l2) ∨ precedes x y l2.
Proof.
  split.
  - intros (i & j & Hi & Hj & Hij).
    destruct (decide (j < length l1)) as [Hj1|Hj1].
    + left. exists i, j. rewrite lookup_app_l in Hi by lia.
      rewrite lookup_app_l in Hj by lia. auto.
    + rewrite lookup_app_r in Hj by lia.
      destruct (decide (i < length l1)) as [Hi1|Hi1].
      * right; left. rewrite lookup_app_l in Hi by lia.
        split; eapply list_elem_of_lookup_2; eassumption.
      * right; right. rewrite lookup_app_r in Hi by lia.
        exists (i - length l1), (j - length l1). repeat split; [ assumption.. | lia ].
  - intros [(i & j & Hi & Hj & Hij)|[[Hx Hy]|(i & j & Hi & Hj & Hij)]].
    + exists i, j. repeat split; [ | | exact Hij ].
      * apply lookup_app_l_Some, Hi.
      * apply lookup_app_l_Some, Hj.
    + apply list_elem_of_lookup_1 in Hx as [i Hi].
      apply list_elem_of_lookup_1 in Hy as [j Hj].
      exists i, (length l1 + j). repeat split.
      * apply lookup_app_l_Some, Hi.
      * rewrite lookup_app_r by lia. replace (length l1 + j - length l1) with j by lia.
        exact Hj.
      * apply lookup_lt_Some in Hi. lia.
    + exists (length l1 + i), (length l1 + j). repeat split; [ | | lia ].
      * rewrite lookup_app_r by lia. replace (length l1 + i - length l1) with i by lia.
        exact Hi.
      * rewrite lookup_app_r by lia. replace (length l1 + j - length l1) with j by lia.
        exact Hj.
Qed.

Lemma leaveRoom_one_delete r u d a b :
  DeleteMember a b ∈ calls (HostElection.leaveRoom r u) d → a = r ∧ b = u.
Proof.
  assert (H : every_call (λ q, ∀ a b, q = DeleteMember a b → a = r ∧ b = u)
                (HostElection.leaveRoom r u)).
  { unfold HostElection.leaveRoom. cbn.
    repeat first
      [ apply every_ret
      | apply every_step; [ intros ? ? [=]; auto | intros ? ]
      | progress cbn
      | case_match ]. }
  intros Hin. apply every_call_calls with (d := d) in H.
  rewrite Forall_forall in H. exact (H _ Hin a b eq_refl).
Qed.

Lemma leavePresence_trace userId w :
  trace (leavePresence userId w) = trace w ++ presence_part userId w.
Proof.
  unfold leavePresence, presence_part.
  destruct (Presence.channel (presence w)); [ | rewrite app_nil_r; reflexivity ].
  destruct (Presence.tracked (presence w)); cbn -[calls run HostElection.leaveRoom];
    destruct (or_null (Presence.currentRoomId (presence w)));
    cbn -[calls run HostElection.leaveRoom]; rewrite <- ?app_assoc; reflexivity.
Qed.

Lemma delete_in_presence_part roomId userId w :
  StoreCall (DeleteMember roomId userId) ∈ presence_part userId w ↔
  presence_leaves roomId w.
Proof.
  unfold presence_part, presence_leaves.
  destruct (Presence.channel (presence w)) as [t|].
  2:{ split; [ intros H; inversion H | intros [[? H] _]; discriminate H ]. }
  rewrite !elem_of_app. split.
  - intros [H|[H|H]].
    + destruct (Presence.tracked _); [ | inversion H ].
      apply list_elem_of_singleton in H. discriminate H.
    + destruct (or_null _) as [r|]; [ | inversion H ].
      apply list_elem_of_fmap in H as (q & [= <-] & Hq).
      apply leaveRoom_one_delete in Hq as [-> _]. split; [ eauto | reflexivity ].
    + apply list_elem_of_singleton in H. discriminate H.
  - intros [_ ->]. right; left. apply list_elem_of_fmap.
    exists (DeleteMember roomId userId). split; [ reflexivity | ].
    destruct (leaveRoom_deletes_first roomId userId (database w)) as [rest ->]. left.
Qed.

Lemma bus_not_in_presence_part userId w ev :
  ev = BusPrivateUnsubscribed ∨ ev = BusRoomUnsubscribed →
  ev ∉ presence_part userId w.
Proof.
  intros Hev Hin. unfold presence_part in Hin.
  destruct (Presence.channel _); [ | inversion Hin ].
  rewrite !elem_of_app in Hin. destruct Hin as [H|[H|H]].
  - destruct (Presence.tracked _); [ | inversion H ].
    apply list_elem_of_singleton in H. destruct Hev; congruence.
  - destruct (or_null _); [ | inversion H ].
    apply list_elem_of_fmap in H as (q & E & _). destruct Hev; congruence.
  - apply list_elem_of_singleton in H. destruct Hev; congruence.
Qed.

Lemma bus_only_in_bus_part w ev l :
  ev = BusPrivateUnsubscribed ∨ ev = BusRoomUnsubscribed →
  ev ∉ peers_part w ++ (StoreCall <$> l).
Proof.
  intros Hev Hin. unfold peers_part in Hin. rewrite !elem_of_app in Hin.
  destruct Hin as [[H|H]|H].
  - apply list_elem_of_fmap in H as (q & E & _). destruct Hev; congruence.
  - destruct (roomMembersChannel w); [ | inversion H ].
    apply list_elem_of_singleton in H. destruct Hev; congruence.
  - apply list_elem_of_fmap in H as (q & E & _). destruct Hev; congruence.
Qed.

Lemma delete_not_in_bus_part w q : StoreCall q ∉ bus_part w.
Proof.
  unfold bus_part. rewrite elem_of_app. intros [H|H].
  - destruct (bus_private w); [ | inversion H ].
    apply list_elem_of_singleton in H. discriminate H.
  - destruct (bus_room w); [ | inversion H ].
    apply list_elem_of_singleton in H. discriminate H.
Qed.

Lemma delete_precedes_bus roomId userId w ev l :
  ev = BusPrivateUnsubscribed ∨ ev = BusRoomUnsubscribed →
  precedes (StoreCall (DeleteMember roomId userId)) ev
    (presence_part userId w ++ bus_part w ++ peers_part w ++ (StoreCall <$> l)) ↔
  presence_leaves roomId w ∧ ev ∈ bus_part w.
Proof.
  intros Hev. rewrite precedes_app. split.
  - intros [H|[[Hx Hy]|H]].
    + apply precedes_elem in H as [_ H].
      exfalso. exact (bus_not_in_presence_part userId w ev Hev H).
    + split; [ exact (proj1 (delete_in_presence_part roomId userId w) Hx) | ].
      apply elem_of_app in Hy as [Hy|Hy]; [ exact Hy | ].
      exfalso. exact (bus_only_in_bus_part w ev l Hev Hy).
    + apply precedes_app in H as [H|[[Hx _]|H]].
      * apply precedes_elem in H as [H _]. exfalso. exact (delete_not_in_bus_part w _ H).
      * exfalso. exact (delete_not_in_bus_part w _ Hx).
      * apply precedes_elem in H as [_ H].
        exfalso. exact (bus_only_in_bus_part w ev l Hev H).
  - intros [Hp Hb]. right; left.
    split; [ exact (proj2 (delete_in_presence_part roomId userId w) Hp) | ].
    apply elem_of_app. left. exact Hb.
Qed.

(** C9, amended: [disconnectFromRoom] runs [leavePresence],
    [closeSignaling], [cleanup] and [leaveRoom] in that order, and the
    final [leaveRoom] starts with the deletion of the caller's membership
    row, after the bus and peer steps. [leavePresence], however, itself
    calls [leaveRoom] for its current room when a presence channel is
    attached. So the caller's row of the room is deleted before a
    subscription of the signal bus is closed exactly when a presence
    channel is attached, its current room is the room being left, and a
    bus subscription is open. *)
Theorem disconnectFromRoom_order (roomId userId : string) (w : world) :
  trace w = [] →
  let t := trace (disconnectFromRoom roomId userId w) in
  t = presence_part userId w ++ bus_part w ++ peers_part w ++
      (StoreCall <$> calls (HostElection.leaveRoom roomId userId)
                       (database (leavePresence userId w))) ∧
  (∃ rest, calls (HostElection.leaveRoom roomId userId)
             (database (leavePresence userId w)) =
           DeleteMember roomId userId :: rest) ∧
  (¬ row_outlives_bus roomId userId t ↔ presence_leaves roomId w ∧ bus_open w).
Proof.
  intros Ht. cbv zeta.
  assert (E : trace (disconnectFromRoom roomId userId w) =
    presence_part userId w ++ bus_part w ++ peers_part w ++
    (StoreCall <$> calls (HostElection.leaveRoom roomId userId)
                     (database (leavePresence userId w)))).
  { unfold disconnectFromRoom, leaveRoom, cleanup, closeSignaling.
    cbn -[calls run HostElection.leaveRoom].
    rewrite leavePresence_trace, Ht.
    assert (R : bus_private (leavePresence userId w) = bus_private w ∧
                bus_room (leavePresence userId w) = bus_room w ∧
                webrtc (leavePresence userId w) = webrtc w ∧
                roomMembersChannel (leavePresence userId w) = roomMembersChannel w).
    { unfold leavePresence. repeat case_match; cbn; auto. }
    destruct R as (R1 & R2 & R3 & R4). rewrite R1, R2, R3, R4.
    unfold bus_part, peers_part. cbn. rewrite <- !app_assoc. reflexivity. }
  split; [ exact E | ]. split; [ apply leaveRoom_deletes_first | ].
  rewrite E. unfold row_outlives_bus.
  rewrite !delete_precedes_bus by auto.
  assert (B1 : BusPrivateUnsubscribed ∈ bus_part w ↔ bus_private w = true).
  { unfold bus_part. rewrite elem_of_app.
    destruct (bus_private w), (bus_room w); split; intros H;
      try reflexivity; try discriminate H;
      try (left; left; fail);
      destruct H as [H|H]; try (inversion H; fail);
      apply list_elem_of_singleton in H; discriminate H. }
  assert (B2 : BusRoomUnsubscribed ∈ bus_part w ↔ bus_room w = true).
  { unfold bus_part. rewrite elem_of_app.
    destruct (bus_private w), (bus_room w); split; intros H;
      try reflexivity; try discriminate H;
      try (right; left; fail);
      destruct H as [H|H]; try (inversion H; fail);
      apply list_elem_of_singleton in H; discriminate H. }
  rewrite B1, B2.
  assert (Pdec : presence_leaves roomId w ∨ ¬ presence_leaves roomId w).
  { unfold presence_leaves.
    destruct (Presence.channel (presence w)) as [c|];
      [ | right; intros [[? H] _]; discriminate H ].
    destruct (decide (or_null (Presence.currentRoomId (presence w)) = Some roomId))
      as [Hc|Hc]; [ left; eauto | right; intros [_ H]; contradiction ]. }
  unfold bus_open. split.
  - intros Hn. destruct Pdec as [Hp|Hp].
    + split; [ exact Hp | ].
      destruct (bus_private w); [ left; reflexivity | ].
      destruct (bus_room w); [ right; reflexivity | ].
      exfalso. apply Hn. split; intros [_ B]; discriminate B.
    + exfalso. apply Hn. split; intros [Hp' _]; contradiction.
  - intros [Hp [B|B]] [N1 N2]; [ apply N1 | apply N2 ]; auto.
Qed.

Lemma disconnectFromRoom_order_witness :
  ¬ row_outlives_bus "r" "me" (trace (disconnectFromRoom "r" "me" joined)) ↔
  presence_leaves "r" joined ∧ bus_open joined.
Proof.
  exact (proj2 (proj2 (disconnectFromRoom_order "r" "me" joined eq_refl))).
Defined.

End teardown.

(* ================================================================== *)
(** * Further code: properties *)

(* ------------------------------------------------------------------ *)
(** ** Host election, run alone *)

Section election_alone.
Import Store HostElection Election.

Lemma least_spec (us : list string) (m : string) :
  least us = Some m → m ∈ us ∧ ∀ u, u ∈ us → String.le m u.
Proof.
  revert m. induction us as [|u us IH]; intros m; [ discriminate | ].
  change (least (u :: us)) with
    (match least us with
     | None => Some u
     | Some m => if String.leb u m then Some u else Some m
     end).
  destruct (least us) as [m0|] eqn:E.
  - destruct (IH m0 eq_refl) as [Hin Hle].
    destruct (String.leb u m0) eqn:Hu; intros Hm; apply (inj Some) in Hm; subst m.
    + split; [ left | ]. intros x Hx. apply elem_of_cons in Hx as [->|Hx].
      * reflexivity.
      * transitivity m0; [ unfold String.le; rewrite Hu; exact I | apply Hle, Hx ].
    + split; [ right; exact Hin | ]. intros x Hx.
      apply elem_of_cons in Hx as [->|Hx]; [ | apply Hle, Hx ].
      destruct (total String.le m0 u) as [H|H]; [ exact H | ].
      unfold String.le in H. rewrite Hu in H. destruct H.
  - intros Hm; apply (inj Some) in Hm; subst m.
    destruct us as [|u' us'].
    + split; [ left | ]. intros x Hx.
      apply elem_of_cons in Hx as [->|Hx]; [ reflexivity | inversion Hx ].
    + change (least (u' :: us')) with
        (match least us' with
         | None => Some u'
         | Some m => if String.leb u' m then Some u' else Some m
         end) in E.
      destruct (least us') as [s|]; [ destruct (String.leb u' s) | ];
        discriminate E.
Qed.

Lemma least_None (us : list string) : least us = None ↔ us = [].
Proof.
  split; [ | intros ->; reflexivity ].
  destruct us as [|u us]; [ reflexivity | ].
  change (least (u :: us)) with
    (match least us with
     | None => Some u
     | Some m => if String.leb u m then Some u else Some m
     end).
  destruct (least us) as [m|]; [ destruct (String.leb u m) | ]; discriminate.
Qed.

Ltac run_store Hr :=
  repeat first
    [ rewrite Hr
    | rewrite lookup_insert_eq
    | progress cbn
    | progress (unfold truthy, or_null)
    | case_bool_decide ].

(** X1: [electHost] run without interference answers [true] exactly when
    the candidate is the recorded owner afterwards. It answers [false],
    and then leaves the store untouched, exactly when another id is
    recorded that still has a membership row (or is the empty string);
    membership rows are never changed. *)
Theorem electHost_alone (roomId userId : string) (d : db) :
  userId ≠ "" →
  let r := run (electHost roomId userId) d in
  (r.1 = true ↔ owner_of roomId r.2 = Some userId) ∧
  room_members r.2 = room_members d ∧
  (r.1 = false → r.2 = d) ∧
  (r.1 = false ↔
     ∃ h, owner_of roomId d = Some h ∧ h ≠ userId ∧
          (h = "" ∨ (roomId, h) ∈ room_members d)).
Proof.
  intros Hu. cbv zeta. unfold electHost, getCurrentHost, owner_of. cbn.
  destruct (rooms d !! roomId) as [[nm [h|]]|] eqn:Hr; run_store Hr;
    repeat split; try (intuition (eauto; congruence));
    try (intros (h' & E & _); congruence).
  all: try (intros (h0 & E & Hne & Hc); apply (inj Some) in E; subst h0;
            destruct Hc; try congruence; try contradiction; fail).
  all: intros _; exists h; split; [ reflexivity | ]; split; [ congruence | tauto ].
Qed.

Lemma electHost_alone_witness :
  (run (electHost "r" "b") host_gone).1 = true ∧
  owner_of "r" (run (electHost "r" "b") host_gone).2 = Some "b".
Proof.
  assert (H := electHost_alone "r" "b" host_gone ltac:(discriminate)).
  cbv zeta in H. destruct H as (H1 & _ & _ & H4).
  assert (E : (run (electHost "r" "b") host_gone).1 = true) by (vm_compute; reflexivity).
  split; [ exact E | apply H1, E ].
Defined.

(** X2: [transferHost] run without interference answers [true] exactly
    when [fromUserId] is the recorded (non-empty) owner and [toUserId] has
    a membership row; the owner is then [toUserId]. In every other case
    the store is left as it was. *)
Theorem transferHost_alone (roomId fromUserId toUserId : string) (d : db) :
  let r := run (transferHost roomId fromUserId toUserId) d in
  (r.1 = true ↔
     owner_of roomId d = Some fromUserId ∧ fromUserId ≠ "" ∧
     (roomId, toUserId) ∈ room_members d) ∧
  (r.1 = true → owner_of roomId r.2 = Some toUserId) ∧
  (r.1 = false → r.2 = d) ∧
  room_members r.2 = room_members d.
Proof.
  cbv zeta. unfold transferHost, getCurrentHost, owner_of. cbn.
  destruct (rooms d !! roomId) as [[nm [h|]]|] eqn:Hr; run_store Hr;
    repeat split; try (intuition (eauto; congruence)).
Qed.

Lemma members_of_delete roomId userId d :
  ∀ u, u ∈ members_of roomId
             {| rooms := rooms d;
                room_members := room_members d ∖ {[ (roomId, userId) ]} |}
       ↔ (roomId, u) ∈ room_members d ∧ u ≠ userId.
Proof.
  intros u. rewrite elem_of_members_of. cbn.
  rewrite elem_of_difference, elem_of_singleton. split.
  - intros [H1 H2]. split; [ exact H1 | ]. intros ->. apply H2. reflexivity.
  - intros [H1 H2]. split; [ exact H1 | ]. intros E. apply H2. congruence.
Qed.

(** X3: [leaveRoom] run without interference always removes the caller's
    membership row. If the caller was not the recorded owner, the room
    rows are untouched. If it was, the owner afterwards is the smallest
    remaining member id in string order, or null when no member remains
    (or the smallest id is the empty string). *)
Theorem leaveRoom_hands_off (roomId userId : string) (d : db) :
  let d' := (run (leaveRoom roomId userId) d).2 in
  let rest := members_of roomId d' in
  room_members d' = room_members d ∖ {[ (roomId, userId) ]} ∧
  (owner_of roomId d ≠ Some userId → rooms d' = rooms d) ∧
  (owner_of roomId d = Some userId →
     (∀ u, u ∈ rest ↔ (roomId, u) ∈ room_members d ∧ u ≠ userId) ∧
     (rest = [] → owner_of roomId d' = None) ∧
     (∀ m, least rest = Some m →
           m ∈ rest ∧ (∀ u, u ∈ rest → String.le m u) ∧
           owner_of roomId d' = or_null (Some m))).
Proof.
  cbv zeta. split; [ apply leaveRoom_removes_row | ].
  unfold leaveRoom, owner_of, first_candidate. cbn.
  set (d1 := {| rooms := rooms d;
                room_members := room_members d ∖ {[ (roomId, userId) ]} |}).
  destruct (rooms d !! roomId) as [[nm o]|] eqn:Hr; cbn.
  - case_bool_decide as Ho; cbn.
    + subst o. split; [ intros H; congruence | intros _ ].
      assert (Hrest : ∀ d2, room_members d2 = room_members d1 →
                        members_of roomId d2 = members_of roomId d1).
      { intros d2 E. unfold members_of. rewrite E. reflexivity. }
      destruct (least (members_of roomId d1)) as [m|] eqn:Hl; cbn.
      * destruct (truthy m) eqn:Hm; cbn; rewrite Hr; cbn;
          rewrite ?bool_decide_eq_true_2 by reflexivity; cbn;
          (rewrite Hrest by reflexivity);
          (split; [ apply members_of_delete | ]);
          (split; [ intros E; rewrite E in Hl; discriminate Hl | ]);
          intros m' Hm'; rewrite Hl in Hm'; apply (inj Some) in Hm'; subst m';
          destruct (least_spec _ _ Hl) as [H1 H2];
          (split; [ exact H1 | split; [ exact H2 | ] ]);
          rewrite lookup_insert_eq; cbn; unfold or_null; rewrite Hm; reflexivity.
      * rewrite Hr. cbn. rewrite Hrest by reflexivity.
        split; [ apply members_of_delete | ].
        split; [ intros _; rewrite lookup_insert_eq; reflexivity | ].
        intros m' Hm'. rewrite Hl in Hm'. discriminate Hm'.
    + split; [ reflexivity | intros H; congruence ].
  - split; [ reflexivity | intros H; discriminate H ].
Qed.

(** X4: [joinRoom] run without interference never throws, leaves the
    caller with a membership row and the room existing, and never replaces
    an owner that is already recorded. When the caller had no membership
    row before, the room has an owner afterwards, and it is the caller if
    none was recorded. *)
Theorem joinRoom_effect (roomId userId : string) (roomName : option string) (d : db) :
  let r := joinRoom roomId userId roomName d in
  r.1 = inr tt ∧
  room_members r.2 = {[ (roomId, userId) ]} ∪ room_members d ∧
  is_Some (rooms r.2 !! roomId) ∧
  (∀ h, owner_of roomId d = Some h → owner_of roomId r.2 = Some h) ∧
  ((roomId, userId) ∉ room_members d →
     owner_of roomId d = None → owner_of roomId r.2 = Some userId).
Proof.
  cbv zeta. unfold joinRoom, insert_member, owner_of. cbn.
  assert (Hsame : (roomId, userId) ∈ room_members d →
            room_members d = {[ (roomId, userId) ]} ∪ room_members d).
  { intros Hin. apply set_eq. intros x. rewrite elem_of_union, elem_of_singleton.
    split; [ auto | intros [->|H]; assumption ]. }
  destruct (rooms d !! roomId) as [[nm o]|] eqn:Hr; cbn.
  - destruct (bool_decide ((roomId, userId) ∈ room_members d)) eqn:Hm; cbn.
    + apply bool_decide_eq_true_1 in Hm. rewrite Hr. cbn.
      split; [ reflexivity | ]. split; [ apply Hsame, Hm | ].
      split; [ eauto | ]. split; [ tauto | ]. intros Hn. contradiction.
    + rewrite Hr. cbn. destruct o as [h|]; cbn.
      * rewrite Hr. cbn.
        split; [ reflexivity | ]. split; [ reflexivity | ].
        split; [ eauto | ]. split; [ tauto | ]. intros _ H. discriminate H.
      * rewrite lookup_insert_eq. cbn.
        split; [ reflexivity | ]. split; [ reflexivity | ].
        split; [ eauto | ]. split; [ intros h H; discriminate H | ]. reflexivity.
  - destruct (bool_decide ((roomId, userId) ∈ room_members d)) eqn:Hm; cbn.
    + apply bool_decide_eq_true_1 in Hm. rewrite lookup_insert_eq. cbn.
      split; [ reflexivity | ]. split; [ apply Hsame, Hm | ].
      split; [ eauto | ]. split; [ intros h H; discriminate H | ].
      intros Hn. contradiction.
    + rewrite lookup_insert_eq. cbn. rewrite lookup_insert_eq. cbn.
      split; [ reflexivity | ]. split; [ reflexivity | ].
      split; [ eauto | ]. split; [ intros h H; discriminate H | ]. reflexivity.
Qed.

(** X5: the fallback leader of [computeHostFromPresence] is the smallest
    id in the presence view; there is none exactly when the view lists no
    id (or could not be read). *)
Theorem computeHostFromPresence_least (view : option Presence.presenceState) :
  (computeHostFromPresence view = None ↔
     ∀ st, view = Some st → Presence.presentUserIds st = ∅) ∧
  (∀ st m, view = Some st → computeHostFromPresence view = Some m →
           m ∈ Presence.presentUserIds st ∧
           ∀ u, u ∈ Presence.presentUserIds st → String.le m u).
Proof.
  destruct view as [st|]; cbn.
  - split.
    + rewrite least_None. split.
      * intros H st' E. apply (inj Some) in E. subst st'.
        apply elements_empty_inv in H. apply leibniz_equiv. exact H.
      * intros H. rewrite (H st eq_refl). apply elements_empty.
    + intros st' m E Hm. apply (inj Some) in E. subst st'.
      destruct (least_spec _ _ Hm) as [H1 H2]. split.
      * apply elem_of_elements. exact H1.
      * intros u Hu. apply H2, elem_of_elements, Hu.
  - split; [ split; [ intros _ st E; discriminate E | reflexivity ] | ].
    intros st m E. discriminate E.
Qed.

(** X6: [amIHost] run without interference. While another id with a
    membership row is recorded, it answers [false] and writes nothing.
    When no owner is recorded, or the caller is, or the recorded one has no
    membership row, it answers [true] and the caller is the recorded owner
    afterwards. The presence leader decides only in the remaining case, an
    owner recorded as the empty string, and the store is then untouched. *)
Theorem amIHost_alone (roomId userId : string)
    (view : option Presence.presenceState) (d : db) :
  userId ≠ "" →
  let r := run (amIHost roomId userId view) d in
  (∀ h, owner_of roomId d = Some h → h ≠ "" → h ≠ userId →
        (roomId, h) ∈ room_members d → r.1 = false ∧ r.2 = d) ∧
  (owner_of roomId d = None ∨ owner_of roomId d = Some userId ∨
   (∃ h, owner_of roomId d = Some h ∧ h ≠ "" ∧ (roomId, h) ∉ room_members d) →
   r.1 = true ∧ owner_of roomId r.2 = Some userId) ∧
  (owner_of roomId d = Some "" →
   r.2 = d ∧ (r.1 = true ↔ computeHostFromPresence view = Some userId)).
Proof.
  intros Hu. cbv zeta. unfold amIHost, electHost, getCurrentHost, owner_of. cbn.
  split; [ | split ].
  - intros h Ho Hh Hne Hin.
    destruct (rooms d !! roomId) as [[nm o]|] eqn:Hr; cbn in Ho; [ | discriminate Ho ].
    subst o. run_store Hr; try tauto; try congruence.
  - intros Ho.
    destruct (rooms d !! roomId) as [[nm [h|]]|] eqn:Hr; cbn in Ho;
      run_store Hr; try tauto; try congruence;
      try (destruct Ho as [Ho|[Ho|(h0 & Ho & Hh & Hn)]];
           try discriminate Ho; apply (inj Some) in Ho; subst; tauto || congruence).
  - intros Ho.
    destruct (rooms d !! roomId) as [[nm o]|] eqn:Hr; cbn in Ho; [ | discriminate Ho ].
    subst o. run_store Hr; try tauto; try congruence.
    all: split; [ reflexivity | ]; split; intros E;
      first [ assumption | reflexivity | discriminate E | contradiction ].
Qed.

Lemma amIHost_alone_witness :
  (run (amIHost "r" "me" None) stale_rows).1 = false ∧
  (run (amIHost "r" "me" None) stale_rows).2 = stale_rows.
Proof.
  refine (proj1 (amIHost_alone "r" "me" None stale_rows _) "h" _ _ _ _).
  - discriminate.
  - reflexivity.
  - discriminate.
  - discriminate.
  - apply (bool_decide_unpack _). vm_compute. exact I.
Defined.

End election_alone.

(* ------------------------------------------------------------------ *)
(** ** Two members reclaim a stale host *)

Ltac simp_reclaim H Hrow Ha Hb Hh Hn :=
  repeat first
    [ rewrite Hrow in H
    | rewrite lookup_insert_eq in H
    | rewrite (bool_decide_eq_true_2 _ Ha) in H
    | rewrite (bool_decide_eq_true_2 _ Hb) in H
    | rewrite (bool_decide_eq_true_2 _ Hh) in H
    | rewrite (bool_decide_eq_false_2 _ Hn) in H
    | progress (cbn in H)
    | progress (unfold truthy, Sched.record, Sched.applies, Store.owner_of in H)
    | discriminate H
    | match type of H with
      | context [@bool_decide (?x ≠ "") ?dec] =>
          destruct (@bool_decide_reflect (x ≠ "") dec)
      end
    | match type of H with
      | context [@bool_decide ?P ?dec] =>
          destruct (@bool_decide_reflect P dec); try congruence
      end ].

Ltac reclaim_leaf H :=
  cbn [Sched.interleave] in H; injection H; clear H; intros H; subst;
  split; [ simpl; lia | ];
  intros [F1 F2]; cbn in F1, F2; try contradiction;
  unfold one_reclaims, reclaimed, Store.owner_of; cbn;
  rewrite ?lookup_insert_eq; cbn;
  first [ left; repeat split; congruence | right; repeat split; congruence ].

Ltac explore_reclaim n sch H Hrow Ha Hb Hh Hn :=
  simp_reclaim H Hrow Ha Hb Hh Hn;
  lazymatch n with
  | O => idtac
  | S ?m =>
      destruct sch as [|[] sch];
      [ reclaim_leaf H
      | cbn [Sched.interleave Sched.serve Sched.first Sched.second
             Sched.store Sched.applied] in H;
        explore_reclaim m sch H Hrow Ha Hb Hh Hn
      | cbn [Sched.interleave Sched.serve Sched.first Sched.second
             Sched.store Sched.applied] in H;
        explore_reclaim m sch H Hrow Ha Hb Hh Hn ]
  end.

Section stale_reclaim.
Import Store HostElection Sched.

Lemma electHost_reclaim_schedules (d : db) roomId h a b row :
  a ≠ b → rooms d !! roomId = Some row → owner row = Some h → h ≠ "" →
  (roomId, h) ∉ room_members d →
  (roomId, a) ∈ room_members d → (roomId, b) ∈ room_members d →
  ∀ sch s,
    interleave sch (start (electHost roomId a) (electHost roomId b) d) = Some s →
    length sch ≤ 8 ∧ (finished s → one_reclaims roomId h a b s).
Proof.
  intros Hab Hrow Hown Hh Hn Ha Hb sch s H.
  assert (Hha : h ≠ a) by (intros ->; contradiction).
  assert (Hhb : h ≠ b) by (intros ->; contradiction).
  destruct row as [nm o]; simpl in Hown; subst o.
  unfold start, electHost, getCurrentHost in H.
  explore_reclaim 9 sch H Hrow Ha Hb Hh Hn.
Qed.

(** X7: a room records an owner [h] that has no membership row, and two
    distinct members call [electHost] concurrently. However the store
    orders their round trips, the calls end within eight round trips and
    exactly one write is applied: one member is the recorded owner and got
    [true], the other got [false]. *)
Theorem electHost_stale_reclaim (d : db) roomId h a b row :
  a ≠ b → rooms d !! roomId = Some row → owner row = Some h → h ≠ "" →
  (roomId, h) ∉ room_members d →
  (roomId, a) ∈ room_members d → (roomId, b) ∈ room_members d →
  ∀ sch s,
    interleave sch (start (electHost roomId a) (electHost roomId b) d) = Some s →
    length sch ≤ 8 ∧
    (finished s → one_reclaims roomId h a b s) ∧
    (¬ finished s → ∃ w s', serve w s = Some s').
Proof.
  intros Hab Hrow Hown Hh Hn Ha Hb sch s H.
  destruct (electHost_reclaim_schedules d roomId h a b row
              Hab Hrow Hown Hh Hn Ha Hb sch s H) as [Hlen Hfin].
  repeat split; [ exact Hlen | exact Hfin | apply serve_unfinished ].
Qed.

Lemma electHost_stale_reclaim_witness :
  ∃ s, interleave [First; Second; First; Second; First; Second]
         (start (electHost "r" "m") (electHost "r" "z") host_gone) = Some s ∧
       finished s ∧ one_reclaims "r" "h" "m" "z" s.
Proof.
  eexists. split; [ vm_compute; reflexivity | ].
  split; [ split; exact I | ].
  refine (proj1 (proj2 (electHost_stale_reclaim host_gone "r" "h" "m" "z"
             {| room_name := "R"; owner := Some "h" |} _ _ _ _ _ _ _
             [First; Second; First; Second; First; Second] _ _)) _).
  - discriminate.
  - reflexivity.
  - reflexivity.
  - discriminate.
  - apply (bool_decide_unpack _). vm_compute. exact I.
  - apply (bool_decide_unpack _). vm_compute. exact I.
  - apply (bool_decide_unpack _). vm_compute. exact I.
  - vm_compute; reflexivity.
  - split; exact I.
Defined.

End stale_reclaim.

(* ------------------------------------------------------------------ *)
(** ** Closing peers *)

Section closing.
Import Webrtc.

Lemma delete_set_eq {V} k (v : V) l :
  JsMap.delete k (JsMap.set k v l) = JsMap.delete k l.
Proof.
  induction l as [|[k' v'] l IH]; cbn.
  - destruct (decide (k = k)); [ reflexivity | congruence ].
  - destruct (decide (k = k')) as [->|Hne]; cbn.
    + destruct (decide (k' = k')); [ reflexivity | congruence ].
    + destruct (decide (k = k')); [ congruence | ]. rewrite IH. reflexivity.
Qed.

Lemma get_delete_ne {V} k k' (l : list (string * V)) :
  k ≠ k' → JsMap.get k' (JsMap.delete k l) = JsMap.get k' l.
Proof.
  intros Hne. induction l as [|[k0 v0] l IH]; cbn; [ reflexivity | ].
  destruct (decide (k = k0)) as [->|Hk]; cbn.
  - destruct (decide (k' = k0)); [ congruence | exact IH ].
  - destruct (decide (k' = k0)); [ reflexivity | exact IH ].
Qed.

Lemma keys_delete {V} k k' (l : list (string * V)) :
  k' ∈ (JsMap.delete k l).*1 → k' ∈ l.*1 ∧ k' ≠ k.
Proof.
  induction l as [|[k0 v0] l IH]; cbn; [ intros H; inversion H | ].
  destruct (decide (k = k0)) as [->|Hk]; cbn.
  - intros H. destruct (IH H) as [H1 H2]. split; [ right; exact H1 | exact H2 ].
  - intros H. apply elem_of_cons in H as [->|H].
    + split; [ left | congruence ].
    + destruct (IH H) as [H1 H2]. split; [ right; exact H1 | exact H2 ].
Qed.

Lemma updatePeerState_peers p st err m :
  peerConnections (updatePeerState p st err m) =
  match JsMap.get p (peerConnections m) with
  | Some conn =>
      JsMap.set p
        {| pc := pc conn; dc := dc conn; state := st;
           retryCount := if decide (st = connected) then 0 else retryCount conn;
           lastError := match or_null err with
                        | Some e => Some e
                        | None => lastError conn
                        end |} (peerConnections m)
  | None =>
      if decide (st = closed) then peerConnections m
      else JsMap.set p {| pc := None; dc := None; state := st; retryCount := 0;
                          lastError := or_null err |} (peerConnections m)
  end.
Proof.
  unfold updatePeerState.
  destruct (JsMap.get p (peerConnections m)); [ | destruct (decide (st = closed)) ];
    case_bool_decide; reflexivity.
Qed.

Lemma updatePeerState_rest p st err m :
  sessions (updatePeerState p st err m) = sessions m ∧
  pendingCandidates (updatePeerState p st err m) = pendingCandidates m ∧
  currentHostId (updatePeerState p st err m) = currentHostId m ∧
  autoConnectEnabled (updatePeerState p st err m) = autoConnectEnabled m.
Proof. unfold updatePeerState. repeat case_match; auto. Qed.

Lemma closePeer_peers p m :
  peerConnections (closePeer p m) = JsMap.delete p (peerConnections m).
Proof.
  unfold closePeer. cbn.
  destruct (JsMap.get p (peerConnections m)) as [conn|] eqn:Hget; [ | reflexivity ].
  rewrite updatePeerState_peers.
  assert (E : peerConnections (close_session (pc conn) m) = peerConnections m)
    by (destruct (pc conn); reflexivity).
  rewrite E, Hget. apply delete_set_eq.
Qed.

Lemma closePeer_pending p m :
  pendingCandidates (closePeer p m) = delete p (pendingCandidates m).
Proof.
  unfold closePeer. cbn.
  destruct (JsMap.get p (peerConnections m)) as [conn|]; [ | reflexivity ].
  destruct (updatePeerState_rest p closed None (close_session (pc conn) m))
    as (_ & -> & _). destruct (pc conn); reflexivity.
Qed.

Lemma closePeer_outbox p m : outbox (closePeer p m) = outbox m.
Proof.
  unfold closePeer. cbn.
  destruct (JsMap.get p (peerConnections m)) as [conn|]; [ | reflexivity ].
  destruct (updatePeerState_vars p closed None (close_session (pc conn) m))
    as (_ & _ & ->). destruct (pc conn); reflexivity.
Qed.

(** X8: [closePeer] removes the entry and the pending queue of the peer,
    closes the engine session the entry held, and touches no other peer's
    entry or queue and no outgoing signal. *)
Theorem closePeer_effect (p : string) (m : manager) :
  let m' := closePeer p m in
  JsMap.get p (peerConnections m') = None ∧
  pendingCandidates m' !! p = None ∧
  (∀ q, q ≠ p →
        JsMap.get q (peerConnections m') = JsMap.get q (peerConnections m) ∧
        pendingCandidates m' !! q = pendingCandidates m !! q) ∧
  (∀ conn h s, JsMap.get p (peerConnections m) = Some conn → pc conn = Some h →
               sessions m !! h = Some s →
               pc_closed <$> sessions m' !! h = Some true) ∧
  outbox m' = outbox m.
Proof.
  cbv zeta. rewrite closePeer_peers, closePeer_pending, closePeer_outbox.
  split; [ apply get_delete_eq | ]. split; [ apply lookup_delete_eq | ].
  split; [ | split; [ | reflexivity ] ].
  - intros q Hq. split; [ apply get_delete_ne; congruence | ].
    apply lookup_delete_ne. congruence.
  - intros conn h s Hget Hpc Hs. unfold closePeer. rewrite Hget. cbn.
    destruct (updatePeerState_rest p closed None (close_session (pc conn) m))
      as (-> & _). rewrite Hpc. cbn.
    rewrite list_lookup_alter_eq, Hs. reflexivity.
Qed.

Lemma cleanup_fold l m :
  peerConnections (foldl (λ m p, closePeer p m) m l) =
    foldl (λ l' p, JsMap.delete p l') (peerConnections m) l ∧
  pendingCandidates (foldl (λ m p, closePeer p m) m l) =
    foldl (λ pm p, delete p pm) (pendingCandidates m) l ∧
  outbox (foldl (λ m p, closePeer p m) m l) = outbox m.
Proof.
  revert m. induction l as [|p l IH]; intros m; cbn; [ auto | ].
  destruct (IH (closePeer p m)) as (H1 & H2 & H3).
  rewrite H1, H2, H3, closePeer_peers, closePeer_pending, closePeer_outbox. auto.
Qed.

Lemma delete_all_keys {V} (l : list string) (l0 : list (string * V)) :
  (∀ k, k ∈ l0.*1 → k ∈ l) →
  foldl (λ l' p, JsMap.delete p l') l0 l = [].
Proof.
  revert l0. induction l as [|p l IH]; intros l0 H; cbn.
  - destruct l0 as [|[k v] l0]; [ reflexivity | ].
    specialize (H k ltac:(left)). inversion H.
  - apply IH. intros k Hk. apply keys_delete in Hk as [Hk Hne].
    specialize (H k Hk). apply elem_of_cons in H as [->|H]; [ congruence | exact H ].
Qed.

Lemma delete_all_lookup (l : list string) (pm : gmap string (list candidate)) p :
  foldl (λ pm p, delete p pm) pm l !! p =
  if decide (p ∈ l) then None else pm !! p.
Proof.
  revert pm. induction l as [|q l IH]; intros pm; cbn.
  - destruct (decide (p ∈ [])) as [H|_]; [ inversion H | reflexivity ].
  - rewrite IH. destruct (decide (p ∈ l)) as [Hl|Hl].
    + destruct (decide (p ∈ q :: l)) as [_|Hn]; [ reflexivity | ].
      exfalso. apply Hn. right. exact Hl.
    + destruct (decide (p = q)) as [->|Hpq].
      * rewrite lookup_delete_eq.
        destruct (decide (q ∈ q :: l)) as [_|Hn]; [ reflexivity | ].
        exfalso. apply Hn. left.
      * rewrite lookup_delete_ne by congruence.
        destruct (decide (p ∈ q :: l)) as [Hin|_]; [ | reflexivity ].
        apply elem_of_cons in Hin as [->|Hin]; [ congruence | contradiction ].
Qed.

(** X9: after [cleanup] no peer connection is left, the pending queue of
    every peer that had an entry is gone (queues of peers without entry
    stay), and no signal was sent. *)
Theorem cleanup_closes_all (m : manager) :
  peerConnections (cleanup m) = [] ∧
  (∀ p, pendingCandidates (cleanup m) !! p =
        if decide (p ∈ (peerConnections m).*1) then None
        else pendingCandidates m !! p) ∧
  outbox (cleanup m) = outbox m.
Proof.
  unfold cleanup.
  destruct (cleanup_fold (peerConnections m).*1 m) as (-> & -> & ->).
  split; [ apply delete_all_keys; auto | ].
  split; [ intros p; apply delete_all_lookup | reflexivity ].
Qed.

End closing.

(* ------------------------------------------------------------------ *)
(** ** webrtc.ts: dialling and the ICE callbacks *)

Section dialling.
Import Webrtc Manager.

Lemma append_nonempty a s t : truthy (String a s +:+ t) = true.
Proof. unfold truthy. apply bool_decide_eq_true_2. discriminate. Qed.

Lemma failed_recorded p msg m :
  is_Some (JsMap.get p (peerConnections m)) →
  ∀ pre a s, pre = String a s →
  peer_state p (updatePeerState p failed (Some (pre +:+ msg)) m) = failed ∧
  lastError <$> JsMap.get p (peerConnections (updatePeerState p failed (Some (pre +:+ msg)) m)) =
    Some (Some (pre +:+ msg)).
Proof.
  intros [c Hc] pre a s ->. split.
  - apply updatePeerState_state. left. eauto.
  - rewrite updatePeerState_peers, Hc, get_set_eq. cbn.
    unfold or_null. rewrite append_nonempty. reflexivity.
Qed.

(** X10: when the first failing call on the dialling path ([createOffer],
    [setLocalDescription], the bus send unless the signal is addressed to
    oneself, the wait when asked for) throws [msg], [connectToPeer]
    rethrows [msg], leaves the peer in [failed] and records
    "Failed to create offer: msg" as its last error. *)
Theorem connectToPeer_failure e peerId w m me msg :
  myUserId m = Some me → truthy me = true → isHost m = true →
  established (JsMap.get peerId (peerConnections m)) = false →
  in_state connecting (JsMap.get peerId (peerConnections m)) = false →
  fresh_signalingState_closed e = false →
  dial_failure e (negb (bool_decide (peerId = me))) w = Some msg →
  let r := connectToPeer e peerId w m in
  r.1 = inl msg ∧
  peer_state peerId r.2 = failed ∧
  lastError <$> JsMap.get peerId (peerConnections r.2) =
    Some (Some ("Failed to create offer: " +:+ msg)).
Proof.
  intros Hme Ht Hh He Hc F1 Hf. cbv zeta.
  unfold connectToPeer, mbind, M_bind, gets, initialized.
  cbn. rewrite Hme, Ht. cbn. rewrite Hh. cbn. rewrite He, Hc. cbn.
  unfold modify, createPeerConnection. rewrite F1. cbn.
  unfold try_catch, mbind, M_bind, dial_failure in *.
  assert (Fin : ∀ m0 : manager, is_Some (JsMap.get peerId (peerConnections m0)) →
     let m1 := updatePeerState peerId failed (Some ("Failed to create offer: " +:+ msg)) m0 in
     peer_state peerId m1 = failed ∧
     lastError <$> JsMap.get peerId (peerConnections m1) =
       Some (Some ("Failed to create offer: " +:+ msg))).
  { intros m0 [c Hc0]. cbv zeta. split.
    - apply updatePeerState_state. left. eauto.
    - rewrite updatePeerState_peers, Hc0, get_set_eq. cbn.
      unfold or_null. rewrite append_nonempty. reflexivity. }
  destruct (createOffer e) as [x|] eqn:F2; cbn.
  { apply (inj Some) in Hf. subst x. split; [ reflexivity | ].
    apply Fin. cbn. rewrite get_set_eq. eauto. }
  destruct (setLocalDescription e) as [x|] eqn:F3; cbn.
  { apply (inj Some) in Hf. subst x. split; [ reflexivity | ].
    apply Fin. cbn. rewrite get_set_eq. eauto. }
  assert (Hex : ∀ m0 st, is_Some (JsMap.get peerId (peerConnections m0)) →
            is_Some (JsMap.get peerId (peerConnections (updatePeerState peerId st None m0)))).
  { intros m0 st [c Hc0]. rewrite updatePeerState_peers, Hc0, get_set_eq. eauto. }
  unfold sendSignal.
  match goal with
  | |- context [or_null (myUserId ?mc)] =>
      assert (Hv : myUserId mc = Some me ∧ is_Some (JsMap.get peerId (peerConnections mc)))
  end.
  { split.
    - destruct (updatePeerState_vars peerId connecting None
        (with_sessions
           (alter (λ s, {| remoteDescription := remoteDescription s;
                           localDescription := Some (local_sdp e);
                           iceCandidates := iceCandidates s;
                           pc_closed := pc_closed s |})
              (length (sessions (updatePeerState peerId offering None m))))
           (with_peerConnections
              (JsMap.set peerId
                 {| pc := Some (length (sessions (updatePeerState peerId offering None m)));
                    dc := Some rs_connecting; state := offering;
                    retryCount := 0; lastError := None |})
              (with_pendingCandidates (<[peerId := []]>)
                 (with_sessions (λ ss, ss ++ [new_session])
                    (updatePeerState peerId offering None m)))))) as (V1 & _).
      rewrite V1. cbn.
      destruct (updatePeerState_vars peerId offering None m) as (W1 & _).
      rewrite W1. exact Hme.
    - apply Hex. cbn. rewrite get_set_eq. eauto. }
  destruct Hv as [V1 V2]. rewrite V1. cbn. rewrite Ht.
  destruct (decide (peerId = me)) as [E|E].
  - rewrite (bool_decide_eq_true_2 _ E) in Hf. cbn in Hf.
    destruct w; [ | discriminate Hf ]. rewrite Hf. cbn.
    split; [ reflexivity | ]. apply Fin. exact V2.
  - rewrite (bool_decide_eq_false_2 _ E) in Hf. cbn in Hf.
    destruct (bus_send e) as [x|] eqn:F4; cbn.
    + apply (inj Some) in Hf. subst x. split; [ reflexivity | ]. apply Fin. exact V2.
    + destruct w; [ | discriminate Hf ]. rewrite Hf. cbn.
      split; [ reflexivity | ]. apply Fin. cbn. exact V2.
Qed.

Lemma connectToPeer_failure_witness :
  (connectToPeer bus_down "p" false host_me).1 = inl "send failed" ∧
  peer_state "p" (connectToPeer bus_down "p" false host_me).2 = failed ∧
  lastError <$> JsMap.get "p" (peerConnections (connectToPeer bus_down "p" false host_me).2) =
    Some (Some ("Failed to create offer: " +:+ "send failed")).
Proof.
  apply (connectToPeer_failure bus_down "p" false host_me "me" "send failed");
    reflexivity.
Defined.

Lemma set_set {V} k (v w : V) l : JsMap.set k w (JsMap.set k v l) = JsMap.set k w l.
Proof.
  induction l as [|[k' v'] l IH]; cbn.
  - destruct (decide (k = k)); [ reflexivity | congruence ].
  - destruct (decide (k = k')) as [->|Hne]; cbn.
    + destruct (decide (k' = k')); [ reflexivity | congruence ].
    + destruct (decide (k = k')); [ congruence | ]. rewrite IH. reflexivity.
Qed.

Lemma connectToPeer_fresh e p m me :
  myUserId m = Some me → truthy me = true → me ≠ p → isHost m = true →
  JsMap.get p (peerConnections m) = None →
  dial_succeeds e →
  ∃ m', connectToPeer e p false m = (inr tt, m') ∧
        peerConnections m' = JsMap.set p (dialled (length (sessions m))) (peerConnections m) ∧
        outbox m' = outbox m ++ [offer_for e me p] ∧
        myUserId m' = Some me ∧ isHost m' = true ∧
        currentHostId m' = currentHostId m.
Proof.
  intros Hme Ht Hne Hh Hget (F1 & F2 & F3 & F4).
  unfold connectToPeer, mbind, M_bind, gets, initialized.
  cbn. rewrite Hme, Ht. cbn. rewrite Hh. cbn. rewrite Hget. cbn.
  unfold modify, createPeerConnection. rewrite F1. cbn.
  unfold try_catch, mbind, M_bind. rewrite F2, F3. cbn.
  unfold sendSignal.
  set (m4 := updatePeerState p connecting None _).
  destruct (updatePeerState_vars p connecting None
    (with_sessions (alter (λ s, {| remoteDescription := remoteDescription s;
        localDescription := Some (local_sdp e); iceCandidates := iceCandidates s;
        pc_closed := pc_closed s |}) (length (sessions (updatePeerState p offering None m))))
      (with_peerConnections (JsMap.set p {| pc := Some (length (sessions (updatePeerState p offering None m)));
           dc := Some rs_connecting; state := offering; retryCount := 0; lastError := None |})
        (with_pendingCandidates <[p:=[]]>
          (with_sessions (λ ss, ss ++ [new_session]) (updatePeerState p offering None m))))))
    as (V1 & V2 & V3).
  fold m4 in V1, V2, V3. cbn in V1, V2, V3.
  destruct (updatePeerState_vars p offering None m) as (W1 & W2 & W3).
  destruct (updatePeerState_rest p offering None m) as (R1 & _ & R3 & _).
  rewrite W1 in V1. rewrite W2 in V2. rewrite W3 in V3.
  rewrite V1, Hme. unfold or_null. rewrite Ht.
  destruct (decide (p = me)) as [->|_]; [ congruence | ].
  rewrite F4. cbn. eexists. split; [ reflexivity | ]. cbn.
  split.
  { unfold m4. rewrite updatePeerState_peers. cbn. rewrite get_set_eq. cbn.
    rewrite set_set. rewrite updatePeerState_peers, Hget.
    destruct (decide (offering = closed)); [ discriminate | ].
    rewrite set_set, R1. destruct (decide (connecting = connected)); reflexivity. }
  split; [ rewrite V3; reflexivity | ].
  split; [ rewrite V1; exact Hme | ].
  split; [ rewrite V2; exact Hh | ].
  unfold m4.
  destruct (updatePeerState_rest p connecting None
    (with_sessions (alter (λ s, {| remoteDescription := remoteDescription s;
        localDescription := Some (local_sdp e); iceCandidates := iceCandidates s;
        pc_closed := pc_closed s |}) (length (sessions (updatePeerState p offering None m))))
      (with_peerConnections (JsMap.set p {| pc := Some (length (sessions (updatePeerState p offering None m)));
           dc := Some rs_connecting; state := offering; retryCount := 0; lastError := None |})
        (with_pendingCandidates <[p:=[]]>
          (with_sessions (λ ss, ss ++ [new_session]) (updatePeerState p offering None m))))))
    as (_ & _ & -> & _).
  cbn. exact R3.
Qed.

Lemma NoDup_members_of room d : NoDup (Store.members_of room d).
Proof.
  unfold Store.members_of. apply NoDup_fmap_2_strong; [ | apply NoDup_elements ].
  intros [r1 u1] [r2 u2] H1 H2 E. cbn in E. subst u2.
  apply elem_of_elements, elem_of_filter in H1 as [H1 _].
  apply elem_of_elements, elem_of_filter in H2 as [H2 _].
  cbn in H1, H2. congruence.
Qed.

Lemma dial_all_fresh e ps : ∀ m me,
  myUserId m = Some me → truthy me = true → isHost m = true → dial_succeeds e →
  NoDup ps →
  (∀ p, p ∈ ps → p ≠ me ∧ JsMap.get p (peerConnections m) = None) →
  ∃ m', dial_all e ps m = (inr tt, m') ∧
        outbox m' = outbox m ++ (offer_for e me <$> ps) ∧
        myUserId m' = Some me ∧ isHost m' = true ∧
        currentHostId m' = currentHostId m ∧
        (∀ p, p ∈ ps → peer_state p m' = connecting) ∧
        (∀ q, q ∉ ps → JsMap.get q (peerConnections m') = JsMap.get q (peerConnections m)).
Proof.
  induction ps as [|p ps IH]; intros m me Hme Ht Hh He Hnd Hps.
  - exists m. cbn. rewrite app_nil_r.
    repeat (split; [ first [ reflexivity | assumption ] | ]).
    split; [ intros p Hp; inversion Hp | reflexivity ].
  - apply NoDup_cons in Hnd as [Hp Hnd].
    destruct (Hps p ltac:(left)) as [Hpm Hpn].
    destruct (connectToPeer_fresh e p m me Hme Ht (not_eq_sym Hpm) Hh Hpn He)
      as (m1 & E1 & P1 & O1 & U1 & H1 & C1).
    destruct (IH m1 me U1 Ht H1 He Hnd) as (m' & E' & O' & U' & H' & C' & S' & F').
    { intros q Hq. destruct (Hps q ltac:(right; exact Hq)) as [Hqm Hqn].
      split; [ exact Hqm | ]. rewrite P1, get_set_ne; [ exact Hqn | ].
      intros ->. contradiction. }
    exists m'. cbn [dial_all]. unfold mbind, M_bind. rewrite E1.
    split; [ exact E' | ]. split.
    { rewrite O', O1, <- app_assoc. reflexivity. }
    split; [ exact U' | ]. split; [ exact H' | ].
    split; [ rewrite C'; exact C1 | ]. split.
    + intros q Hq. apply elem_of_cons in Hq as [->|Hq]; [ | apply S'; exact Hq ].
      unfold peer_state. rewrite (F' p Hp), P1, get_set_eq. reflexivity.
    + intros q Hq. rewrite F'.
      * rewrite P1. apply get_set_ne. intros ->. apply Hq. left.
      * intros Hin. apply Hq. right. exact Hin.
Qed.

(** X11: a participant that was not host and is told it is the new host
    becomes host and dials every other member of the room, in the order
    the member query lists them: each gets one offer and is in
    [connecting]; entries of ids outside the room are untouched. *)
Theorem onHostChange_promoted (e : engine) (room me : string) (d : Store.db)
    (m : manager) :
  myUserId m = Some me → truthy me = true → truthy room = true →
  isHost m = false → dial_succeeds e →
  (∀ p, (room, p) ∈ Store.room_members d → p ≠ me →
        JsMap.get p (peerConnections m) = None) →
  let r := onHostChange e (Some room) d (Some me) m in
  r.1 = inr tt ∧ isHost r.2 = true ∧ currentHostId r.2 = Some me ∧
  outbox r.2 =
    outbox m ++ (offer_for e me <$> filter (λ u, u ≠ me) (Store.members_of room d)) ∧
  (∀ p, (room, p) ∈ Store.room_members d → p ≠ me → peer_state p r.2 = connecting) ∧
  (∀ q, (room, q) ∉ Store.room_members d →
        JsMap.get q (peerConnections r.2) = JsMap.get q (peerConnections m)).
Proof.
  intros Hme Ht Hr Hh He Hfresh. cbv zeta.
  unfold onHostChange, mbind, M_bind, gets, modify. rewrite Hh, Hme. cbn.
  rewrite bool_decide_eq_true_2 by reflexivity. cbn.
  unfold connectToExistingPeers, mbind, M_bind, gets. cbn.
  unfold or_null. rewrite Hr. cbn. rewrite Hme.
  assert (Hf : filter (λ u, Some u ≠ Some me) (Store.members_of room d) =
               filter (λ u, u ≠ me) (Store.members_of room d)).
  { apply list_filter_iff. intros u. split; intros H; congruence. }
  rewrite Hf.
  destruct (dial_all_fresh e (filter (λ u, u ≠ me) (Store.members_of room d))
              (with_role true (Some me) m) me) as (m' & E & O & U & H & C & S & F);
    [ exact Hme | exact Ht | reflexivity | exact He
    | apply NoDup_filter, NoDup_members_of | | ].
  { intros p Hp. apply list_elem_of_filter in Hp as [Hp1 Hp2].
    split; [ exact Hp1 | ]. apply Hfresh; [ | exact Hp1 ].
    apply elem_of_members_of. exact Hp2. }
  rewrite E. cbn [fst snd].
  split; [ reflexivity | ]. split; [ exact H | ]. split.
  { exact C. }
  split; [ exact O | ]. split.
  - intros p Hp Hne. apply S. apply list_elem_of_filter. split; [ exact Hne | ].
    apply elem_of_members_of. exact Hp.
  - intros q Hq. rewrite F; [ reflexivity | ].
    intros Hin. apply list_elem_of_filter in Hin as [_ Hin].
    apply elem_of_members_of in Hin. contradiction.
Qed.

Lemma onHostChange_promoted_witness :
  let r := onHostChange engine_ok (Some "r") stale_rows (Some "me") client_me in
  isHost r.2 = true ∧
  outbox r.2 = [offer_for engine_ok "me" "gone"; offer_for engine_ok "me" "h"].
Proof.
  assert (H := onHostChange_promoted engine_ok "r" "me" stale_rows client_me).
  cbv zeta in H.
  destruct H as (_ & H2 & _ & H4 & _);
    [ reflexivity | reflexivity | reflexivity | reflexivity | repeat split
    | intros; reflexivity | ].
  split; [ exact H2 | ]. rewrite H4. vm_compute. reflexivity.
Defined.

(** X12: a host that is told another id is host stops being host but
    keeps every peer entry, session and sent signal (nothing is torn
    down), so [broadcast] reaches the same peers; dialling is refused from
    then on. *)
Theorem onHostChange_demoted (e : engine) (roomIdGlobal : option string)
    (d : Store.db) (newHostId : option string) (me p : string) (w : bool)
    (m : manager) :
  myUserId m = Some me → truthy me = true → isHost m = true →
  newHostId ≠ Some me →
  let r := onHostChange e roomIdGlobal d newHostId m in
  r.1 = inr tt ∧ isHost r.2 = false ∧ currentHostId r.2 = newHostId ∧
  peerConnections r.2 = peerConnections m ∧ sessions r.2 = sessions m ∧
  outbox r.2 = outbox m ∧
  broadcast e r.2 = broadcast e m ∧
  connectToPeer e p w r.2 =
    (inl "Permission denied: only host can connect to peers", r.2).
Proof.
  intros Hme Ht Hh Hne. cbv zeta.
  unfold onHostChange, mbind, M_bind, gets, modify. rewrite Hh, Hme. cbn.
  rewrite bool_decide_eq_false_2 by exact Hne. cbn.
  repeat (split; [ reflexivity | ]).
  unfold connectToPeer, mbind, M_bind, gets, initialized. cbn.
  rewrite Hme, Ht. reflexivity.
Qed.

Lemma onHostChange_demoted_witness :
  let r := onHostChange engine_ok (Some "r") stale_rows (Some "h") three_peers in
  isHost r.2 = false ∧
  broadcast engine_ok r.2 = broadcast engine_ok three_peers ∧
  connectToPeer engine_ok "a" false r.2 =
    (inl "Permission denied: only host can connect to peers", r.2).
Proof.
  assert (H := onHostChange_demoted engine_ok (Some "r") stale_rows (Some "h")
                 "me" "a" false three_peers).
  cbv zeta in H.
  destruct H as (_ & H2 & _ & _ & _ & _ & H7 & H8);
    [ reflexivity | reflexivity | reflexivity | discriminate | ].
  split; [ exact H2 | ]. split; [ exact H7 | exact H8 ].
Defined.

(** X13: the membership feed. The INSERT handler never throws; it leaves
    the manager as it is for the own row, for a non-host and without
    auto-connect, and otherwise dials the new member. The DELETE handler
    never throws; it ignores the own row and otherwise drops the entry and
    the queue of the member that left, and no other entry. *)
Theorem membership_feed (e : engine) (u me : string) (m : manager) :
  myUserId m = Some me → truthy me = true →
  let r := onMemberInsert e u m in
  let r' := onMemberDelete u m in
  r.1 = inr tt ∧
  (u = me ∨ isHost m = false ∨ autoConnectEnabled m = false → r.2 = m) ∧
  (u ≠ me → isHost m = true → autoConnectEnabled m = true →
   JsMap.get u (peerConnections m) = None → dial_succeeds e →
   peer_state u r.2 = connecting ∧
   outbox r.2 = outbox m ++ [offer_for e me u]) ∧
  r'.1 = inr tt ∧
  (u = me → r'.2 = m) ∧
  (u ≠ me →
   JsMap.get u (peerConnections r'.2) = None ∧
   pendingCandidates r'.2 !! u = None ∧
   (∀ q, q ≠ u →
         JsMap.get q (peerConnections r'.2) = JsMap.get q (peerConnections m))).
Proof.
  intros Hme Ht. cbv zeta.
  assert (Hins :
    (onMemberInsert e u m).1 = inr tt ∧
    (u = me ∨ isHost m = false ∨ autoConnectEnabled m = false →
     (onMemberInsert e u m).2 = m) ∧
    (u ≠ me → isHost m = true → autoConnectEnabled m = true →
     JsMap.get u (peerConnections m) = None → dial_succeeds e →
     peer_state u (onMemberInsert e u m).2 = connecting ∧
     outbox (onMemberInsert e u m).2 = outbox m ++ [offer_for e me u])).
  { unfold onMemberInsert, mbind, M_bind, gets, try_catch.
    rewrite Hme. split; [ | split ].
    - destruct (_ && _); [ | reflexivity ].
      destruct (connectToPeer e u false m) as [[?|[]] ?]; reflexivity.
    - intros [->|[H|H]].
      + rewrite bool_decide_eq_true_2 by reflexivity. reflexivity.
      + rewrite H, andb_false_r. reflexivity.
      + rewrite H, andb_false_r. reflexivity.
    - intros Hne Hh Ha Hget He.
      rewrite bool_decide_eq_false_2 by congruence. rewrite Hh, Ha. cbn [negb andb].
      destruct (connectToPeer_fresh e u m me Hme Ht (not_eq_sym Hne) Hh Hget He)
        as (m' & -> & P & O & _).
      cbn [fst snd]. split; [ | exact O ].
      unfold peer_state. rewrite P, get_set_eq. reflexivity. }
  destruct Hins as (I1 & I2 & I3).
  split; [ exact I1 | ]. split; [ exact I2 | ]. split; [ exact I3 | ].
  unfold onMemberDelete, mbind, M_bind, gets, modify. rewrite Hme.
  split; [ destruct (negb _); reflexivity | ]. split.
  - intros ->. rewrite bool_decide_eq_true_2 by reflexivity. reflexivity.
  - intros Hne. rewrite bool_decide_eq_false_2 by congruence. cbn [negb fst snd].
    rewrite closePeer_peers, closePeer_pending.
    split; [ apply get_delete_eq | ]. split; [ apply lookup_delete_eq | ].
    intros q Hq. apply get_delete_ne. congruence.
Qed.

Lemma membership_feed_witness :
  let m := init "me" true (Some "me") true in
  outbox (onMemberInsert engine_ok "p" m).2 = [offer_for engine_ok "me" "p"] ∧
  JsMap.get "a" (peerConnections (onMemberDelete "a" three_peers).2) = None.
Proof.
  cbv zeta. split.
  - assert (H := membership_feed engine_ok "p" "me" (init "me" true (Some "me") true)
                   eq_refl eq_refl).
    cbv zeta in H. destruct H as (_ & _ & H & _).
    destruct H as [_ H];
      [ discriminate | reflexivity | reflexivity | reflexivity | repeat split | ].
    exact H.
  - assert (H := membership_feed engine_ok "a" "me" three_peers eq_refl eq_refl).
    cbv zeta in H. destruct H as (_ & _ & _ & _ & _ & H).
    destruct H as [H _]; [ discriminate | exact H ].
Defined.

Lemma ice_connected_resets (p : string) (st : iceState) (m : manager) (conn : PeerConnection) :
  st = ice_connected ∨ st = ice_completed →
  JsMap.get p (peerConnections m) = Some conn →
  JsMap.get p (peerConnections (oniceconnectionstatechange p st m).2) =
    Some {| pc := pc conn; dc := dc conn; state := connected;
            retryCount := 0; lastError := lastError conn |}.
Proof.
  intros Hs Hget. unfold oniceconnectionstatechange. rewrite Hget.
  destruct Hs as [-> | ->]; cbn; rewrite updatePeerState_peers, Hget, get_set_eq; reflexivity.
Qed.

(** X14: the ICE retry budget. For an entry that has not retried yet, the
    first [failed] or [disconnected] report only counts the retry (and
    arms the retry timer exactly when the participant is host); a second
    one in a row puts the peer in [failed] with "ICE connection <state>"
    as its last error and arms nothing. A [connected] or [completed]
    report in between puts the peer in [connected] and restores the
    budget. *)
Theorem ice_retry_budget (p : string) (st st' : iceState) (m : manager)
    (conn : PeerConnection) :
  ice_down st → ice_down st' →
  JsMap.get p (peerConnections m) = Some conn → retryCount conn = 0 →
  let r1 := oniceconnectionstatechange p st m in
  let r2 := oniceconnectionstatechange p st' r1.2 in
  r1.1 = isHost m ∧
  JsMap.get p (peerConnections r1.2) =
    Some {| pc := pc conn; dc := dc conn; state := state conn;
            retryCount := 1; lastError := lastError conn |} ∧
  r2.1 = false ∧
  peer_state p r2.2 = failed ∧
  lastError <$> JsMap.get p (peerConnections r2.2) =
    Some (Some ("ICE connection " +:+ iceState_name st')) ∧
  (∀ up, up = ice_connected ∨ up = ice_completed →
     JsMap.get p (peerConnections (oniceconnectionstatechange p up r1.2).2) =
       Some {| pc := pc conn; dc := dc conn; state := connected;
               retryCount := 0; lastError := lastError conn |}).
Proof.
  intros Hs Hs' Hget Hrc. cbv zeta.
  set (c1 := {| pc := pc conn; dc := dc conn; state := state conn;
                retryCount := 1; lastError := lastError conn |}).
  assert (E1 : oniceconnectionstatechange p st m =
               (isHost m, with_peerConnections (JsMap.set p c1) m)).
  { unfold oniceconnectionstatechange. rewrite Hget, Hrc.
    destruct Hs as [-> | ->]; reflexivity. }
  rewrite E1. cbn [fst snd].
  set (m1 := with_peerConnections (JsMap.set p c1) m).
  assert (G1 : JsMap.get p (peerConnections m1) = Some c1)
    by (unfold m1; cbn; apply get_set_eq).
  assert (E2 : oniceconnectionstatechange p st' m1 =
               (false, updatePeerState p failed
                         (Some ("ICE connection " +:+ iceState_name st')) m1)).
  { unfold oniceconnectionstatechange. rewrite G1.
    destruct Hs' as [-> | ->]; reflexivity. }
  rewrite E2. cbn [fst snd].
  split; [ reflexivity | ]. split; [ exact G1 | ]. split; [ reflexivity | ].
  split; [ apply updatePeerState_state; left; eauto | ].
  split.
  - rewrite updatePeerState_peers, G1, get_set_eq. cbn.
    unfold or_null. rewrite append_nonempty. reflexivity.
  - intros up Hup. apply (ice_connected_resets p up m1 c1 Hup G1).
Qed.

Lemma ice_retry_budget_witness :
  let r1 := oniceconnectionstatechange "a" ice_disconnected three_peers in
  let r2 := oniceconnectionstatechange "a" ice_failed r1.2 in
  r1.1 = true ∧ r2.1 = false ∧ peer_state "a" r2.2 = failed.
Proof.
  assert (H := ice_retry_budget "a" ice_disconnected ice_failed three_peers
                 (linked rs_open)).
  cbv zeta in H.
  destruct H as (H1 & _ & H3 & H4 & _);
    [ right; reflexivity | left; reflexivity | reflexivity | reflexivity | ].
  split; [ exact H1 | ]. split; [ exact H3 | exact H4 ].
Defined.

Lemma connectToPeer_connecting e p m conn :
  initialized m = true → isHost m = true →
  JsMap.get p (peerConnections m) = Some conn → state conn = connecting →
  connectToPeer e p false m = (inr tt, m).
Proof.
  intros Hi Hh Hget Hst. unfold connectToPeer, mbind, M_bind, gets.
  cbn. rewrite Hi. cbn. rewrite Hh. cbn. rewrite Hget. cbn. rewrite Hst. reflexivity.
Qed.

(** X15: the retry the ICE callback arms does nothing for a peer that is
    still in [connecting]: [connectToPeer] returns at its second guard, so
    no new session is created and no offer is sent. *)
Theorem retry_while_connecting (e : engine) (p : string) (st : iceState) (m : manager) (conn : PeerConnection) :
  ice_down st → initialized m = true → isHost m = true →
  JsMap.get p (peerConnections m) = Some conn →
  state conn = connecting → retryCount conn = 0 →
  let r := oniceconnectionstatechange p st m in
  r.1 = true ∧ retry e p r.2 = (inr tt, r.2) ∧ outbox r.2 = outbox m ∧
  peer_state p r.2 = connecting.
Proof.
  intros Hs Hi Hh Hget Hst Hrc. cbv zeta.
  assert (E1 : oniceconnectionstatechange p st m =
    (isHost m, with_peerConnections
       (JsMap.set p {| pc := pc conn; dc := dc conn; state := state conn;
                       retryCount := 1; lastError := lastError conn |}) m)).
  { unfold oniceconnectionstatechange. rewrite Hget, Hrc.
    destruct Hs as [-> | ->]; reflexivity. }
  rewrite E1. cbn [fst snd]. split; [ exact Hh | ]. split; [ | split; [ reflexivity | ] ].
  - unfold retry, mbind, M_bind, gets. cbn. rewrite get_set_eq.
    unfold try_catch.
    rewrite (connectToPeer_connecting e p _
      {| pc := pc conn; dc := dc conn; state := state conn;
         retryCount := 1; lastError := lastError conn |}); 
      [ reflexivity | exact Hi | exact Hh | cbn; apply get_set_eq | exact Hst ].
  - unfold peer_state. cbn. rewrite get_set_eq. exact Hst.
Qed.

Lemma retry_while_connecting_witness :
  let m := (connectToPeer engine_ok "p" false host_me).2 in
  let r := oniceconnectionstatechange "p" ice_failed m in
  r.1 = true ∧ retry engine_ok "p" r.2 = (inr tt, r.2) ∧ outbox r.2 = outbox m.
Proof.
  assert (H := retry_while_connecting engine_ok "p" ice_failed
                 (connectToPeer engine_ok "p" false host_me).2 (dialled 0)).
  cbv zeta in H.
  destruct H as (H1 & H2 & H3 & _);
    [ left; reflexivity | reflexivity | reflexivity | reflexivity | reflexivity
    | reflexivity | ].
  split; [ exact H1 | ]. split; [ exact H2 | exact H3 ].
Defined.

End dialling.

(* ------------------------------------------------------------------ *)
(** ** webrtc.ts: the signal handlers *)

Section answering.
Import Webrtc Manager.

Lemma with_sessions_id f m : (∀ l, f l = l) → with_sessions f m = m.
Proof. intros H. destruct m; unfold with_sessions; cbn. rewrite H. reflexivity. Qed.

Lemma flush_eq e h pend m :
  flush e (Some h) pend m =
  (inr tt, with_sessions (alter (more_candidates (accepted e pend)) h) m).
Proof.
  revert m. induction pend as [|c pend IH]; intros m.
  - cbn. rewrite with_sessions_id; [ reflexivity | ].
    intros l. apply list_alter_id. intros [? ? ? ?]. unfold more_candidates; cbn.
    rewrite app_nil_r. reflexivity.
  - cbn [flush]. unfold mbind at 1, M_bind at 1, try_catch, add_candidate, attempt.
    unfold accepted. 
    destruct (addIceCandidate e c) as [msg|] eqn:Hc.
    + rewrite filter_cons_False by (rewrite Hc; discriminate).
      unfold throw, mret, M_ret. apply IH.
    + rewrite filter_cons_True by exact Hc.
      unfold mbind, M_bind, mret, M_ret, modify. rewrite IH. f_equal. unfold with_sessions; cbn. f_equal.
      rewrite list_alter_alter_eq. apply list_alter_ext; [ | reflexivity ].
      intros s _. unfold more_candidates, accepted; cbn. rewrite <- app_assoc. reflexivity.
Qed.

(** X16: [handleRemoteIce] for a peer that has an entry never throws and
    never queues: the candidate goes to the session the entry holds when
    the engine accepts it, and is dropped when the engine rejects it or
    the entry holds no session. Entries, queues and sent signals are
    untouched. *)
Theorem handleRemoteIce_live (e : engine) (from_ : string) (c : candidate)
    (m : manager) (conn : PeerConnection) :
  JsMap.get from_ (peerConnections m) = Some conn →
  let r := handleRemoteIce e from_ c m in
  r.1 = inr tt ∧
  peerConnections r.2 = peerConnections m ∧
  pendingCandidates r.2 = pendingCandidates m ∧
  outbox r.2 = outbox m ∧
  (∀ h, pc conn = Some h → is_Some (sessions m !! h) →
     applied_candidates from_ r.2 = applied_candidates from_ m ++ accepted e [c]) ∧
  (pc conn = None → r.2 = m).
Proof.
  intros Hget. cbv zeta. unfold handleRemoteIce, mbind, M_bind, gets.
  rewrite Hget. unfold try_catch, add_candidate.
  destruct (pc conn) as [h|] eqn:Hpc.
  - unfold attempt, accepted. destruct (addIceCandidate e c) as [msg|] eqn:Hc;
      unfold mbind, M_bind, mret, M_ret, modify, throw.
    + rewrite filter_cons_False by (rewrite Hc; discriminate). cbn.
      repeat (split; [ reflexivity | ]). split; [ | discriminate ].
      intros h' _ _. rewrite app_nil_r. reflexivity.
    + rewrite filter_cons_True by exact Hc. cbn.
      repeat (split; [ reflexivity | ]). split; [ | discriminate ].
      intros h' [= <-] [s Hs]. unfold applied_candidates.
      cbn [snd peerConnections sessions with_sessions].
      rewrite Hget. cbn [mbind option_bind]. rewrite Hpc. rewrite list_lookup_alter_eq, Hs. reflexivity.
  - cbn. repeat (split; [ reflexivity | ]). split; [ discriminate | reflexivity ].
Qed.

Lemma handleRemoteIce_live_witness :
  let m := (connectToPeer engine_ok "p" false host_me).2 in
  applied_candidates "p" (handleRemoteIce engine_ok "p" host_candidate m).2 =
    [host_candidate].
Proof.
  assert (H := handleRemoteIce_live engine_ok "p" host_candidate
                 (connectToPeer engine_ok "p" false host_me).2 (dialled 0) eq_refl).
  cbv zeta in H. destruct H as (_ & _ & _ & _ & H & _).
  exact (H 0 eq_refl (ex_intro _ _ eq_refl)).
Defined.

(** X17: [handleAnswer] for a peer whose entry holds a live session. When
    the engine takes the remote description, the peer is in [connecting],
    the session holds the answer, the queued candidates the engine accepts
    are on the session in queue order, and the queue is empty. When the
    engine rejects it, the error is rethrown, the peer is in [failed] with
    "Failed to handle answer: msg", and session and queue are untouched.
    Nothing is sent either way. *)
Theorem handleAnswer_effect (e : engine) (from_ : string) (a : payload)
    (m : manager) (conn : PeerConnection) (h : nat) (s : RTCPeerConnection) :
  JsMap.get from_ (peerConnections m) = Some conn →
  pc conn = Some h → sessions m !! h = Some s →
  let r := handleAnswer e from_ a m in
  match setRemoteDescription e with
  | None =>
      r.1 = inr tt ∧ peer_state from_ r.2 = connecting ∧
      pending_of from_ r.2 = [] ∧
      sessions r.2 !! h =
        Some {| remoteDescription := Some (sdp_of a);
                localDescription := localDescription s;
                iceCandidates := iceCandidates s ++ accepted e (pending_of from_ m);
                pc_closed := pc_closed s |}
  | Some msg =>
      r.1 = inl msg ∧ peer_state from_ r.2 = failed ∧
      lastError <$> JsMap.get from_ (peerConnections r.2) =
        Some (Some ("Failed to handle answer: " +:+ msg)) ∧
      sessions r.2 = sessions m ∧ pendingCandidates r.2 = pendingCandidates m
  end ∧ outbox r.2 = outbox m.
Proof.
  intros Hget Hpc Hs. cbv zeta.
  destruct (setRemoteDescription e) as [msg|] eqn:Hr.
  - assert (E : handleAnswer e from_ a m =
      (inl msg, updatePeerState from_ failed
                  (Some ("Failed to handle answer: " +:+ msg)) m)).
    { unfold handleAnswer, mbind, M_bind, gets, try_catch, attempt, throw, modify.
      rewrite Hget, Hpc, Hr. reflexivity. }
    rewrite E. cbn [fst snd].
    split; [ | apply updatePeerState_vars ].
    split; [ reflexivity | ]. split.
    { apply updatePeerState_state. left. eauto. }
    split.
    { rewrite updatePeerState_peers, Hget, get_set_eq. cbn.
      unfold or_null. rewrite append_nonempty. reflexivity. }
    destruct (updatePeerState_rest from_ failed (Some ("Failed to handle answer: " +:+ msg)) m)
      as (-> & -> & _). auto.
  - set (f := λ s0, {| remoteDescription := Some (sdp_of a);
             localDescription := localDescription s0;
             iceCandidates := iceCandidates s0; pc_closed := pc_closed s0 |}).
    set (m1 := updatePeerState from_ connecting None (with_sessions (alter f h) m)).
    assert (Hp1 : pending_of from_ m1 = pending_of from_ m).
    { unfold pending_of, m1.
      destruct (updatePeerState_rest from_ connecting None
        (with_sessions (alter f h) m)) as (_ & -> & _). reflexivity. }
    assert (Hs1 : sessions m1 = alter f h (sessions m)).
    { unfold m1.
      destruct (updatePeerState_rest from_ connecting None
        (with_sessions (alter f h) m)) as (-> & _). reflexivity. }
    assert (E : handleAnswer e from_ a m =
      (inr tt, with_pendingCandidates (<[from_ := []]>)
                 (with_sessions
                    (alter (more_candidates (accepted e (pending_of from_ m))) h) m1))).
    { unfold handleAnswer, mbind, M_bind, gets, try_catch, attempt, throw, modify,
        set_remote, mret, M_ret.
      rewrite Hget, Hpc, Hr. fold f. fold m1.
      unfold modify. cbv beta iota. fold m1. rewrite flush_eq, Hp1. reflexivity. }
    rewrite E. cbn [fst snd].
    split; [ | cbn; unfold m1;
      destruct (updatePeerState_vars from_ connecting None (with_sessions (alter f h) m))
        as (_ & _ & ->); reflexivity ].
    split; [ reflexivity | ]. split.
    { unfold peer_state. cbn. apply (updatePeerState_state from_ connecting None).
      left. cbn. eauto. }
    split.
    { unfold pending_of. cbn. rewrite lookup_insert_eq. reflexivity. }
    cbn. rewrite Hs1, list_lookup_alter_eq, list_lookup_alter_eq, Hs. reflexivity.
Qed.

Lemma handleAnswer_effect_witness :
  let m := (connectToPeer engine_ok "p" false host_me).2 in
  let r := handleAnswer engine_ok "p" (Sdp "v=0 answer") m in
  r.1 = inr tt ∧ peer_state "p" r.2 = connecting ∧ pending_of "p" r.2 = [].
Proof.
  assert (H := handleAnswer_effect engine_ok "p" (Sdp "v=0 answer")
                 (connectToPeer engine_ok "p" false host_me).2 (dialled 0) 0
                 {| remoteDescription := None; localDescription := Some "v=0";
                    iceCandidates := []; pc_closed := false |}
                 eq_refl eq_refl eq_refl).
  cbv zeta in H. destruct H as ((H1 & H2 & H3 & _) & _).
  split; [ exact H1 | ]. split; [ exact H2 | exact H3 ].
Defined.

Lemma handleOffer_cases (e : engine) (from_ me : string) (o : payload) (m : manager) :
  myUserId m = Some me → truthy me = true →
  in_state connected (JsMap.get from_ (peerConnections m)) = false →
  in_state connecting (JsMap.get from_ (peerConnections m)) = false →
  let r := handleOffer e from_ o m in
  match answer_failure e (negb (bool_decide (from_ = me))) with
  | Some msg =>
      r.1 = inl msg ∧ peer_state from_ r.2 = failed ∧
      lastError <$> JsMap.get from_ (peerConnections r.2) =
        Some (Some ("Failed to handle offer: " +:+ msg))
  | None =>
      r.1 = inr tt ∧ peer_state from_ r.2 = connecting ∧
      outbox r.2 = outbox m ++ (if decide (from_ = me) then [] else [answer_for e me from_])
  end.
Proof.
  intros Hme Ht Hc1 Hc2. cbv zeta.
  remember (handleOffer e from_ o m) as r eqn:Er. unfold handleOffer in Er.
  unfold mbind at 1, M_bind at 1, gets at 1 in Er. rewrite Hc1, Hc2 in Er. cbn [orb] in Er.
  unfold mbind at 1, M_bind at 1, modify at 1 in Er.
  unfold mbind at 1, M_bind at 1, createPeerConnection at 1 in Er.
  unfold mbind at 1, M_bind at 1, modify at 1 in Er.
  set (m0 := updatePeerState from_ answering None m) in Er.
  set (h := length (sessions m0)) in Er.
  set (m2 := with_peerConnections _ _) in Er.
  assert (G2 : JsMap.get from_ (peerConnections m2) =
               Some {| pc := Some h; dc := None; state := answering;
                       retryCount := 0; lastError := None |}).
  { unfold m2. cbn. apply get_set_eq. }
  assert (U2 : myUserId m2 = Some me).
  { unfold m2, m0. cbn. destruct (updatePeerState_vars from_ answering None m) as (-> & _).
    exact Hme. }
  assert (O2 : outbox m2 = outbox m).
  { unfold m2, m0. cbn. destruct (updatePeerState_vars from_ answering None m) as (_ & _ & ->).
    reflexivity. }
  clearbody m2 h. clear m0.
  unfold answer_failure. unfold try_catch in Er.
  destruct (setRemoteDescription e) as [msg|] eqn:F1.
  { unfold mbind, M_bind, attempt, throw, modify in Er. rewrite Er. cbn [fst snd].
    split; [ reflexivity | ]. eapply failed_recorded; eauto. }
  unfold mbind at 1, M_bind at 1, attempt at 1 in Er. cbn [mret M_ret] in Er.
  unfold mbind at 1, M_bind at 1, set_remote at 1, modify at 1 in Er.
  set (m3 := with_sessions _ m2) in Er.
  assert (G3 : is_Some (JsMap.get from_ (peerConnections m3))) by (unfold m3; cbn; eauto).
  assert (U3 : myUserId m3 = Some me) by exact U2.
  assert (O3 : outbox m3 = outbox m) by exact O2.
  clearbody m3.
  destruct (createAnswer e) as [msg|] eqn:F2.
  { unfold mbind, M_bind, attempt, throw, modify in Er. rewrite Er. cbn [fst snd].
    split; [ reflexivity | ]. eapply failed_recorded; eauto. }
  unfold mbind at 1, M_bind at 1, attempt at 1 in Er. cbn [mret M_ret] in Er.
  destruct (setLocalDescription e) as [msg|] eqn:F3.
  { unfold mbind, M_bind, attempt, throw, modify in Er. rewrite Er. cbn [fst snd].
    split; [ reflexivity | ]. eapply failed_recorded; eauto. }
  unfold mbind at 1, M_bind at 1, attempt at 1 in Er. cbn [mret M_ret] in Er.
  unfold mbind at 1, M_bind at 1, set_local at 1, modify at 1 in Er.
  unfold mbind at 1, M_bind at 1, modify at 1 in Er.
  set (m5 := updatePeerState from_ connecting None _) in Er.
  assert (G5 : is_Some (JsMap.get from_ (peerConnections m5)) ∧
               peer_state from_ m5 = connecting).
  { unfold m5. split.
    - rewrite updatePeerState_peers. cbn. destruct G3 as [c ->]. rewrite get_set_eq. eauto.
    - apply updatePeerState_state. left. cbn. exact G3. }
  assert (U5 : myUserId m5 = Some me).
  { unfold m5. destruct (updatePeerState_vars from_ connecting None
      (with_sessions (alter (λ s, {| remoteDescription := remoteDescription s;
         localDescription := Some (local_sdp e); iceCandidates := iceCandidates s;
         pc_closed := pc_closed s |}) h) m3)) as (-> & _). exact U3. }
  assert (O5 : outbox m5 = outbox m).
  { unfold m5. destruct (updatePeerState_vars from_ connecting None
      (with_sessions (alter (λ s, {| remoteDescription := remoteDescription s;
         localDescription := Some (local_sdp e); iceCandidates := iceCandidates s;
         pc_closed := pc_closed s |}) h) m3)) as (_ & _ & ->). exact O3. }
  clearbody m5. destruct G5 as [G5 S5].
  unfold mbind at 1, M_bind at 1, sendSignal in Er.
  rewrite U5 in Er. unfold or_null at 1 in Er. rewrite Ht in Er.
  destruct (decide (from_ = me)) as [Hfm|Hfm].
  - rewrite (bool_decide_eq_true_2 _ Hfm). cbn [negb].
    unfold mbind at 1, M_bind at 1, gets at 1 in Er.
    unfold mbind at 1, M_bind at 1 in Er. rewrite flush_eq in Er. unfold modify in Er.
    rewrite Er. cbn [fst snd].
    split; [ reflexivity | ]. split; [ exact S5 | ]. cbn. rewrite O5, app_nil_r. reflexivity.
  - rewrite (bool_decide_eq_false_2 _ Hfm). cbn [negb].
    destruct (bus_send e) as [msg|] eqn:F4.
    { unfold mbind, M_bind, throw, modify in Er. rewrite Er. cbn [fst snd].
      split; [ reflexivity | ]. eapply failed_recorded; eauto. }
    unfold mbind at 1, M_bind at 1, gets at 1 in Er.
    unfold mbind at 1, M_bind at 1 in Er. rewrite flush_eq in Er. unfold modify in Er.
    rewrite Er. cbn [fst snd].
    split; [ reflexivity | ]. split; [ exact S5 | ]. cbn. rewrite O5. reflexivity.
Qed.

(** X18: [handleOffer] for a peer that is not in [connected] or
    [connecting]. When no call on the answering path fails
    ([setRemoteDescription], [createAnswer], [setLocalDescription], the bus
    send), the peer is in [connecting] and exactly one answer, addressed
    to the sender, was handed to the bus. When one fails with [msg], the
    error is rethrown and the peer is in [failed] with
    "Failed to handle offer: msg". *)
Theorem handleOffer_effect (e : engine) (from_ me : string) (o : payload) (m : manager) :
  myUserId m = Some me → truthy me = true →
  in_state connected (JsMap.get from_ (peerConnections m)) = false →
  in_state connecting (JsMap.get from_ (peerConnections m)) = false →
  let r := handleOffer e from_ o m in
  match answer_failure e (negb (bool_decide (from_ = me))) with
  | Some msg =>
      r.1 = inl msg ∧ peer_state from_ r.2 = failed ∧
      lastError <$> JsMap.get from_ (peerConnections r.2) =
        Some (Some ("Failed to handle offer: " +:+ msg))
  | None =>
      r.1 = inr tt ∧ peer_state from_ r.2 = connecting ∧
      outbox r.2 = outbox m ++ (if decide (from_ = me) then [] else [answer_for e me from_])
  end.
Proof. apply handleOffer_cases. Qed.

Lemma handleOffer_effect_witness :
  let r := handleOffer engine_ok "h" (Sdp "v=0") client_me in
  r.1 = inr tt ∧ peer_state "h" r.2 = connecting ∧
  outbox r.2 = [answer_for engine_ok "me" "h"].
Proof.
  exact (handleOffer_effect engine_ok "h" "me" (Sdp "v=0") client_me
           eq_refl eq_refl eq_refl eq_refl).
Defined.

(** X19: a duplicate offer is ignored. After [handleOffer] has returned
    normally for a sender, a further offer from that sender returns at
    the first guard: no second session, no second answer, nothing
    changes. *)
Theorem handleOffer_twice (e : engine) (from_ me : string) (o o' : payload)
    (m : manager) :
  myUserId m = Some me → truthy me = true →
  let r := handleOffer e from_ o m in
  r.1 = inr tt →
  handleOffer e from_ o' r.2 = (inr tt, r.2).
Proof.
  intros Hme Ht. cbv zeta. intros Hok.
  destruct (in_state connected (JsMap.get from_ (peerConnections m)) ||
            in_state connecting (JsMap.get from_ (peerConnections m))) eqn:Hearly.
  - assert (E : handleOffer e from_ o m = (inr tt, m)).
    { unfold handleOffer, mbind, M_bind, gets. rewrite Hearly. reflexivity. }
    rewrite E. cbn [snd].
    unfold handleOffer, mbind, M_bind, gets. rewrite Hearly. reflexivity.
  - apply orb_false_elim in Hearly as [H1 H2].
    pose proof (handleOffer_cases e from_ me o m Hme Ht H1 H2) as H. cbv zeta in H.
    destruct (answer_failure e _) as [msg|].
    + destruct H as (H & _). rewrite H in Hok. discriminate Hok.
    + destruct H as (_ & Hs & Ho).
      clear Ho Hok. set (m1 := (handleOffer e from_ o m).2) in *. clearbody m1.
        unfold handleOffer, mbind, M_bind, gets. unfold peer_state, state_or_idle in Hs.
        destruct (JsMap.get from_ (peerConnections m1)) as [c|];
          [ | discriminate Hs ].
        cbn. rewrite Hs. rewrite (bool_decide_eq_true_2 (connecting = connecting)) by reflexivity.
        rewrite orb_true_r. reflexivity.
Qed.

Lemma handleOffer_twice_witness :
  let r := handleOffer engine_ok "h" (Sdp "v=0") client_me in
  handleOffer engine_ok "h" (Sdp "v=1") r.2 = (inr tt, r.2).
Proof.
  exact (handleOffer_twice engine_ok "h" "me" (Sdp "v=0") (Sdp "v=1") client_me
           eq_refl eq_refl eq_refl).
Defined.

(** X20: an offer the listener lets through (addressed to this
    participant, from another id, and this participant is host or the
    sender is the recorded host). The listener returns normally whatever
    happens: on success the peer is in [connecting] and one answer went
    out; when a call on the answering path fails, the error is swallowed
    but the peer is in [failed] with "Failed to handle offer: msg". *)
Theorem onSignal_offer_outcome (e : engine) (msg : SignalMessage) (me : string)
    (m : manager) :
  myUserId m = Some me → truthy me = true →
  msg_to msg = me → msg_from msg ≠ me → msg_type msg = offer →
  isHost m = true ∨ currentHostId m = Some (msg_from msg) →
  in_state connected (JsMap.get (msg_from msg) (peerConnections m)) = false →
  in_state connecting (JsMap.get (msg_from msg) (peerConnections m)) = false →
  let r := onSignal e msg m in
  r.1 = inr tt ∧
  match answer_failure e true with
  | Some err =>
      peer_state (msg_from msg) r.2 = failed ∧
      lastError <$> JsMap.get (msg_from msg) (peerConnections r.2) =
        Some (Some ("Failed to handle offer: " +:+ err))
  | None =>
      peer_state (msg_from msg) r.2 = connecting ∧
      outbox r.2 = outbox m ++ [answer_for e me (msg_from msg)]
  end.
Proof.
  intros Hme Ht Hto Hfrom Hty Hgate H1 H2. cbv zeta.
  pose proof (handleOffer_cases e (msg_from msg) me (msg_data msg) m Hme Ht H1 H2) as H.
  cbv zeta in H. rewrite (bool_decide_eq_false_2 _ Hfrom) in H. cbn [negb] in H.
  assert (E : onSignal e msg m =
              try_catch (handleOffer e (msg_from msg) (msg_data msg)) (λ _, mret tt) m).
  { unfold onSignal, mbind, M_bind, gets. rewrite Hme. unfold or_null. rewrite Ht.
    rewrite (bool_decide_eq_true_2 _ Hto). cbn [negb].
    rewrite (bool_decide_eq_false_2 _ Hfrom). rewrite Hty.
    rewrite bool_decide_eq_true_2 by reflexivity. cbn [andb].
    destruct Hgate as [Hh|Hc].
    - rewrite Hh. reflexivity.
    - rewrite Hc. rewrite bool_decide_eq_true_2 by reflexivity.
      rewrite andb_false_r. reflexivity. }
  rewrite E. unfold try_catch.
  destruct (handleOffer e (msg_from msg) (msg_data msg) m) as [[err|[]] m'];
    cbn [fst snd] in *.
  - split; [ reflexivity | ]. destruct (answer_failure e true);
      [ destruct H as (_ & H); exact H | destruct H as (H & _); discriminate H ].
  - split; [ reflexivity | ]. destruct (answer_failure e true);
      [ destruct H as (H & _); discriminate H | ].
    destruct H as (_ & Hs & Ho). split; [ exact Hs | ].
    rewrite Ho. destruct (decide (msg_from msg = me)); [ contradiction | reflexivity ].
Qed.

Lemma onSignal_offer_outcome_witness :
  let r := onSignal bus_down (offer_for bus_down "h" "me") client_me in
  r.1 = inr tt ∧ peer_state "h" r.2 = failed ∧
  lastError <$> JsMap.get "h" (peerConnections r.2) =
    Some (Some ("Failed to handle offer: " +:+ "send failed")).
Proof.
  exact (onSignal_offer_outcome bus_down (offer_for bus_down "h" "me") "me" client_me
           eq_refl eq_refl eq_refl ltac:(discriminate) eq_refl
           (or_intror eq_refl) eq_refl eq_refl).
Defined.

Section steps_facts.
Context (R : manager → manager → Prop).
Context (R_refl : ∀ m, R m m) (R_trans : ∀ a b c, R a b → R b c → R a c).

Lemma steps_ret {A} (a : A) : steps R (mret a).
Proof. intros m. apply R_refl. Qed.

Lemma steps_throw {A} msg : steps R (@throw A msg).
Proof. intros m. apply R_refl. Qed.

Lemma steps_gets {A} (f : manager → A) : steps R (gets f).
Proof. intros m. apply R_refl. Qed.

Lemma steps_attempt o : steps R (attempt o).
Proof. destruct o; [ apply steps_throw | apply steps_ret ]. Qed.

Lemma steps_modify f : (∀ m, R m (f m)) → steps R (modify f).
Proof. intros H m. apply H. Qed.

Lemma steps_bind {A B} (c : M A) (k : A → M B) :
  steps R c → (∀ a, steps R (k a)) → steps R (c ≫= k).
Proof.
  intros Hc Hk m. unfold mbind, M_bind. specialize (Hc m).
  destruct (c m) as [[err|a] m1]; cbn in *; [ exact Hc | ].
  eapply R_trans; [ exact Hc | apply Hk ].
Qed.

Lemma steps_try_catch {A} (c : M A) (k : string → M A) :
  steps R c → (∀ msg, steps R (k msg)) → steps R (try_catch c k).
Proof.
  intros Hc Hk m. unfold try_catch. specialize (Hc m).
  destruct (c m) as [[err|a] m1]; cbn in *; [ | exact Hc ].
  eapply R_trans; [ exact Hc | apply Hk ].
Qed.

End steps_facts.

Lemma only_answers_refl to_ m : only_answers to_ m m.
Proof.
  repeat (split; [ reflexivity | ]). exists []. rewrite app_nil_r. split; [ reflexivity | constructor ].
Qed.

Lemma only_answers_trans to_ a b c :
  only_answers to_ a b → only_answers to_ b c → only_answers to_ a c.
Proof.
  intros (H1 & U1 & C1 & l1 & O1 & F1) (H2 & U2 & C2 & l2 & O2 & F2).
  split; [ congruence | ]. split; [ congruence | ]. split; [ congruence | ].
  exists (l1 ++ l2). split; [ rewrite O2, O1, app_assoc; reflexivity | ].
  apply Forall_app. auto.
Qed.

Lemma only_answers_quiet to_ m m' :
  isHost m' = isHost m → myUserId m' = myUserId m →
  currentHostId m' = currentHostId m → outbox m' = outbox m →
  only_answers to_ m m'.
Proof.
  intros H U C O. split; [ exact H | ]. split; [ exact U | ]. split; [ exact C | ].
  exists []. rewrite app_nil_r. split; [ exact O | constructor ].
Qed.

Lemma only_answers_updatePeerState to_ p st err m :
  only_answers to_ m (updatePeerState p st err m).
Proof.
  destruct (updatePeerState_vars p st err m) as (U & H & O).
  destruct (updatePeerState_rest p st err m) as (_ & _ & C & _).
  apply only_answers_quiet; assumption.
Qed.

Lemma steps_flush to_ e h pend : steps (only_answers to_) (flush e h pend).
Proof.
  induction pend as [|c pend IH]; cbn [flush].
  - apply steps_ret, only_answers_refl.
  - apply steps_bind; [ apply only_answers_trans | | intros _; exact IH ].
    apply steps_try_catch; [ apply only_answers_trans | | intros; apply steps_ret, only_answers_refl ].
    unfold add_candidate. destruct h as [h|]; [ | apply steps_throw, only_answers_refl ].
    apply steps_bind; [ apply only_answers_trans | apply steps_attempt, only_answers_refl | ].
    intros _. apply steps_modify. intros m. apply only_answers_quiet; reflexivity.
Qed.

Lemma steps_sendSignal_answer e to_ d :
  steps (only_answers to_) (sendSignal e to_ answer d).
Proof.
  intros m. unfold sendSignal.
  destruct (or_null (myUserId m)); [ | apply only_answers_refl ].
  destruct (decide _); [ apply only_answers_refl | ].
  destruct (bus_send e); [ apply only_answers_refl | ]. cbn.
  repeat (split; [ reflexivity | ]). eexists. split; [ reflexivity | ].
  constructor; [ split; reflexivity | constructor ].
Qed.

Ltac step_answers :=
  repeat first
    [ apply steps_flush
    | apply steps_sendSignal_answer
    | apply steps_ret, only_answers_refl
    | apply steps_throw, only_answers_refl
    | apply steps_gets, only_answers_refl
    | apply steps_attempt, only_answers_refl
    | apply steps_bind; [ apply only_answers_trans | | intros ? ]
    | apply steps_try_catch; [ apply only_answers_trans | | intros ? ]
    | apply steps_modify; intros ?;
      first [ apply only_answers_updatePeerState
            | apply only_answers_quiet; reflexivity ] ].

Lemma steps_handleOffer e from_ o : steps (only_answers from_) (handleOffer e from_ o).
Proof.
  unfold handleOffer. apply steps_bind; [ apply only_answers_trans | step_answers | ].
  intros existing. destruct (_ || _); [ step_answers | ].
  apply steps_bind; [ apply only_answers_trans | step_answers | intros _ ].
  apply steps_bind; [ apply only_answers_trans | | intros h ].
  { intros m. apply only_answers_quiet; reflexivity. }
  step_answers.
Qed.

Lemma steps_handleAnswer e from_ a : steps (only_answers from_) (handleAnswer e from_ a).
Proof.
  unfold handleAnswer. apply steps_bind; [ apply only_answers_trans | step_answers | ].
  intros [conn|]; [ | step_answers ].
  apply steps_try_catch; [ apply only_answers_trans | | intros ?; step_answers ].
  apply steps_bind; [ apply only_answers_trans | step_answers | intros _ ].
  apply steps_bind; [ apply only_answers_trans | step_answers | intros _ ].
  apply steps_bind; [ apply only_answers_trans | | intros _; step_answers ].
  unfold set_remote. destruct (pc conn); step_answers.
Qed.

Lemma steps_handleRemoteIce e from_ c : steps (only_answers from_) (handleRemoteIce e from_ c).
Proof.
  unfold handleRemoteIce. apply steps_bind; [ apply only_answers_trans | step_answers | ].
  intros [conn|]; [ | step_answers ].
  apply steps_try_catch; [ apply only_answers_trans | | intros ?; step_answers ].
  unfold add_candidate. destruct (pc conn); step_answers.
Qed.

Lemma steps_onSignal e msg : steps (only_answers (msg_from msg)) (onSignal e msg).
Proof.
  unfold onSignal. apply steps_bind; [ apply only_answers_trans | step_answers | ].
  intros [me|]; [ | step_answers ].
  destruct (negb _); [ step_answers | ].
  destruct (bool_decide (msg_from msg = me)); [ step_answers | ].
  apply steps_bind; [ apply only_answers_trans | step_answers | intros host ].
  apply steps_bind; [ apply only_answers_trans | step_answers | intros current ].
  destruct (_ && _); [ step_answers | ].
  apply steps_try_catch; [ apply only_answers_trans | | intros ?; step_answers ].
  destruct (msg_type msg);
    [ apply steps_handleOffer | apply steps_handleAnswer | apply steps_handleRemoteIce
    | step_answers ].
Qed.

Lemma onSignal_returns e msg m : (onSignal e msg m).1 = inr tt.
Proof.
  unfold onSignal, mbind, M_bind, gets, try_catch.
  destruct (or_null (myUserId m)) as [me|]; [ | reflexivity ].
  destruct (negb _); [ reflexivity | ].
  destruct (bool_decide (msg_from msg = me)); [ reflexivity | ].
  destruct (_ && _); [ reflexivity | ].
  destruct (msg_type msg).
  - destruct (handleOffer e (msg_from msg) (msg_data msg) m) as [[?|[]] ?]; reflexivity.
  - destruct (handleAnswer e (msg_from msg) (msg_data msg) m) as [[?|[]] ?]; reflexivity.
  - destruct (handleRemoteIce e (msg_from msg) (cand_of (msg_data msg)) m) as [[?|[]] ?]; reflexivity.
  - reflexivity.
Qed.

(** X21: whatever signal arrives and whatever the engine answers, the
    listener returns normally, leaves role, own id and recorded host as
    they are, and hands nothing to the bus but answers addressed to the
    sender of the signal. *)
Theorem onSignal_only_answers (e : engine) (msg : SignalMessage) (m : manager) :
  let r := onSignal e msg m in
  r.1 = inr tt ∧ isHost r.2 = isHost m ∧ myUserId r.2 = myUserId m ∧
  currentHostId r.2 = currentHostId m ∧
  ∃ l, outbox r.2 = outbox m ++ l ∧
       Forall (λ s, msg_type s = answer ∧ msg_to s = msg_from msg) l.
Proof.
  cbv zeta. split; [ apply onSignal_returns | ].
  destruct (steps_onSignal e msg m) as (H & U & C & l & O & F).
  split; [ exact H | ]. split; [ exact U | ]. split; [ exact C | ].
  exists l. split; [ exact O | exact F ].
Qed.

(** X22: a participant that is not host never sends an offer: a signal
    leaves the offers handed to the bus as they are (and the participant
    not host), and the INSERT handler, the ICE retry and [connectToPeer]
    itself leave the manager unchanged, the last with an error. *)
Theorem client_never_offers (e : engine) (msg : SignalMessage) (u p : string)
    (w : bool) (m : manager) :
  isHost m = false →
  offers_sent (onSignal e msg m).2 = offers_sent m ∧
  isHost (onSignal e msg m).2 = false ∧
  (onMemberInsert e u m).2 = m ∧
  (retry e p m).2 = m ∧
  (∃ err, connectToPeer e p w m = (inl err, m)).
Proof.
  intros Hh.
  assert (Hc : ∀ q w', ∃ err, connectToPeer e q w' m = (inl err, m)).
  { intros q w'. unfold connectToPeer, mbind, M_bind, gets.
    destruct (initialized m); cbn; [ | eexists; reflexivity ].
    rewrite Hh. cbn. eexists; reflexivity. }
  destruct (steps_onSignal e msg m) as (H & U & C & l & O & F).
  split.
  { unfold offers_sent. rewrite O, filter_app.
    assert (E : filter (λ s, msg_type s = offer) l = []).
    { clear O. induction F as [|s l [Hs _] F IH]; [ reflexivity | ].
      rewrite filter_cons_False by (rewrite Hs; discriminate). exact IH. }
    rewrite E, app_nil_r. reflexivity. }
  split; [ rewrite H; exact Hh | ]. split.
  { unfold onMemberInsert, mbind, M_bind, gets. rewrite Hh.
    rewrite andb_false_r. reflexivity. }
  split; [ | apply Hc ].
  unfold retry, mbind, M_bind, gets, try_catch.
  destruct (JsMap.get p (peerConnections m)); [ | reflexivity ].
  destruct (Hc p false) as [err ->]. reflexivity.
Qed.

Lemma client_never_offers_witness :
  offers_sent (onSignal engine_ok (offer_for engine_ok "h" "me") client_me).2 = [] ∧
  (retry engine_ok "h" client_me).2 = client_me.
Proof.
  assert (H := client_never_offers engine_ok (offer_for engine_ok "h" "me")
                 "p" "h" false client_me eq_refl).
  destruct H as (H1 & _ & _ & H4 & _).
  split; [ exact H1 | exact H4 ].
Defined.

End answering.

(* ------------------------------------------------------------------ *)
(** ** webrtc.ts: sending and the connected peers *)

Section sending.
Import Webrtc Manager.

Lemma get_Some_elem {V} k (v : V) l : JsMap.get k l = Some v → (k, v) ∈ l.
Proof.
  induction l as [|[k' v'] l IH]; cbn; [ discriminate | ].
  destruct (decide (k = k')) as [->|Hne].
  - intros [= ->]. left.
  - intros H. right. apply IH, H.
Qed.

Lemma elem_get_NoDup {V} k (v : V) l :
  NoDup l.*1 → (k, v) ∈ l → JsMap.get k l = Some v.
Proof.
  induction l as [|[k' v'] l IH]; cbn; intros Hnd Hin; [ inversion Hin | ].
  apply NoDup_cons in Hnd as [Hk Hnd].
  apply elem_of_cons in Hin as [[= <- <-]|Hin].
  - destruct (decide (k = k)); [ reflexivity | congruence ].
  - destruct (decide (k = k')) as [->|Hne]; [ | apply IH; assumption ].
    exfalso. apply Hk. apply list_elem_of_fmap. exists (k', v). auto.
Qed.

(** X23: [getConnectedPeers] lists each peer at most once, and a peer is
    listed exactly when [getPeerState] answers [connected] for it. *)
Theorem getConnectedPeers_spec (p : string) (m : manager) :
  NoDup (peerConnections m).*1 →
  NoDup (getConnectedPeers m) ∧
  (p ∈ getConnectedPeers m ↔ getPeerState p m = Some connected).
Proof.
  intros Hnd. unfold getConnectedPeers, getPeerState. split.
  - clear p. induction (peerConnections m) as [|[k v] l IH]; [ constructor | ].
    rewrite fmap_cons in Hnd. apply NoDup_cons in Hnd as [Hk Hnd].
    destruct (decide (state v = connected)) as [E|E].
    + rewrite filter_cons_True by exact E. rewrite fmap_cons.
      apply NoDup_cons. split; [ | auto ].
      intros Hin. apply Hk. apply list_elem_of_fmap in Hin as ([k' v'] & -> & Hin).
      apply list_elem_of_filter in Hin as [_ Hin].
      apply list_elem_of_fmap. exists (k', v'). auto.
    + rewrite filter_cons_False by exact E. auto.
  - rewrite list_elem_of_fmap. split.
    + intros ([k v] & -> & Hin). apply list_elem_of_filter in Hin as [Hs Hin].
      cbn in *. rewrite (elem_get_NoDup _ _ _ Hnd Hin). cbn. congruence.
    + destruct (JsMap.get p (peerConnections m)) as [v|] eqn:Hget; [ | discriminate ].
      cbn. intros [= Hs]. exists (p, v). split; [ reflexivity | ].
      apply list_elem_of_filter. split; [ exact Hs | ]. apply get_Some_elem, Hget.
Qed.

Lemma getConnectedPeers_spec_witness :
  "c" ∈ getConnectedPeers three_peers ↔ getPeerState "c" three_peers = Some connected.
Proof.
  apply (getConnectedPeers_spec "c" three_peers).
  apply (bool_decide_unpack _). vm_compute. exact I.
Defined.

(** X24: [sendToPeer] and [broadcast] agree on who can be reached.
    [sendToPeer] never changes the manager; for a peer [broadcast] calls
    [send] for, it calls the same [send] and rethrows what that throws;
    for any other peer it throws before sending. *)
Theorem sendToPeer_broadcast (e : engine) (p : string) (m : manager) :
  NoDup (peerConnections m).*1 →
  let r := sendToPeer e p m in
  r.2 = m ∧
  (p ∈ attempted (broadcast e m) → r.1 = from_option inl (inr tt) (dc_send e p)) ∧
  (p ∉ attempted (broadcast e m) → ∃ msg, r.1 = inl msg) ∧
  (r.1 = inr tt → p ∈ attempted (broadcast e m) ∧ dc_send e p = None).
Proof.
  intros Hnd. cbv zeta.
  destruct (broadcast_loop_spec e (peerConnections m)
              {| sent := 0; errors := []; attempted := [] |}) as (Ha & _).
  cbv zeta in Ha. cbn [attempted app] in Ha. fold (broadcast e m) in Ha.
  assert (Hin : p ∈ attempted (broadcast e m) ↔
                ∃ conn, JsMap.get p (peerConnections m) = Some conn ∧
                        deliverable conn = true).
  { rewrite Ha, list_elem_of_fmap. split.
    - intros ([k v] & -> & H). apply list_elem_of_filter in H as [Hd H].
      exists v. split; [ apply elem_get_NoDup; assumption | exact Hd ].
    - intros (conn & Hget & Hd). exists (p, conn). split; [ reflexivity | ].
      apply list_elem_of_filter. split; [ exact Hd | apply get_Some_elem, Hget ]. }
  assert (Hcase :
    (∃ conn, JsMap.get p (peerConnections m) = Some conn ∧ deliverable conn = true ∧
             sendToPeer e p m = (from_option inl (inr tt) (dc_send e p), m)) ∨
    ((¬ ∃ conn, JsMap.get p (peerConnections m) = Some conn ∧ deliverable conn = true) ∧
     ∃ msg, sendToPeer e p m = (inl msg, m))).
  { unfold sendToPeer, deliverable.
    destruct (JsMap.get p (peerConnections m)) as [conn|] eqn:Hget.
    - destruct (dc conn) as [rs|] eqn:Hdc.
      + destruct (decide (rs = rs_open)) as [->|Hrs].
        * rewrite bool_decide_eq_true_2 by reflexivity. cbn [negb].
          destruct (decide (state conn = connected)) as [Hs|Hs].
          -- rewrite (bool_decide_eq_true_2 _ Hs). cbn [negb]. left. exists conn.
             split; [ reflexivity | ]. split.
             ++ rewrite Hdc, (bool_decide_eq_true_2 _ Hs).
                rewrite bool_decide_eq_true_2 by reflexivity. reflexivity.
             ++ destruct (dc_send e p); reflexivity.
          -- rewrite (bool_decide_eq_false_2 _ Hs). cbn [negb]. right. split.
             ++ intros (c & [= <-] & Hd). rewrite (bool_decide_eq_false_2 _ Hs) in Hd.
                rewrite andb_false_r in Hd. discriminate.
             ++ eexists. reflexivity.
        * rewrite (bool_decide_eq_false_2 _ Hrs). cbn [negb]. right. split.
          -- intros (c & [= <-] & Hd). rewrite Hdc in Hd.
             rewrite bool_decide_eq_false_2 in Hd by congruence. discriminate.
          -- eexists. reflexivity.
      + right. split.
        * intros (c & [= <-] & Hd). rewrite Hdc in Hd.
          rewrite bool_decide_eq_false_2 in Hd by discriminate. discriminate.
        * eexists. reflexivity.
    - right. split; [ intros (c & Hc & _); discriminate | eexists; reflexivity ]. }
  destruct Hcase as [(conn & Hget & Hd & E)|[Hno (msg & E)]]; rewrite E; cbn [fst snd].
  - split; [ reflexivity | ]. split; [ reflexivity | ]. split.
    + intros Hn. exfalso. apply Hn, Hin. eauto.
    + intros Hr. split; [ apply Hin; eauto | ].
      destruct (dc_send e p); [ discriminate | reflexivity ].
  - split; [ reflexivity | ]. split.
    + intros H. exfalso. apply Hno, Hin, H.
    + split; [ eauto | discriminate ].
Qed.

Lemma sendToPeer_broadcast_witness :
  (sendToPeer engine_ok "a" three_peers).1 = inr tt ∧
  ∃ msg, (sendToPeer engine_ok "c" three_peers).1 = inl msg.
Proof.
  assert (Hnd : NoDup (peerConnections three_peers).*1)
    by (apply (bool_decide_unpack _); vm_compute; exact I).
  split.
  - assert (H := sendToPeer_broadcast engine_ok "a" three_peers Hnd).
    cbv zeta in H. destruct H as (_ & H & _). apply H.
    apply (bool_decide_unpack _). vm_compute. exact I.
  - assert (H := sendToPeer_broadcast engine_ok "c" three_peers Hnd).
    cbv zeta in H. destruct H as (_ & _ & H & _). apply H.
    apply (bool_decide_unpack _). vm_compute. exact I.
Defined.

End sending.

(* ------------------------------------------------------------------ *)
(** ** joinRoom.ts: leaving and creating a room *)

Section leaving.
Import Store Session.




End leaving.

Section creating.
Import Store HostElection Election.

(** X26: [joinRoom] on an id no room has creates the room with the caller
    as owner, under the given name (the id when none is given), and gives
    the caller a membership row; [amIHost] then answers [true] and writes
    nothing, as [createRoom] relies on. *)
Theorem creator_is_host (roomId userId : string) (roomName : option string)
    (view : option Presence.presenceState) (d : db) :
  userId ≠ "" → rooms d !! roomId = None →
  let d1 := (joinRoom roomId userId roomName d).2 in
  let r := run (amIHost roomId userId view) d1 in
  owner_of roomId d1 = Some userId ∧
  room_name <$> rooms d1 !! roomId = Some (default roomId (or_null roomName)) ∧
  (roomId, userId) ∈ room_members d1 ∧
  r.1 = true ∧ r.2 = d1.
Proof.
  intros Hu Hr. cbv zeta.
  assert (Ht : truthy userId = true) by (unfold truthy; apply bool_decide_eq_true_2; exact Hu).
  unfold joinRoom, insert_member, owner_of, amIHost, getCurrentHost. cbn.
  rewrite Hr. cbn.
  destruct (bool_decide ((roomId, userId) ∈ room_members d)) eqn:Hm;
    repeat first [ rewrite lookup_insert_eq | rewrite Ht
                 | rewrite bool_decide_eq_true_2 by reflexivity
                 | progress cbn | progress unfold or_null, truthy ].
  - split; [ reflexivity | ]. split; [ reflexivity | ].
    split; [ apply bool_decide_eq_true in Hm; exact Hm | auto ].
  - split; [ reflexivity | ]. split; [ reflexivity | ].
    split; [ apply elem_of_union_l, elem_of_singleton; reflexivity | auto ].
Qed.

Lemma creator_is_host_witness :
  let d := {| rooms := ∅; room_members := ∅ |} in
  let d1 := (joinRoom "r" "me" None d).2 in
  owner_of "r" d1 = Some "me" ∧ (run (amIHost "r" "me" None) d1).1 = true.
Proof.
  assert (H := creator_is_host "r" "me" None None {| rooms := ∅; room_members := ∅ |}).
  cbv zeta in H.
  destruct H as (H1 & _ & _ & H4 & _); [ discriminate | reflexivity | ].
  split; [ exact H1 | exact H4 ].
Defined.

End creating.

(* ------------------------------------------------------------------ *)
(** ** signaling.ts *)

Section signaling_facts.
Import Signaling.

Lemma sendSignal_cached s to_ ty d b :
  is_Some (JsMap.get to_ (privateChannels b)) →
  privateChannels (sendSignal s to_ ty d b).2 = privateChannels b ∧
  opened (sendSignal s to_ ty d b).2 = opened b.
Proof.
  intros [t Ht]. unfold sendSignal.
  destruct (or_null (myUserId b)); [ | auto ].
  destruct (decide (to_ = _)); [ auto | ].
  destruct (decide (ty = _)).
  - destruct (channel b); [ destruct s | ]; auto.
  - rewrite Ht. destruct s; auto.
Qed.

Lemma sendSignal_caches s to_ ty d b me :
  or_null (myUserId b) = Some me → to_ ≠ me → ty ≠ Webrtc.host_elected →
  is_Some (JsMap.get to_ (privateChannels (sendSignal s to_ ty d b).2)) ∧
  length (opened (sendSignal s to_ ty d b).2) ≤ S (length (opened b)).
Proof.
  intros Hme Hne Hty. unfold sendSignal. rewrite Hme.
  destruct (decide (to_ = me)); [ contradiction | ].
  destruct (decide (ty = _)); [ contradiction | ].
  destruct (JsMap.get to_ (privateChannels b)) as [t|] eqn:Ht.
  - destruct s; cbn; rewrite Ht; split; eauto.
  - destruct s; cbn; rewrite get_set_eq, length_app; cbn; split; eauto; lia.
Qed.

(** X27: [sendSignal] opens at most one private channel per recipient.
    A send to another participant returns or rethrows what the channel's
    [send] does; it opens the channel "user:<to>" only when none is
    cached for the recipient, also when the send then fails; a further
    send to the same recipient opens none and leaves the cache as it
    is. *)
Theorem sendSignal_reuses_channel (s1 s2 : option string) (to_ me : string)
    (ty ty' : Webrtc.SignalType) (d d' : Webrtc.payload) (b : bus) :
  or_null (myUserId b) = Some me → to_ ≠ me → ty ≠ Webrtc.host_elected →
  let r1 := sendSignal s1 to_ ty d b in
  let r2 := sendSignal s2 to_ ty' d' r1.2 in
  r1.1 = from_option inl (inr tt) s1 ∧
  opened r1.2 =
    opened b ++ match JsMap.get to_ (privateChannels b) with
                | Some _ => []
                | None => [getUserChannelName to_]
                end ∧
  opened r2.2 = opened r1.2 ∧ privateChannels r2.2 = privateChannels r1.2.
Proof.
  intros Hme Hne Hty. cbv zeta.
  destruct (sendSignal_caches s1 to_ ty d b me Hme Hne Hty) as [Hc _].
  destruct (sendSignal_cached s2 to_ ty' d' _ Hc) as [-> ->].
  split; [ | split; [ | auto ] ].
  - unfold sendSignal. rewrite Hme.
    destruct (decide (to_ = me)); [ contradiction | ].
    destruct (decide (ty = _)); [ contradiction | ]. destruct s1; reflexivity.
  - unfold sendSignal. rewrite Hme.
    destruct (decide (to_ = me)); [ contradiction | ].
    destruct (decide (ty = _)); [ contradiction | ].
    destruct (JsMap.get to_ (privateChannels b)); destruct s1; cbn;
      rewrite ?app_nil_r; reflexivity.
Qed.

Lemma remove_first_app_new cb l : cb ∉ l → remove_first cb (l ++ [cb]) = l.
Proof.
  induction l as [|x l IH]; cbn; intros H.
  - destruct (decide (cb = cb)); [ reflexivity | congruence ].
  - destruct (decide (x = cb)) as [->|Hx].
    + exfalso. apply H. left.
    + rewrite IH; [ reflexivity | ]. intros Hin. apply H. right. exact Hin.
Qed.

(** X28: the listeners of signaling.ts. A signal addressed to the
    authenticated id is delivered to every listener, in registration
    order, a listener just registered with [onSignal] last; a signal
    addressed to anyone else, or arriving while no id is authenticated,
    is delivered to no listener. The function [onSignal] returns removes
    one registration. After [closeSignaling] no listener is called and
    every send fails with "not authenticated", while the cache of private
    channels is kept. *)
Theorem listener_lifecycle (cb : nat) (msg : Webrtc.SignalMessage) (b : bus) :
  (or_null (myUserId b) = Some (Webrtc.msg_to msg) →
   dispatchSignal msg b = listeners b ∧
   dispatchSignal msg (onSignal cb b) = listeners b ++ [cb]) ∧
  (or_null (myUserId b) ≠ Some (Webrtc.msg_to msg) →
   dispatchSignal msg b = [] ∧ dispatchSignal msg (onSignal cb b) = []) ∧
  (cb ∉ listeners b → unsubscribe cb (onSignal cb b) = b) ∧
  length (listeners (unsubscribe cb (onSignal cb b))) = length (listeners b) ∧
  (∀ s to_ ty d,
     sendSignal s to_ ty d (closeSignaling b) =
       (inl "not authenticated", closeSignaling b)) ∧
  dispatchSignal msg (closeSignaling b) = [] ∧
  privateChannels (closeSignaling b) = privateChannels b.
Proof.
  split; [ | split; [ | split; [ | split; [ | auto ] ] ] ].
  - intros H. unfold dispatchSignal, onSignal. cbn. rewrite H.
    destruct (decide _); [ auto | congruence ].
  - intros H. unfold dispatchSignal, onSignal. cbn.
    destruct (or_null (myUserId b)) as [me|]; [ | auto ].
    destruct (decide _) as [E|_]; [ | auto ].
    exfalso. apply H. rewrite E. reflexivity.
  - intros H. unfold unsubscribe, onSignal. cbn. rewrite remove_first_app_new by exact H.
    destruct b; reflexivity.
  - unfold unsubscribe, onSignal. cbn. generalize (listeners b). intros l.
    induction l as [|x l IH]; cbn.
    + destruct (decide (cb = cb)); [ reflexivity | congruence ].
    + destruct (decide (x = cb)); cbn; [ | rewrite IH; reflexivity ].
      rewrite length_app. cbn. lia.
Qed.

Lemma sendSignal_reuses_channel_witness :
  let b := {| channel := Some "room:r"; privateChannel := Some "user:me";
              privateChannels := []; myUserId := Some "me";
              roomTopic := Some "room:r"; listeners := []; opened := [];
              sent := [] |} in
  let r1 := sendSignal (Some "send failed") "p" Webrtc.offer (Webrtc.Sdp "v=0") b in
  let r2 := sendSignal None "p" Webrtc.ice (Webrtc.Ice host_candidate) r1.2 in
  opened r1.2 = ["user:p"] ∧ opened r2.2 = opened r1.2.
Proof.
  cbv zeta.
  assert (H := sendSignal_reuses_channel (Some "send failed") None "p" "me"
                 Webrtc.offer Webrtc.ice (Webrtc.Sdp "v=0") (Webrtc.Ice host_candidate)
                 {| channel := Some "room:r"; privateChannel := Some "user:me";
                    privateChannels := []; myUserId := Some "me";
                    roomTopic := Some "room:r"; listeners := []; opened := [];
                    sent := [] |}).
  cbv zeta in H.
  destruct H as (_ & H2 & H3 & _); [ reflexivity | discriminate | discriminate | ].
  split; [ exact H2 | exact H3 ].
Defined.

End signaling_facts.

(* ------------------------------------------------------------------ *)
(** ** webrtc.ts: the transition table *)

Section state_table.
Import Webrtc Manager.






End state_table.
